(** * OkechikaTranslater: the substitution-mapping pipeline and the DOM
      rewriting engine, embedded from [background.js] and [content.js].

    Part I holds the definitions, one per source function and under the
    source's name; Part II holds the lemmas and the theorems about them. *)

From Stdlib Require Import String Ascii DecimalString.
From Stdlib Require Import List NArith ZArith Bool Arith Lia.
From Stdlib Require Import Permutation Sorted.
Import ListNotations.

Set Warnings "-register-all".

(* ################################################################# *)
(** * Part I: definitions *)

(* ================================================================= *)
(** ** JavaScript strings *)

(** A JavaScript string is a sequence of UTF-16 code units. *)
Abbreviation jschar := N (only parsing).
Abbreviation jstring := (list N) (only parsing).

(** ASCII literals, for the constants of the source. *)
Definition js (s : string) : jstring :=
  map N_of_ascii (list_ascii_of_string s).

Definition QUOTE : jschar := 34%N.     (* the double quote *)
Definition COMMA : jschar := 44%N.
Definition CR : jschar := 13%N.
Definition LF : jschar := 10%N.
Definition SPACE : jschar := 32%N.
Definition BACKSLASH : jschar := 92%N.
Definition BAR : jschar := 124%N.

Fixpoint str_eqb (a b : jstring) : bool :=
  match a, b with
  | [], [] => true
  | x :: a', y :: b' => N.eqb x y && str_eqb a' b'
  | _, _ => false
  end.

(** [s.length === 0], the falsiness of a string ([!s]). *)
Definition isEmpty (s : jstring) : bool :=
  match s with [] => true | _ => false end.

(** WhiteSpace and LineTerminator of ECMAScript: what [String.prototype.trim]
    strips and what [\s] matches (the full-width space U+3000 is one of
    them, so the class [\s\u3000] of the source is [\s]). *)
Definition isWhiteSpace (c : jschar) : bool :=
  ((c =? 9) || (c =? 10) || (c =? 11) || (c =? 12) || (c =? 13)
   || (c =? 32) || (c =? 160) || (c =? 0x1680)
   || ((0x2000 <=? c) && (c <=? 0x200A))
   || (c =? 0x2028) || (c =? 0x2029) || (c =? 0x202F) || (c =? 0x205F)
   || (c =? 0x3000) || (c =? 0xFEFF))%N.

Fixpoint trimStart (s : jstring) : jstring :=
  match s with
  | c :: s' => if isWhiteSpace c then trimStart s' else s
  | [] => []
  end.

Definition trimEnd (s : jstring) : jstring := rev (trimStart (rev s)).

(** [s.trim()] *)
Definition trim (s : jstring) : jstring := trimEnd (trimStart s).

(** [s.slice(0, n)] *)
Definition slice0 (n : nat) (s : jstring) : jstring := firstn n s.

Fixpoint startsWith (p s : jstring) : bool :=
  match p, s with
  | [], _ => true
  | x :: p', y :: s' => N.eqb x y && startsWith p' s'
  | _ :: _, [] => false
  end.

(** [s.includes(p)] *)
Fixpoint includes (s p : jstring) : bool :=
  startsWith p s ||
  match s with
  | [] => false
  | _ :: s' => includes s' p
  end.

(** [s.split(/[\s\u3000]+/)]: the pieces between the maximal runs of white
    space; a run at either end leaves an empty piece there, and the empty
    string gives one empty piece.  [cur] is the piece being read and
    [inRun] tells that the previous character belonged to a separator. *)
Fixpoint splitWsFrom (s : jstring) (cur : jstring) (inRun : bool) : list jstring :=
  match s with
  | [] => [cur]
  | c :: s' =>
      if isWhiteSpace c then
        if inRun then splitWsFrom s' [] true
        else cur :: splitWsFrom s' [] true
      else splitWsFrom s' (cur ++ [c]) false
  end.

Definition splitWs (s : jstring) : list jstring := splitWsFrom s [] false.

(** [.filter(Boolean)] on an array of strings. *)
Definition filterBoolean (l : list jstring) : list jstring :=
  filter (fun p => negb (isEmpty p)) l.

(** [s.trim().split(/[\s\u3000]+/).filter(Boolean)], as [mappingFromRows]
    writes it three times. *)
Definition tokensOf (s : jstring) : list jstring :=
  filterBoolean (splitWs (trim s)).

(* ================================================================= *)
(** ** Tabular Parser: [parseCsv] *)

Definition table := list (list jstring).

Record csvState := mkCsv {
  rows : table;
  row : list jstring;
  field : jstring;
  inQuotes : bool
}.

Definition csvInit : csvState := mkCsv [] [] [] false.

Definition addToField (st : csvState) (ch : jschar) : csvState :=
  mkCsv (rows st) (row st) (field st ++ [ch]) (inQuotes st).

Definition setInQuotes (st : csvState) (b : bool) : csvState :=
  mkCsv (rows st) (row st) (field st) b.

(** [row.push(field); field = ""] *)
Definition pushField (st : csvState) : csvState :=
  mkCsv (rows st) (row st ++ [field st]) [] (inQuotes st).

(** [row.push(field); rows.push(row); row = []; field = ""] *)
Definition pushRow (st : csvState) : csvState :=
  mkCsv (rows st ++ [row st ++ [field st]]) [] [] (inQuotes st).

(** The [for] loop of [parseCsv], on the characters from index [i] on.  The
    look-ahead [text[i + 1]] is the head of the rest, and [i++] inside the
    body drops it. *)
Fixpoint parseCsvLoop (text : jstring) (st : csvState) : csvState :=
  match text with
  | [] => st
  | ch :: rest =>
      if inQuotes st then
        if (ch =? QUOTE)%N then
          match rest with
          | next :: rest' =>
              if (next =? QUOTE)%N
              then parseCsvLoop rest' (addToField st QUOTE)
              else parseCsvLoop rest (setInQuotes st false)
          | [] => parseCsvLoop rest (setInQuotes st false)
          end
        else parseCsvLoop rest (addToField st ch)
      else if (ch =? QUOTE)%N then parseCsvLoop rest (setInQuotes st true)
      else if (ch =? COMMA)%N then parseCsvLoop rest (pushField st)
      else if (ch =? CR)%N then parseCsvLoop rest st
      else if (ch =? LF)%N then parseCsvLoop rest (pushRow st)
      else parseCsvLoop rest (addToField st ch)
  end.

(** [last.every((c) => (c ?? "").trim() === "")] *)
Definition allEmpty (r : list jstring) : bool :=
  forallb (fun c => isEmpty (trim c)) r.

(** The [while (rows.length > 0)] loop that pops the empty rows at the end;
    every turn but the last pops one row, so [length rows] turns are
    enough. *)
Fixpoint popEmptyRows (turns : nat) (rs : table) : table :=
  match turns with
  | O => rs
  | S turns' =>
      match rev rs with
      | [] => rs
      | last :: _ =>
          if allEmpty last then popEmptyRows turns' (removelast rs) else rs
      end
  end.

Definition parseCsv (text : jstring) : table :=
  let st := parseCsvLoop text csvInit in
  let st := pushRow st in
  popEmptyRows (length (rows st)) (rows st).

(** *** The reference semantics of the Tabular Parser

    Written from the specification's sentences, not from the loop: the
    table is read off the text from left to right with no accumulator.
    Every text ends in a final row that holds a final field; a character
    either goes in front of the field that follows it, or closes a field
    or a row. *)

Definition consChar (c : jschar) (t : table) : table :=
  match t with
  | (f :: r) :: t' => ((c :: f) :: r) :: t'
  | [] :: t' => [[c]] :: t'
  | [] => [[[c]]]
  end.

Definition endField (t : table) : table :=
  match t with
  | r :: t' => ([] :: r) :: t'
  | [] => [[[]]]
  end.

Definition endRow (t : table) : table := [[]] :: t.

Fixpoint readTable (quoted : bool) (text : jstring) : table :=
  match text with
  | [] => [[[]]]
  | c :: rest =>
      if quoted then
        if (c =? QUOTE)%N then
          match rest with
          | c' :: rest' =>
              (* a doubled quote is one literal quote *)
              if (c' =? QUOTE)%N then consChar QUOTE (readTable true rest')
              else readTable false rest
          | [] => readTable false rest
          end
        else
          (* every other character is literal inside quotes *)
          consChar c (readTable true rest)
      else if (c =? QUOTE)%N then readTable true rest
      else if (c =? COMMA)%N then endField (readTable false rest)
      else if (c =? CR)%N then readTable false rest
      else if (c =? LF)%N then endRow (readTable false rest)
      else consChar c (readTable false rest)
  end.

Definition blankCell (c : jstring) : bool := forallb isWhiteSpace c.

Definition blankRow (r : list jstring) : bool := forallb blankCell r.

(** Remove the rows at the end whose every cell is empty or white space. *)
Fixpoint dropTrailingBlankRows (t : table) : table :=
  match t with
  | [] => []
  | r :: t' =>
      match dropTrailingBlankRows t' with
      | [] => if blankRow r then [] else [r]
      | t'' => r :: t''
      end
  end.

(** The carriage returns of the quoted fields, taken out of the text;
    [quoted] tells whether the text starts inside a quoted field. *)
Fixpoint stripQuotedCR (quoted : bool) (text : jstring) : jstring :=
  match text with
  | [] => []
  | c :: rest =>
      if quoted then
        if (c =? QUOTE)%N then
          match rest with
          | c' :: rest' =>
              if (c' =? QUOTE)%N then c :: c' :: stripQuotedCR true rest'
              else c :: stripQuotedCR false rest
          | [] => [c]
          end
        else if (c =? CR)%N then stripQuotedCR true rest
        else c :: stripQuotedCR true rest
      else c :: stripQuotedCR (c =? QUOTE)%N rest
  end.

(** The text has a carriage return inside a quoted field. *)
Fixpoint hasQuotedCR (quoted : bool) (text : jstring) : bool :=
  match text with
  | [] => false
  | c :: rest =>
      if quoted then
        if (c =? QUOTE)%N then
          match rest with
          | c' :: rest' =>
              if (c' =? QUOTE)%N then hasQuotedCR true rest'
              else hasQuotedCR false rest
          | [] => false
          end
        else if (c =? CR)%N then true
        else hasQuotedCR true rest
      else hasQuotedCR (c =? QUOTE)%N rest
  end.

(** The reference as the specification words it: carriage returns are
    stripped wherever they stand, those of the quoted fields too. *)
Definition parseCsv_spec (text : jstring) : table :=
  dropTrailingBlankRows (readTable false (stripQuotedCR false text)).

(** The reference with carriage returns stripped outside quoted fields
    only: inside a quoted field they are literal like every character but
    the quote. *)
Definition parseCsv_ref (text : jstring) : table :=
  dropTrailingBlankRows (readTable false text).

(* ================================================================= *)
(** ** JavaScript objects and [Map]s used as maps *)

(** The own enumerable string-keyed properties of an object, in the order
    in which [Object.entries] lists them: array-index keys first, by
    ascending index, then the other keys in the order of their creation. *)
Definition jsobj := list (jstring * jstring).

Fixpoint obj_get (o : jsobj) (k : jstring) : option jstring :=
  match o with
  | [] => None
  | (k', v) :: o' => if str_eqb k' k then Some v else obj_get o' k
  end.

Definition obj_has (o : jsobj) (k : jstring) : bool :=
  match obj_get o k with Some _ => true | None => false end.

Definition obj_keys (o : jsobj) : list jstring := map fst o.

Definition isDigit (c : jschar) : bool := ((48 <=? c) && (c <=? 57))%N.

Definition digitsValue (s : jstring) : N :=
  fold_left (fun acc c => acc * 10 + (c - 48))%N s 0%N.

(** The index that a property key denotes when it is an array index: a
    canonical decimal numeral below 2^32 - 1. *)
Definition arrayIndex (k : jstring) : option N :=
  match k with
  | [] => None
  | c :: k' =>
      if forallb isDigit k && (negb (c =? 48)%N || isEmpty k') then
        if (digitsValue k <? 4294967295)%N then Some (digitsValue k) else None
      else None
  end.

(** A new property takes its place in the order of the keys. *)
Fixpoint obj_insert (k v : jstring) (o : jsobj) : jsobj :=
  match o with
  | [] => [(k, v)]
  | (k', v') :: o' =>
      match arrayIndex k, arrayIndex k' with
      | Some i, Some i' =>
          if (i <? i')%N then (k, v) :: o else (k', v') :: obj_insert k v o'
      | Some _, None => (k, v) :: o
      | None, _ => (k', v') :: obj_insert k v o'
      end
  end.

(** The value of an existing property changes where the property stands. *)
Fixpoint obj_replace (k v : jstring) (o : jsobj) : jsobj :=
  match o with
  | [] => []
  | (k', v') :: o' =>
      if str_eqb k' k then (k, v) :: o' else (k', v') :: obj_replace k v o'
  end.

(** Defining an own data property, as object spread does. *)
Definition obj_define (k v : jstring) (o : jsobj) : jsobj :=
  if obj_has o k then obj_replace k v o else obj_insert k v o.

Definition PROTO : jstring := js "__proto__".

(** [o[k] = v] on an object that inherits from [Object.prototype].  The
    key [__proto__] is inherited as an accessor: assigning to it calls the
    setter, which ignores a value that is a string, and the object gets no
    property of its own. *)
Definition obj_set (k v : jstring) (o : jsobj) : jsobj :=
  if str_eqb k PROTO && negb (obj_has o k) then o else obj_define k v o.

(** [{ ...a, ...b }] *)
Definition obj_spread (a b : jsobj) : jsobj :=
  fold_left (fun o kv => obj_define (fst kv) (snd kv) o) b
    (fold_left (fun o kv => obj_define (fst kv) (snd kv) o) a []).

(** A [Map] whose keys are numbers, as an association list in insertion
    order. *)
Definition nummap := list (Z * jstring).

Fixpoint map_get (m : nummap) (k : Z) : option jstring :=
  match m with
  | [] => None
  | (k', v) :: m' => if (k' =? k)%Z then Some v else map_get m' k
  end.

Fixpoint map_set (k : Z) (v : jstring) (m : nummap) : nummap :=
  match m with
  | [] => [(k, v)]
  | (k', v') :: m' =>
      if (k' =? k)%Z then (k, v) :: m' else (k', v') :: map_set k v m'
  end.

Definition map_size (m : nummap) : nat := length m.

(** [for (let i = 0; i < l.length; i++) { const x = l[i]; ... }], the loop
    body given as a function of the index, the element and the state. *)
Fixpoint forEachIndexed {A St : Type} (body : nat -> A -> St -> St)
    (i : nat) (l : list A) (s : St) : St :=
  match l with
  | [] => s
  | x :: l' => forEachIndexed body (S i) l' (body i x s)
  end.

(* ================================================================= *)
(** ** Mapping Builder: [mappingFromRows] *)

Section MappingBuilder.

(** [Number.parseInt(b, 10)] on a string of decimal digits; [None] stands
    for a result that is not finite. *)
Variable parseInt : jstring -> option Z.

(** [/^\d+$/.test(String(s ?? "").trim())] *)
Definition isNonNegativeIntegerString (s : jstring) : bool :=
  let t := trim s in negb (isEmpty t) && forallb isDigit t.

(** [cols] is [None] for [undefined], which is what [rows?.[0]] gives on
    an empty table. *)
Definition getCell (cols : option (list jstring)) (index : nat) : jstring :=
  match cols with
  | None => []
  | Some c => nth index c []
  end.

Definition looksLikePackedFirstRow (firstRowA : jstring) : bool :=
  let trimmed := trim firstRowA in
  if isEmpty trimmed then false
  else
    let tokens := filterBoolean (splitWs trimmed) in
    100 <=? length tokens.

Record indexTable := mkIndexTable {
  plainByIndex : nummap;
  maxIndex : Z
}.

(** Strategy 1, the body of the first loop. *)
Definition collectIndexed (cols : list jstring) (t : indexTable) : indexTable :=
  if length cols <? 2 then t else
  let a := trim (getCell (Some cols) 0) in
  let b := trim (getCell (Some cols) 1) in
  if isEmpty a || isEmpty b then t else
  if negb (isNonNegativeIntegerString b) then t else
  match parseInt b with
  | None => t
  | Some idx =>
      if (idx <? 0)%Z then t else
      mkIndexTable (map_set idx a (plainByIndex t))
                   (if (maxIndex t <? idx)%Z then idx else maxIndex t)
  end.

Definition indexedPlaintext (rows : table) : indexTable :=
  fold_left (fun t cols => collectIndexed cols t) rows (mkIndexTable [] (-1)).

(** Strategy 2 with a packed cell 1: the body of the loop over [i < len]. *)
Definition pairDirect (plainTokens : list jstring)
    (i : nat) (from : jstring) (mapping : jsobj) : jsobj :=
  let to := nth i plainTokens [] in
  if isEmpty from || isEmpty to then mapping
  else obj_set from to mapping.

(** Strategy 2 without one: the body of the loop of the modulo scheme. *)
Definition pairModulo (t : indexTable) (base : Z)
    (i : nat) (from : jstring) (mapping : jsobj) : jsobj :=
  match map_get (plainByIndex t) (Z.of_nat i mod base) with
  | None => mapping
  | Some to =>
      if isEmpty from || isEmpty to then mapping
      else obj_set from to mapping
  end.

Definition expandPacked (rows : table) (t : indexTable) (mapping : jsobj) : jsobj :=
  let firstRowA := getCell (hd_error rows) 0 in
  let firstRowB := getCell (hd_error rows) 1 in
  let cipherTokens := tokensOf firstRowA in
  let plainTokens := tokensOf firstRowB in
  let hasPackedDirect := 100 <=? length plainTokens in
  if hasPackedDirect then
    let len := Nat.min (length cipherTokens) (length plainTokens) in
    forEachIndexed (pairDirect plainTokens) 0 (firstn len cipherTokens) mapping
  else
    let base := (if (0 <=? maxIndex t)%Z then maxIndex t + 1 else 0)%Z in
    if (10 <=? map_size (plainByIndex t)) && (0 <? base)%Z then
      forEachIndexed (pairModulo t base) 0 cipherTokens mapping
    else mapping.

(** Strategy 3, the body of the last loop. *)
Definition directRow (packed : bool)
    (i : nat) (cols : list jstring) (mapping : jsobj) : jsobj :=
  if length cols <? 2 then mapping else
  if packed && (i =? 0) then mapping else
  let from := trim (getCell (Some cols) 0) in
  let toRaw := getCell (Some cols) 1 in
  let to := trim toRaw in
  if isEmpty from || isEmpty to then mapping
  else obj_set from to mapping.

Definition mappingFromRows (rows : table) : jsobj :=
  let mapping : jsobj := [] in
  let t := indexedPlaintext rows in
  let firstRowA := getCell (hd_error rows) 0 in
  let packed := looksLikePackedFirstRow firstRowA in
  let mapping := if packed then expandPacked rows t mapping else mapping in
  forEachIndexed (directRow packed) 0 rows mapping.

End MappingBuilder.

(** Decimal numerals read exactly.  [Number.parseInt] agrees with this on
    every numeral below 2^53; beyond, it rounds. *)
Definition parseIntExact (b : jstring) : option Z :=
  Some (Z.of_N (digitsValue b)).

(* ================================================================= *)
(** ** Mapping Source: [fetchFirstWorkingCsv] *)

(** [String(n)] for a non-negative integer. *)
Definition numberToString (n : N) : jstring :=
  js (NilEmpty.string_of_uint (N.to_uint n)).

Definition DOC_ID : jstring := js "13ctjzzbfV6AHE218r-aHGLBq8j4JL0pLOYw1R_pIiTg".
Definition SHEET_GID : N := 676289731.

(** The one URL that [buildCsvUrls] builds. *)
Definition CSV_URL : jstring :=
  js "https://docs.google.com/spreadsheets/d/" ++ DOC_ID
  ++ js "/export?format=csv&gid=" ++ numberToString SHEET_GID.

Definition buildCsvUrls : list jstring := [CSV_URL].

(** What [fetch] and [res.text()] resolve to. *)
Record response := mkResponse {
  res_ok : bool;
  res_status : N;
  res_statusText : jstring;
  res_text : jstring
}.

(** An [Error] with the properties that the source sets on it and reads
    from it; [None] is [undefined]. *)
Record error := mkError {
  message : jstring;
  status : option N;
  url : option jstring;
  bodySnippet : option jstring
}.

(** [new Error(message)] *)
Definition newError (msg : jstring) : error := mkError msg None None None.

(** A promise settled: rejected with an error or resolved with a value. *)
Inductive settled (A : Type) : Type :=
| Rejected (e : error)
| Resolved (a : A).
Arguments Rejected {A} e.
Arguments Resolved {A} a.

Record fetchedCsv := mkFetched {
  fetched_url : jstring;
  fetched_text : jstring;
  fetched_status : N
}.

Definition EMPTY_CSV : jstring := js "Empty CSV".
Definition NON_CSV : jstring :=
  js "Non-CSV response (HTML). Spreadsheet may require sign-in or is not published.".

Section MappingSource.

(** [String.prototype.toLowerCase] *)
Variable toLowerCase : jstring -> jstring.

(** [fetch(url, { cache: "no-store" })] followed by [res.text()]. *)
Variable fetch : jstring -> settled response.

Definition fetchFirstWorkingCsv (u : jstring) : settled fetchedCsv :=
  match fetch u with
  | Rejected e => Rejected e
  | Resolved res =>
      let text := res_text res in
      if negb (res_ok res) then
        Rejected (mkError
          (js "HTTP " ++ numberToString (res_status res) ++ js " " ++ res_statusText res)
          (Some (res_status res)) (Some u) (Some (slice0 300 text)))
      else if isEmpty text || (length (trim text) =? 0) then
        Rejected (mkError EMPTY_CSV (Some (res_status res)) (Some u) None)
      else
        let head := toLowerCase (slice0 2000 text) in
        if includes head (js "<html") || includes head (js "<!doctype html") then
          Rejected (mkError NON_CSV (Some (res_status res)) (Some u)
                      (Some (slice0 300 text)))
        else Resolved (mkFetched u text (res_status res))
  end.

End MappingSource.

(* ================================================================= *)
(** ** Mapping Cache: [sanitizeMappingObject] and [refreshMapping] *)

(** The values that a stored object can hold, as far as
    [String(v ?? "")] tells them apart. *)
Inductive jsval : Type :=
| VUndefined
| VNull
| VBool (b : bool)
| VString (s : jstring).

(** [String(v ?? "")] *)
Definition stringOf (v : jsval) : jstring :=
  match v with
  | VUndefined | VNull => []
  | VBool true => js "true"
  | VBool false => js "false"
  | VString s => s
  end.

(** The body of the loop of [sanitizeMappingObject]. *)
Definition sanitizeEntry (out : jsobj) (kv : jstring * jsval) : jsobj :=
  let key := trim (fst kv) in
  let val := stringOf (snd kv) in
  if isEmpty key then out
  else if length (trim val) =? 0 then out
  else obj_set key val out.

(** [obj] is [None] when the stored value is missing or is no object, and
    else the entries of the object as [Object.entries] lists them. *)
Definition sanitizeMappingObject (obj : option (list (jstring * jsval))) : jsobj :=
  match obj with
  | None => []
  | Some entries => fold_left sanitizeEntry entries []
  end.

(** The Cache Record, [None] being [undefined]. *)
Inductive cacheRecord : Type :=
| CacheOk (mapping : jsobj) (fetchedAt : Z) (sourceUrl : jstring)
          (durationMs : Z) (count : nat)
| CacheFailed (err : jstring) (status : option N) (privateOrAuthRequired : bool)
              (bodySnippet : option jstring) (fetchedAt : Z)
              (sourceUrlCandidates : list jstring).

(** [ok] of a Cache Record *)
Definition cache_ok (r : cacheRecord) : bool :=
  match r with
  | CacheOk _ _ _ _ _ => true
  | CacheFailed _ _ _ _ _ _ => false
  end.

(** The two keys of the extension's storage that the background script
    uses. *)
Record storage := mkStorage {
  cipherMapping : option cacheRecord;
  localOverrideMapping : option (list (jstring * jsval))
}.

Definition LOCAL_OVERRIDE_KEY : jstring := js "localOverrideMapping".

(** What [refreshMapping] resolves to. *)
Inductive refreshResult : Type :=
| RefreshOk (count : nat)
| RefreshFailed (err : jstring).

Definition EMPTY_MAPPING : jstring :=
  js "Mapping is empty (check A" ++ [0x5217%N; 0x2192%N] ++ js "B"
  ++ [0x5217%N] ++ js " and sheet contents)".

Section MappingCache.

Variable toLowerCase : jstring -> jstring.
Variable fetch : jstring -> settled response.
Variable parseInt : jstring -> option Z.

(** The readings of [Date.now()], in the order in which they are made. *)
Variable now : nat -> Z.

(** The promises of [storage.local.set] and [storage.local.get] can be
    rejected (a quota that is exceeded, a storage that cannot be reached):
    the error with which the write of a record, and the read of a key, is
    rejected, [None] when the call goes through. *)
Variable setError : cacheRecord -> option error.
Variable getError : jstring -> option error.

(** The loop over the candidate URLs: the first that gives a mapping with
    an entry; every failure on the way is caught and dropped. *)
Fixpoint firstWorkingMapping (urls : list jstring) : option (fetchedCsv * jsobj) :=
  match urls with
  | [] => None
  | candidateUrl :: urls' =>
      match fetchFirstWorkingCsv toLowerCase fetch candidateUrl with
      | Rejected _ => firstWorkingMapping urls'
      | Resolved fetched =>
          let rows := parseCsv (fetched_text fetched) in
          let m := mappingFromRows parseInt rows in
          if length (obj_keys m) =? 0 then firstWorkingMapping urls'
          else Some (fetched, m)
      end
  end.

(** [await EXT.storage.local.set({ [STORAGE_KEY]: record })]: the record
    takes the place of the stored one, or the promise is rejected and
    nothing is written. *)
Definition storageSet (record : cacheRecord) (st : storage) : settled storage :=
  match setError record with
  | Some e => Rejected e
  | None => Resolved (mkStorage (Some record) (localOverrideMapping st))
  end.

(** The record that the [catch] of [refreshMapping] writes for the error
    [e] when the clock has been read [readings] times. *)
Definition failureRecord (e : error) (readings : nat) (urls : list jstring)
  : cacheRecord :=
  let privateOrAuthRequired :=
    match status e with
    | Some s => (s =? 401)%N || (s =? 403)%N
    | None => false
    end in
  CacheFailed (message e) (status e) privateOrAuthRequired (bodySnippet e)
    (now readings) urls.

(** The [catch] of [refreshMapping].  Nothing catches the rejection of the
    write that it makes: the promise of [refreshMapping] is then rejected,
    and the storage is as it was. *)
Definition refreshFailure (e : error) (readings : nat) (urls : list jstring)
    (st : storage) : storage * settled refreshResult :=
  match storageSet (failureRecord e readings urls) st with
  | Rejected e' => (st, Rejected e')
  | Resolved st' => (st', Resolved (RefreshFailed (message e)))
  end.

(** [loadLocalOverrideMapping]: a read that is rejected is caught and
    gives the empty object. *)
Definition loadLocalOverrideMapping (st : storage) : jsobj :=
  match getError LOCAL_OVERRIDE_KEY with
  | Some _ => []
  | None => sanitizeMappingObject (localOverrideMapping st)
  end.

(** The second of the two copies of [refreshMapping] in [background.js]:
    the one that merges the local overrides.  The write of the success
    record is inside the [try]: when it is rejected, the [catch] is entered
    with its error, the clock having been read three times. *)
Definition refreshMapping (st : storage) : storage * settled refreshResult :=
  let urls := buildCsvUrls in
  match firstWorkingMapping urls with
  | None => refreshFailure (newError EMPTY_MAPPING) 1 urls st
  | Some (chosen, mapping) =>
      if length (obj_keys mapping) =? 0
      then refreshFailure (newError EMPTY_MAPPING) 1 urls st
      else
        let localOverrides := loadLocalOverrideMapping st in
        let mergedMapping := obj_spread mapping localOverrides in
        match storageSet (CacheOk mergedMapping (now 1) (fetched_url chosen)
                            (now 2 - now 0) (length (obj_keys mergedMapping))) st with
        | Rejected e => refreshFailure e 3 urls st
        | Resolved st' =>
            (st', Resolved (RefreshOk (length (obj_keys mergedMapping))))
        end
  end.

(** The first copy, which stores the mapping as it was built. *)
Definition refreshMapping_plain (st : storage) : storage * settled refreshResult :=
  let urls := buildCsvUrls in
  match firstWorkingMapping urls with
  | None => refreshFailure (newError EMPTY_MAPPING) 1 urls st
  | Some (chosen, mapping) =>
      if length (obj_keys mapping) =? 0
      then refreshFailure (newError EMPTY_MAPPING) 1 urls st
      else
        match storageSet (CacheOk mapping (now 1) (fetched_url chosen)
                            (now 2 - now 0) (length (obj_keys mapping))) st with
        | Rejected e => refreshFailure e 3 urls st
        | Resolved st' => (st', Resolved (RefreshOk (length (obj_keys mapping))))
        end
  end.

End MappingCache.

(** [toLowerCase] on the letters A to Z; the other code units are left as
    they are. *)
Definition asciiLower (s : jstring) : jstring :=
  map (fun c => if ((65 <=? c) && (c <=? 90))%N then (c + 32)%N else c) s.

(* ================================================================= *)
(** ** Replacer Engine: [buildReplacer] *)

(** [entries.sort((a, b) => b[0].length - a[0].length)]: the sort of
    arrays is stable, so the entries come out by descending length of the
    key, those of equal length in the order they had. *)
Fixpoint insertByLength (e : jstring * jstring) (l : list (jstring * jstring))
  : list (jstring * jstring) :=
  match l with
  | [] => [e]
  | x :: l' =>
      if length (fst e) <? length (fst x) then x :: insertByLength e l'
      else e :: l
  end.

Definition sortByLength (entries : list (jstring * jstring))
  : list (jstring * jstring) :=
  fold_right insertByLength [] entries.

(** The characters of the class [[.*+?^${}()|[\]\\]]. *)
Definition isSpecial (c : jschar) : bool :=
  existsb (N.eqb c) (js ".*+?^${}()|[]" ++ [BACKSLASH]).

(** [k.replace(/[.*+?^${}()|[\]\\]/g, "\\$&")] *)
Definition escapeKey (k : jstring) : jstring :=
  flat_map (fun c => if isSpecial c then [BACKSLASH; c] else [c]) k.

(** [l.join(sep)] *)
Fixpoint join (sep : jstring) (l : list jstring) : jstring :=
  match l with
  | [] => []
  | [x] => x
  | x :: l' => x ++ sep ++ join sep l'
  end.

(** A regular expression of the kind that the source builds: an
    alternation of literal strings, tried from left to right. *)
Definition regexp := list jstring.

(** The pattern read as such an alternation: a backslash makes the next
    character literal, a bar ends an alternative.  ([cur] is the
    alternative being read.) *)
Fixpoint readPattern (pattern : jstring) (cur : jstring) : regexp :=
  match pattern with
  | [] => [cur]
  | c :: p' =>
      if (c =? BACKSLASH)%N then
        match p' with
        | d :: p'' => readPattern p'' (cur ++ [d])
        | [] => [cur]
        end
      else if (c =? BAR)%N then cur :: readPattern p' []
      else readPattern p' (cur ++ [c])
  end.

(** [new RegExp(pattern, "g")] *)
Definition newRegExp (pattern : jstring) : regexp := readPattern pattern [].

(** The match of the alternation at the head of [s]: the first
    alternative that [s] starts with. *)
Fixpoint matchAt (re : regexp) (s : jstring) : option jstring :=
  match re with
  | [] => None
  | alt :: re' => if startsWith alt s then Some alt else matchAt re' s
  end.

(** [text.replace(re, fn)] with the flag [g], from the current index on;
    [skip] counts the characters that the last match still covers.  An
    empty match lets one character through before the next try, and is
    tried once more at the end of the text. *)
Fixpoint replaceFrom (re : regexp) (fn : jstring -> jstring)
    (s : jstring) (skip : nat) : jstring :=
  match s with
  | [] =>
      match skip with
      | O => match matchAt re [] with
             | Some m => fn m
             | None => []
             end
      | S _ => []
      end
  | c :: s' =>
      match skip with
      | S n => replaceFrom re fn s' n
      | O =>
          match matchAt re s with
          | Some [] => fn [] ++ c :: replaceFrom re fn s' 0
          | Some ((_ :: m') as m) => fn m ++ replaceFrom re fn s' (length m')
          | None => c :: replaceFrom re fn s' 0
          end
      end
  end.

Definition replace (text : jstring) (re : regexp) (fn : jstring -> jstring)
  : jstring :=
  replaceFrom re fn text 0.

(** A [Map] whose keys are strings: [set], [get] and [new Map(entries)]. *)
Definition strmap := list (jstring * jstring).

Fixpoint strmap_set (k v : jstring) (m : strmap) : strmap :=
  match m with
  | [] => [(k, v)]
  | (k', v') :: m' =>
      if str_eqb k' k then (k, v) :: m' else (k', v') :: strmap_set k v m'
  end.

Definition strmap_get (m : strmap) (k : jstring) : option jstring := obj_get m k.

Definition newMap (entries : list (jstring * jstring)) : strmap :=
  fold_left (fun m kv => strmap_set (fst kv) (snd kv) m) entries [].

(** [null] is [None]. *)
Definition buildReplacer (mapping : jsobj) : option (jstring -> jstring) :=
  let entries := mapping in
  if length entries =? 0 then None else
  let entries := sortByLength entries in
  let keys := map fst entries in
  let escapedKeys := map escapeKey keys in
  let re := newRegExp (join [BAR] escapedKeys) in
  let map := newMap entries in
  Some (fun text =>
          replace text re (fun m => match strmap_get map m with
                                 | Some v => v
                                 | None => m
                                 end)).

(* ================================================================= *)
(** ** The document *)

(** Text nodes and elements, each with its identity [id].  Of an element
    the model keeps what [content.js] reads: the tag name, the class list,
    the attribute [data-okechika-original] ([None] when absent), whether
    [contenteditable] is ['true'], and the children.  Comments, form
    values and shadow roots are not modelled. *)
Inductive node : Type :=
| Text (id : nat) (nodeValue : jstring)
| Element (id : nat) (tagName : jstring) (classList : list jstring)
          (okechikaOriginal : option jstring) (contentEditable : bool)
          (childNodes : list node).

Definition nodeId (n : node) : nat :=
  match n with
  | Text i _ => i
  | Element i _ _ _ _ _ => i
  end.

(** An element seen from below, as a parent or an ancestor. *)
Record element := mkElement {
  el_id : nat;
  el_tagName : jstring;
  el_classList : list jstring;
  el_original : option jstring;
  el_editable : bool
}.

(** The node of identity [id] in the tree [n], with its ancestors, the
    parent first; [anc] are the ancestors of [n]. *)
Fixpoint locate (id : nat) (anc : list element) (n : node)
  : option (node * list element) :=
  if nodeId n =? id then Some (n, anc) else
  match n with
  | Text _ _ => None
  | Element i t c o e cs =>
      (fix locateIn (l : list node) : option (node * list element) :=
         match l with
         | [] => None
         | ch :: l' =>
             match locate id (mkElement i t c o e :: anc) ch with
             | Some r => Some r
             | None => locateIn l'
             end
         end) cs
  end.

(** The search in the children of an element, as [locate] unfolds it. *)
Fixpoint locateIn (id : nat) (anc : list element) (l : list node)
  : option (node * list element) :=
  match l with
  | [] => None
  | ch :: l' =>
      match locate id anc ch with
      | Some r => Some r
      | None => locateIn id anc l'
      end
  end.

(** Every child of identity [id], at any depth, gives way to the nodes
    [f] makes of it. *)
Fixpoint rewriteChildren (id : nat) (f : node -> list node) (n : node) : node :=
  match n with
  | Text i v => Text i v
  | Element i t c o e cs =>
      Element i t c o e
        (flat_map (fun ch => if nodeId ch =? id then f ch
                             else [rewriteChildren id f ch]) cs)
  end.

(** A change of the node [id] where it stands, the root included. *)
Definition modifyNode (id : nat) (g : node -> node) (n : node) : node :=
  if nodeId n =? id then g n else rewriteChildren id (fun ch => [g ch]) n.

(** The node [id] gives way to [new] in its parent; a root has no parent
    here and stays. *)
Definition replaceNode (id : nat) (new : node) (n : node) : node :=
  rewriteChildren id (fun _ => [new]) n.

(** [TreeWalker] with [SHOW_TEXT]: the text nodes below the root, in
    document order. *)
Fixpoint textNodes (n : node) : list nat :=
  match n with
  | Text i _ => [i]
  | Element _ _ _ _ _ cs => flat_map textNodes cs
  end.

Definition walkTextNodes (root : node) : list nat :=
  match root with
  | Text _ _ => []
  | Element _ _ _ _ _ cs => flat_map textNodes cs
  end.

(** The state of the page: the tree of [document.body], the trees that
    were taken out of the document and that the script still holds, the
    table [ORIGINAL_TEXT_BY_NODE], the identity of the next node to be
    created, [document.activeElement], and whether the style element of
    [ensureDefaultFontStyle] is in place. *)
Record document := mkDocument {
  body : node;
  detached : list node;
  ORIGINAL_TEXT_BY_NODE : list (nat * jstring);
  nextId : nat;
  activeElement : option nat;
  fontStyle : bool
}.

Fixpoint locateFirst (id : nat) (trees : list node)
  : option (node * list element) :=
  match trees with
  | [] => None
  | t :: trees' =>
      match locate id [] t with
      | Some r => Some r
      | None => locateFirst id trees'
      end
  end.

(** A node that the script holds, in the document or out of it. *)
Definition locateNode (d : document) (id : nat) : option (node * list element) :=
  locateFirst id (body d :: detached d).

Definition setTrees (d : document) (b : node) (dt : list node) : document :=
  mkDocument b dt (ORIGINAL_TEXT_BY_NODE d) (nextId d) (activeElement d)
    (fontStyle d).

(** [WeakMap.prototype.get], [has] and [set] on node identities. *)
Fixpoint weak_get (m : list (nat * jstring)) (id : nat) : option jstring :=
  match m with
  | [] => None
  | (i, v) :: m' => if i =? id then Some v else weak_get m' id
  end.

Definition weak_has (m : list (nat * jstring)) (id : nat) : bool :=
  match weak_get m id with Some _ => true | None => false end.

Fixpoint weak_set (id : nat) (v : jstring) (m : list (nat * jstring))
  : list (nat * jstring) :=
  match m with
  | [] => [(id, v)]
  | (i, v') :: m' =>
      if i =? id then (id, v) :: m' else (i, v') :: weak_set id v m'
  end.

(* ================================================================= *)
(** ** DOM Rewriting Engine: [translateRoot] *)

Definition SCRIPT := js "SCRIPT".
Definition STYLE := js "STYLE".
Definition TEXTAREA := js "TEXTAREA".
Definition INPUT := js "INPUT".
Definition NOSCRIPT := js "NOSCRIPT".
Definition HEAD := js "HEAD".
Definition HTML := js "HTML".
Definition SPAN := js "SPAN".
Definition RUBY := js "RUBY".
Definition RT := js "RT".
Definition RP := js "RP".
Definition OKECHIKA_TRANSLATED := js "okechika-translated".
Definition OKECHIKA_TRANSLATED_BASE := js "okechika-translated-base".

Definition IGNORED_TAGS : list jstring :=
  [SCRIPT; STYLE; TEXTAREA; INPUT; NOSCRIPT].

Definition has (l : list jstring) (s : jstring) : bool := existsb (str_eqb s) l.

(** [el.closest(selector)] on the chain that starts at the element
    itself. *)
Fixpoint closest (sel : element -> bool) (chain : list element) : option element :=
  match chain with
  | [] => None
  | e :: chain' => if sel e then Some e else closest sel chain'
  end.

(** [editable.contains(active)]: the element, by its identity, is the
    active element or one of its ancestors.  An active element that is not
    in the document is contained in nothing. *)
Definition containsActive (d : document) (editable : element) : bool :=
  match activeElement d with
  | None => false
  | Some a =>
      match locate a [] (body d) with
      | None => false
      | Some (n, anc) =>
          (nodeId n =? el_id editable)
          || existsb (fun e => el_id e =? el_id editable) anc
      end
  end.

(** [ancestors] is the chain of the parent of the text node: the parent
    first; empty when the node has no parent element. *)
Definition shouldIgnoreTextNode (d : document) (ancestors : list element) : bool :=
  match ancestors with
  | [] => true
  | parent :: _ =>
      if has IGNORED_TAGS (el_tagName parent) then true
      else if str_eqb (el_tagName parent) RT || str_eqb (el_tagName parent) RP
      then true
      else
        match closest el_editable ancestors with
        | Some editable => containsActive d editable
        | None => false
        end
  end.

(** [span.okechika-translated[data-okechika-original],
     ruby.okechika-translated[data-okechika-original]] *)
Definition isWrapper (e : element) : bool :=
  (str_eqb (el_tagName e) SPAN || str_eqb (el_tagName e) RUBY)
  && has (el_classList e) OKECHIKA_TRANSLATED
  && match el_original e with Some _ => true | None => false end.

Definition canWrapWithSpan (parentEl : element) : bool :=
  let tag := el_tagName parentEl in
  if str_eqb tag SCRIPT || str_eqb tag STYLE || str_eqb tag NOSCRIPT then false
  else if str_eqb tag HEAD || str_eqb tag HTML then false
  else true.

(** [s.split(/(\s+)/)], without the empty pieces that the loop of
    [createSegmentedTranslationFragment] skips: the runs of white space and
    the runs of other characters, in turn. *)
Fixpoint splitRunsFrom (s : jstring) (cur : jstring) (ws : bool) : list jstring :=
  match s with
  | [] => if isEmpty cur then [] else [cur]
  | c :: s' =>
      if Bool.eqb (isWhiteSpace c) ws then splitRunsFrom s' (cur ++ [c]) ws
      else if isEmpty cur then splitRunsFrom s' [c] (isWhiteSpace c)
      else cur :: splitRunsFrom s' [c] (isWhiteSpace c)
  end.

Definition splitRuns (s : jstring) : list jstring := splitRunsFrom s [] false.

Section Engine.

(** The global [rubySwap], which no pass changes. *)
Variable rubySwap : bool.

Variable replaceFn : jstring -> jstring.

(** [el.textContent = s] on a new element: one text node, or none when
    [s] is empty. *)
Definition textContent (id : nat) (s : jstring) : list node :=
  if isEmpty s then [] else [Text id s].

(** The node that [createTranslatedRuby] builds, with the identities
    [id], ..., [id + 4] in the order of the calls. *)
Definition createTranslatedRuby (id : nat) (original translated : jstring) : node :=
  Element id RUBY [] None false
    [Element (id + 1) SPAN
       (if rubySwap then [] else [OKECHIKA_TRANSLATED_BASE]) None false
       (textContent (id + 2) (if rubySwap then original else translated));
     Element (id + 3) RT
       (if rubySwap then [OKECHIKA_TRANSLATED_BASE] else []) None false
       (textContent (id + 4) (if rubySwap then translated else original))].

(** The loop of [createSegmentedTranslationFragment] over the parts; it
    gives the children of the fragment and the next free identity. *)
Fixpoint segmentNodes (parts : list jstring) (id : nat) : list node * nat :=
  match parts with
  | [] => ([], id)
  | part :: parts' =>
      if isEmpty part then segmentNodes parts' id
      else if forallb isWhiteSpace part then
        let (ns, id') := segmentNodes parts' (id + 1) in
        (Text id part :: ns, id')
      else
        let translated := replaceFn part in
        if str_eqb translated part then
          let (ns, id') := segmentNodes parts' (id + 1) in
          (Text id part :: ns, id')
        else
          let (ns, id') := segmentNodes parts' (id + 5) in
          (createTranslatedRuby id part translated :: ns, id')
  end.

Definition createSegmentedTranslationFragment (originalText : jstring) (id : nat)
  : list node * nat :=
  segmentNodes (splitRuns originalText) id.

Definition setChildNodes (cs : list node) (n : node) : node :=
  match n with
  | Text i v => Text i v
  | Element i t c o e _ => Element i t c o e cs
  end.

Definition childNodesOf (n : node) : list node :=
  match n with
  | Text _ _ => []
  | Element _ _ _ _ _ cs => cs
  end.

(** [fillTranslatedContainer] on a container that is in one of the trees:
    its children leave it, each a tree of its own from then on, and the
    new fragment takes their place. *)
Definition fillTranslatedContainer (d : document) (containerId : nat)
    (originalText : jstring) : document :=
  match locateNode d containerId with
  | None => d
  | Some (container, _) =>
      let (frag, id') := createSegmentedTranslationFragment originalText (nextId d) in
      let fill := modifyNode containerId (setChildNodes frag) in
      mkDocument (fill (body d))
        (map fill (detached d) ++ childNodesOf container)
        (ORIGINAL_TEXT_BY_NODE d) id' (activeElement d) (fontStyle d)
  end.

(** A new container, filled before it is put in a tree:
    [document.createElement("span")], the class, the data attribute and
    [fillTranslatedContainer]. *)
Definition newContainer (d : document) (original : jstring) : node * nat :=
  let (frag, id') := createSegmentedTranslationFragment original (nextId d + 1) in
  (Element (nextId d) SPAN [OKECHIKA_TRANSLATED] (Some original) false frag, id').

(** [old.replaceWith(new)] and [parent.replaceChild(new, old)]: [new]
    stands where [old] stood, and [old] is a tree of its own.  The root of
    [body] has its parent outside the model; the root of a detached tree
    has none, and nothing happens to it. *)
Definition replaceInParent (d : document) (oldId : nat) (new : node) (id' : nat)
  : document :=
  match locateNode d oldId with
  | None => d
  | Some (old, _) =>
      if nodeId (body d) =? oldId then
        mkDocument new (detached d ++ [old])
          (ORIGINAL_TEXT_BY_NODE d) id' (activeElement d) (fontStyle d)
      else if existsb (fun t => nodeId t =? oldId) (detached d) then
        mkDocument (body d) (detached d)
          (ORIGINAL_TEXT_BY_NODE d) id' (activeElement d) (fontStyle d)
      else
        mkDocument (replaceNode oldId new (body d))
          (map (replaceNode oldId new) (detached d) ++ [old])
          (ORIGINAL_TEXT_BY_NODE d) id' (activeElement d) (fontStyle d)
  end.

Definition ensureDefaultFontStyle (d : document) : document :=
  mkDocument (body d) (detached d) (ORIGINAL_TEXT_BY_NODE d) (nextId d)
    (activeElement d) true.

Definition setNodeValue (d : document) (id : nat) (v : jstring) : document :=
  let set := modifyNode id (fun n => match n with
                                     | Text i _ => Text i v
                                     | _ => n
                                     end) in
  setTrees d (set (body d)) (map set (detached d)).

Definition rememberOriginal (d : document) (id : nat) (original : jstring)
  : document :=
  mkDocument (body d) (detached d)
    (weak_set id original (ORIGINAL_TEXT_BY_NODE d)) (nextId d)
    (activeElement d) (fontStyle d).

(** The state of one call of [translateRoot]. *)
Record pass := mkPass {
  doc : document;
  changedNodes : nat;
  samples : list (jstring * jstring);
  processedWrappers : list nat
}.

(** [changedNodes++] and the push of a sample while there are fewer than
    three. *)
Definition countChange (original after : jstring) (p : pass) (d : document)
    (processed : list nat) : pass :=
  mkPass d (S (changedNodes p))
    (if length (samples p) <? 3
     then samples p ++ [(slice0 80 original, slice0 80 after)]
     else samples p)
    processed.

(** The body of the loop of [translateRoot] over the text nodes. *)
Definition translateTextNode (p : pass) (textNode : nat) : pass :=
  let d := doc p in
  match locateNode d textNode with
  | Some (Text _ current, ancestors) =>
      if shouldIgnoreTextNode d ancestors then p else
      if isEmpty current || (length (trim current) =? 0) then p else
      match closest isWrapper ancestors with
      | Some wrapper =>
          if existsb (Nat.eqb (el_id wrapper)) (processedWrappers p) then p else
          let original := match el_original wrapper with
                          | Some o => o
                          | None => []
                          end in
          let after := replaceFn original in
          if str_eqb (el_tagName wrapper) RUBY then
            let (container, id') := newContainer d original in
            let d := ensureDefaultFontStyle d in
            let d := replaceInParent d (el_id wrapper) container id' in
            countChange original after p d (nodeId container :: processedWrappers p)
          else
            let d := ensureDefaultFontStyle d in
            let d := fillTranslatedContainer d (el_id wrapper) original in
            countChange original after p d (el_id wrapper :: processedWrappers p)
      | None =>
          let storedOriginal := weak_get (ORIGINAL_TEXT_BY_NODE d) textNode in
          let original := match storedOriginal with
                          | Some o => o
                          | None => current
                          end in
          let after := replaceFn original in
          if str_eqb after current then p else
          match ancestors with
          | [] => p
          | parent :: _ =>
              if canWrapWithSpan parent then
                let d := ensureDefaultFontStyle d in
                let (container, id') := newContainer d original in
                let d := replaceInParent d textNode container id' in
                countChange original after p d (processedWrappers p)
              else
                let d := if weak_has (ORIGINAL_TEXT_BY_NODE d) textNode then d
                         else rememberOriginal d textNode original in
                let d := setNodeValue d textNode after in
                countChange original after p d (processedWrappers p)
          end
      end
  | _ => p
  end.

(** [translateRoot(root, replaceFn)], the root given by its identity; the
    result is the document after the pass with [changedNodes] and
    [samples]. *)
Definition translateRoot (d : document) (root : nat) : pass :=
  match locateNode d root with
  | None => mkPass d 0 [] []
  | Some (r, _) =>
      fold_left translateTextNode (walkTextNodes r) (mkPass d 0 [] [])
  end.

End Engine.

(* ================================================================= *)
(** ** Mutation Tracker *)

(** The records that the observer gets with [childList], [subtree] and
    [characterData]: the text node whose data changed, or the nodes that
    were added. *)
Inductive mutationRecord : Type :=
| CharacterData (target : nat)
| ChildList (addedNodes : list nat).

(** [scheduled], [pendingRoots] (a [Set], in insertion order) and
    [isApplying]. *)
Record tracker := mkTracker {
  scheduled : bool;
  pendingRoots : list nat;
  isApplying : bool
}.

(** The element itself and its ancestors, for an element; the parent and
    its ancestors, for a text node. *)
Definition elementChain (n : node) (anc : list element) : list element :=
  match n with
  | Element i t c o e _ => mkElement i t c o e :: anc
  | Text _ _ => anc
  end.

Definition isInsideTranslated (d : document) (node : nat) : bool :=
  match locateNode d node with
  | None => false
  | Some (n, anc) =>
      match elementChain n anc with
      | [] => false
      | el :: _ =>
          if has (el_classList el) OKECHIKA_TRANSLATED then true
          else
            match closest (fun e => has (el_classList e) OKECHIKA_TRANSLATED)
                    (elementChain n anc) with
            | Some _ => true
            | None => false
            end
      end
  end.

(** [pendingRoots.add(x)] *)
Definition addPending (x : nat) (pending : list nat) : list nat :=
  if existsb (Nat.eqb x) pending then pending else pending ++ [x].

(** [node.parentElement ?? document.body] *)
Definition parentElementOrBody (d : document) (anc : list element) : nat :=
  match anc with
  | parent :: _ => el_id parent
  | [] => nodeId (body d)
  end.

(** What the callback does with one added node. *)
Definition observeAdded (d : document) (pending : list nat) (node : nat)
  : list nat :=
  if isInsideTranslated d node then pending else
  match locateNode d node with
  | Some (Element i _ _ _ _ _, _) => addPending i pending
  | Some (Text _ _, anc) => addPending (parentElementOrBody d anc) pending
  | None => pending
  end.

(** What the callback does with one record. *)
Definition observeMutation (d : document) (pending : list nat)
    (m : mutationRecord) : list nat :=
  match m with
  | CharacterData target =>
      match locateNode d target with
      | Some (Text _ _, anc) =>
          if negb (isInsideTranslated d target)
          then addPending (parentElementOrBody d anc) pending
          else pending
      | _ => pending
      end
  | ChildList addedNodes => fold_left (observeAdded d) addedNodes pending
  end.

(** The callback of the [MutationObserver]; [scheduleTranslate] sets
    [scheduled] and queues the microtask when none is queued. *)
Definition observerCallback (enabled : bool) (d : document) (t : tracker)
    (mutations : list mutationRecord) : tracker :=
  if isApplying t then t else
  let pending := fold_left (observeMutation d) mutations (pendingRoots t) in
  if negb enabled then mkTracker (scheduled t) pending (isApplying t)
  else mkTracker true pending (isApplying t).

(* ================================================================= *)
(** ** Notions that the statements and the proofs use *)

(** What the loop has accumulated, put in front of the table that the
    rest of the text denotes. *)
Definition graft (st : csvState) (t : table) : table :=
  match t with
  | (f :: r) :: t' => rows st ++ (row st ++ (field st ++ f) :: r) :: t'
  | _ => rows st ++ [row st ++ [field st]]
  end.

(** What one turn of a loop assigns, if anything. *)
Definition assignment := option (jstring * jstring).

Definition assign (w : assignment) (o : jsobj) : jsobj :=
  match w with
  | Some (k, v) => obj_set k v o
  | None => o
  end.

Definition assignAll (ws : list assignment) (o : jsobj) : jsobj :=
  fold_left (fun o w => assign w o) ws o.

Definition assignsKey (k : jstring) (w : assignment) : Prop :=
  exists v, w = Some (k, v).

(** The assignments of an indexed loop, one per turn. *)
Fixpoint turns {A : Type} (w : nat -> A -> assignment) (i : nat) (l : list A)
  : list assignment :=
  match l with
  | [] => []
  | x :: l' => w i x :: turns w (S i) l'
  end.

(** What each turn of the loops of [mappingFromRows] assigns. *)
Definition directAssignment (packed : bool) (i : nat) (cols : list jstring)
  : assignment :=
  if length cols <? 2 then None else
  if packed && (i =? 0) then None else
  let from := trim (nth 0 cols []) in
  let to := trim (nth 1 cols []) in
  if isEmpty from || isEmpty to then None else Some (from, to).

Definition pairDirectAssignment (plainTokens : list jstring)
    (i : nat) (from : jstring) : assignment :=
  let to := nth i plainTokens [] in
  if isEmpty from || isEmpty to then None else Some (from, to).

Definition pairModuloAssignment (t : indexTable) (base : Z)
    (i : nat) (from : jstring) : assignment :=
  match map_get (plainByIndex t) (Z.of_nat i mod base) with
  | None => None
  | Some to => if isEmpty from || isEmpty to then None else Some (from, to)
  end.

(** The first cells of the first row and the tokens packed in them. *)
Definition firstRowA (rows : table) : jstring := getCell (hd_error rows) 0.
Definition firstRowB (rows : table) : jstring := getCell (hd_error rows) 1.
Definition cipherTokens (rows : table) : list jstring := tokensOf (firstRowA rows).
Definition plainTokens (rows : table) : list jstring := tokensOf (firstRowB rows).

(** Row [j] assigns nothing to the key [k] in the third strategy. *)
Definition noDirectRow (rows : table) (k : jstring) (j : nat) : Prop :=
  forall cols, nth_error rows j = Some cols ->
    trim (nth 0 cols []) = k -> trim (nth 1 cols []) = [].

(** Every row with two non-empty cells, the packed first row apart, decides
    the value of its key in the built mapping. *)
Definition everyDirectRowDecides : Prop :=
  forall (rows : table) (i : nat) (cols : list jstring),
    nth_error rows i = Some cols ->
    (looksLikePackedFirstRow (firstRowA rows) = true -> i <> 0) ->
    trim (nth 0 cols []) <> [] ->
    trim (nth 1 cols []) <> [] ->
    obj_get (mappingFromRows parseIntExact rows) (trim (nth 0 cols []))
    = Some (trim (nth 1 cols [])).

(** Every positional pair of a first row packed on both sides is an entry
    of the built mapping. *)
Definition everyPackedPairMapped : Prop :=
  forall (rows : table) (i : nat) (from to : jstring),
    100 <= length (cipherTokens rows) ->
    100 <= length (plainTokens rows) ->
    nth_error (cipherTokens rows) i = Some from ->
    nth_error (plainTokens rows) i = Some to ->
    obj_get (mappingFromRows parseIntExact rows) from = Some to.

(** A cell 0 of 25 tokens, no packed cell 1 and ten indexed rows or more:
    token [i] is mapped to the indexed plaintext at [i mod tableSize]. *)
Definition moduloFallbackOn25Tokens : Prop :=
  forall (rows : table) (i : nat) (from : jstring),
    let t := indexedPlaintext parseIntExact rows in
    length (plainTokens rows) < 100 ->
    10 <= map_size (plainByIndex t) ->
    length (cipherTokens rows) = 25 ->
    nth_error (cipherTokens rows) i = Some from ->
    obj_get (mappingFromRows parseIntExact rows) from
    = map_get (plainByIndex t) (Z.of_nat i mod Z.of_nat (map_size (plainByIndex t))).

(** [n] tokens in one cell, the [i]-th being the single character of code
    [first + i], with a space after each. *)
Definition packedCell (first : N) (n : nat) : jstring :=
  concat (map (fun i => [(first + N.of_nat i)%N; SPACE]) (seq 0 n)).

(** The index rows ["あ",0], ["ぃ",1], ... : the character of code
    [first + i] in cell 0 and the digit [i] in cell 1. *)
Definition indexRows (first : N) (n : nat) : table :=
  map (fun i => [[(first + N.of_nat i)%N]; [(48 + N.of_nat i)%N]]) (seq 0 n).

(** The sanitized override mapping stores, for every entry whose key and
    value are non-empty after trimming, the trimmed key with the trimmed
    value. *)
Definition sanitizedValuesTrimmed : Prop :=
  forall (entries : list (jstring * jsval)) (k v : jstring),
    In (k, VString v) entries ->
    trim k <> [] -> trim v <> [] ->
    obj_get (sanitizeMappingObject (Some entries)) (trim k) = Some (trim v).

(** What one turn of the loop of [sanitizeMappingObject] assigns. *)
Definition sanitizeAssignment (kv : jstring * jsval) : assignment :=
  let key := trim (fst kv) in
  let val := stringOf (snd kv) in
  if isEmpty key then None
  else if isEmpty (trim val) then None
  else Some (key, val).

(** The entry keeps its value through [sanitizeMappingObject]: its key and
    its value are not empty after trimming. *)
Definition kept (kv : jstring * jsval) : Prop :=
  trim (fst kv) <> [] /\ trim (stringOf (snd kv)) <> [].

(** The node lies inside a structure that the engine produced: it is an
    element of class [okechika-translated], or it has one among its
    ancestors. *)
Definition insideTranslated (d : document) (node : nat) : Prop :=
  exists n anc e,
    locateNode d node = Some (n, anc)
    /\ In e (elementChain n anc)
    /\ has (el_classList e) OKECHIKA_TRANSLATED = true.

(** Every node that the record names lies inside such a structure. *)
Definition mutationInsideTranslated (d : document) (m : mutationRecord) : Prop :=
  match m with
  | CharacterData target => insideTranslated d target
  | ChildList addedNodes => Forall (insideTranslated d) addedNodes
  end.

(** The original that the comparison of [translateRoot] starts from: the
    one remembered for the node, or else its current text. *)
Definition originalOf (d : document) (textNode : nat) (current : jstring) : jstring :=
  match weak_get (ORIGINAL_TEXT_BY_NODE d) textNode with
  | Some o => o
  | None => current
  end.


(** The replacer of a mapping, the identity when [buildReplacer] gives
    [null]. *)
Definition replacerOf (mapping : jsobj) : jstring -> jstring :=
  match buildReplacer mapping with
  | Some replaceFn => replaceFn
  | None => fun text => text
  end.

(** What is rendered of a tree: the tree without the identities of its
    nodes. *)
Fixpoint rendered (n : node) : node :=
  match n with
  | Text _ v => Text 0 v
  | Element _ t c o e cs => Element 0 t c o e (map rendered cs)
  end.

(** The page whose body holds one paragraph with one text node. *)
Definition paragraph (text : jstring) : document :=
  mkDocument
    (Element 0 (js "BODY") [] None false
       [Element 1 (js "P") [] None false [Text 2 text]])
    [] [] 3 None false.

(** The builder is three loops of assignments, one after the other. *)
Definition packedAssignments (parseInt : jstring -> option Z) (rows : table)
  : list assignment :=
  if 100 <=? length (cipherTokens rows) then
    if 100 <=? length (plainTokens rows) then
      turns (pairDirectAssignment (plainTokens rows)) 0
        (firstn (Nat.min (length (cipherTokens rows)) (length (plainTokens rows)))
           (cipherTokens rows))
    else
      let t := indexedPlaintext parseInt rows in
      let base := (if (0 <=? maxIndex t)%Z then maxIndex t + 1 else 0)%Z in
      if (10 <=? map_size (plainByIndex t)) && (0 <? base)%Z then
        turns (pairModuloAssignment t base) 0 (cipherTokens rows)
      else []
  else [].

(** The plaintexts collected by the first strategy are not empty and
    their indices lie between 0 and the largest index. *)
Definition indexed (t : indexTable) : Prop :=
  forall k v, map_get (plainByIndex t) k = Some v ->
    v <> [] /\ (0 <= k <= maxIndex t)%Z.

(** The order of the sort: the longer key first. *)
Definition longerFirst (a b : jstring * jstring) : Prop :=
  length (fst b) <= length (fst a).

(** The body looks like an HTML document. *)
Definition looksLikeHtml (toLowerCase : jstring -> jstring) (text : jstring)
  : bool :=
  let head := toLowerCase (slice0 2000 text) in
  includes head (js "<html") || includes head (js "<!doctype html").

(** The message with which a response whose status is not ok is
    rejected. *)
Definition httpMessage (res : response) : jstring :=
  js "HTTP " ++ numberToString (res_status res) ++ js " " ++ res_statusText res.

(** Whatever the response, an empty or all-white-space body and a body
    that looks like an HTML document are rejected with errors of two
    kinds. *)
Definition bodiesFailDistinctly : Prop :=
  forall (toLowerCase : jstring -> jstring) (u : jstring)
         (blank html : response) (e1 e2 : error),
    trim (res_text blank) = [] ->
    looksLikeHtml toLowerCase (res_text html) = true ->
    fetchFirstWorkingCsv toLowerCase (fun _ => Resolved blank) u = Rejected e1 ->
    fetchFirstWorkingCsv toLowerCase (fun _ => Resolved html) u = Rejected e2 ->
    message e1 <> message e2.

(** The failure record that [refreshMapping] writes when no candidate URL
    gave a mapping. *)
Definition emptyMappingRecord (now : nat -> Z) : cacheRecord :=
  CacheFailed EMPTY_MAPPING None false None (now 1) buildCsvUrls.

(** The identities of the nodes of a tree. *)
Fixpoint ids (n : node) : list nat :=
  match n with
  | Text i _ => [i]
  | Element i _ _ _ _ cs => i :: flat_map ids cs
  end.

(** The elements of a tree. *)
Fixpoint elements (n : node) : list element :=
  match n with
  | Text _ _ => []
  | Element i t c o e cs => mkElement i t c o e :: flat_map elements cs
  end.

(** A document is well formed when the identities of its nodes are below
    the next identity and no tree out of the document shares one with the
    body. *)
Definition wellFormed (d : document) : Prop :=
  (forall t i, In t (body d :: detached d) -> In i (ids t) -> i < nextId d)
  /\ (forall t i, In t (detached d) -> In i (ids t) -> ~ In i (ids (body d))).

(** The body of the page of one paragraph once its text, [original], is
    wrapped: the wrapper holds the fragment whose identities start at
    [s]. *)
Definition wrappedParagraph (rubySwap : bool) (replaceFn : jstring -> jstring)
    (original : jstring) (s : nat) : node :=
  Element 0 (js "BODY") [] None false
    [Element 1 (js "P") [] None false
       [Element 3 SPAN [OKECHIKA_TRANSLATED] (Some original) false
          (fst (createSegmentedTranslationFragment rubySwap replaceFn original s))]].

(** An identity of a tree put out of the document by a step that starts
    from [d] and ends with the counter at [id']: one taken from the counter
    in between, or one that a detached tree of [d] had. *)
Definition detachedId (d : document) (id' : nat) (i : nat) : Prop :=
  i < id'
  /\ (nextId d <= i \/ exists t, In t (detached d) /\ In i (ids t)).

(* ================================================================= *)
(** ** Messages to the background script *)




Section Messages.

Variable toLowerCase : jstring -> jstring.
Variable fetch : jstring -> settled response.
Variable parseInt : jstring -> option Z.
Variable now : nat -> Z.
Variable setError : cacheRecord -> option error.
Variable getError : jstring -> option error.


End Messages.

(* ================================================================= *)
(** ** Restoring the page: [restoreTranslatedInRoot] *)

(** The element and its descendants that the selector accepts, in
    document order. *)
Fixpoint matching (sel : element -> bool) (n : node) : list nat :=
  match n with
  | Text _ _ => []
  | Element i t c o e cs =>
      (if sel (mkElement i t c o e) then [i] else [])
      ++ flat_map (matching sel) cs
  end.

(** [root.querySelectorAll(selector)]: the descendants of the root that
    the selector accepts, as a static list. *)
Definition querySelectorAll (sel : element -> bool) (root : node) : list nat :=
  match root with
  | Text _ _ => []
  | Element _ _ _ _ _ cs => flat_map (matching sel) cs
  end.

(** The body of the first loop:
    [el.replaceWith(document.createTextNode(original))]. *)
Definition restoreWrapper (d : document) (el : nat) : document :=
  match locateNode d el with
  | Some (Element _ _ _ (Some original) _ _, _) =>
      replaceInParent d el (Text (nextId d) original) (nextId d + 1)
  | _ => d
  end.

(** [textarea[data-okechika-original], input[data-okechika-original]] *)
Definition isMarkedField (e : element) : bool :=
  (str_eqb (el_tagName e) TEXTAREA || str_eqb (el_tagName e) INPUT)
  && match el_original e with Some _ => true | None => false end.

Definition deleteOriginal (n : node) : node :=
  match n with
  | Text i v => Text i v
  | Element i t c _ e cs => Element i t c None e cs
  end.

(** The body of the second loop, as far as the tree shows it: the value
    of the field is outside the tree, the attribute is deleted. *)
Definition restoreMarkedField (d : document) (el : nat) : document :=
  match locateNode d el with
  | Some (Element _ _ _ (Some _) _ _, _) =>
      setTrees d (modifyNode el deleteOriginal (body d))
        (map (modifyNode el deleteOriginal) (detached d))
  | _ => d
  end.

Definition restoreTranslatedInRoot (d : document) (root : nat) : document :=
  let d :=
    match locateNode d root with
    | None => d
    | Some (r, _) => fold_left restoreWrapper (querySelectorAll isWrapper r) d
    end in
  match locateNode d root with
  | None => d
  | Some (r, _) => fold_left restoreMarkedField (querySelectorAll isMarkedField r) d
  end.

(* ================================================================= *)
(** ** Form fields: [translateFormFields] *)

(** A [textarea] or [input] element as [translateFormFields] and
    [restoreTranslatedInRoot] see it: [el.value], the attribute
    [data-okechika-original] ([None] when absent), the inline font
    family, whether it is [document.activeElement], and what the element
    gives back as its value once a string is assigned to it (elements
    strip or normalize line breaks, some strip white space). *)
Record formField := mkField {
  fld_value : jstring;
  fld_original : option jstring;
  fld_fontFamily : jstring;
  fld_active : bool;
  fld_sanitize : jstring -> jstring
}.

Definition FIELD_FONT : jstring :=
  [QUOTE] ++ js "Noto Sans JP" ++ [QUOTE; COMMA; QUOTE] ++ js "Noto Sans CJK JP"
  ++ [QUOTE; COMMA; QUOTE] ++ js "Hiragino Sans" ++ [QUOTE; COMMA; QUOTE]
  ++ js "Yu Gothic" ++ [QUOTE] ++ js ",Meiryo,system-ui,sans-serif".

(** [el.value = v] *)
Definition setValue (el : formField) (v : jstring) : formField :=
  mkField (fld_sanitize el v) (fld_original el) (fld_fontFamily el)
    (fld_active el) (fld_sanitize el).

Definition setOriginal (el : formField) (o : option jstring) : formField :=
  mkField (fld_value el) o (fld_fontFamily el) (fld_active el) (fld_sanitize el).

Definition setFontFamily (el : formField) (f : jstring) : formField :=
  mkField (fld_value el) (fld_original el) f (fld_active el) (fld_sanitize el).

Section FormFields.

Variable replaceFn : jstring -> jstring.

(** The body of the loop of [translateFormFields]: the field afterwards,
    and whether it was counted as changed. *)
Definition translateField (el : formField) : formField * bool :=
  if fld_active el then (el, false) else
  let current := fld_value el in
  if isEmpty current || (length (trim current) =? 0) then (el, false) else
  let original := match fld_original el with
                  | Some o => o
                  | None => current
                  end in
  let after := replaceFn original in
  if negb (str_eqb after current) then
    let el := match fld_original el with
              | Some o => if isEmpty o then setOriginal el (Some original) else el
              | None => setOriginal el (Some original)
              end in
    let el := setValue el after in
    let el := setFontFamily el FIELD_FONT in
    (el, true)
  else (el, false).

(** [translateFormFields(root, replaceFn)] on the fields that the
    selector gives in [root]; [None] when the root has no
    [querySelectorAll]. *)
Definition translateFormFields (nodes : option (list formField)) : list formField * nat :=
  match nodes with
  | None => ([], 0)
  | Some nodes =>
      fold_left (fun acc el =>
                   let (el', changed) := translateField el in
                   (fst acc ++ [el'], if changed then S (snd acc) else snd acc))
        nodes ([], 0)
  end.

End FormFields.

(** The body of the second loop of [restoreTranslatedInRoot]: the value
    goes back to the original and the attribute is deleted. *)
Definition restoreField (el : formField) : formField :=
  match fld_original el with
  | Some original => setOriginal (setValue el original) None
  | None => el
  end.

(* ================================================================= *)
(** ** The mapping reversed: [reverseMapping] *)

(** The names that every object inherits from [Object.prototype]: read
    on an object that has no property of that name of its own, each gives
    a function (the prototype itself, for [__proto__]), not
    [undefined]. *)
Definition OBJECT_PROTOTYPE : list jstring :=
  [js "constructor"; js "__defineGetter__"; js "__defineSetter__";
   js "hasOwnProperty"; js "__lookupGetter__"; js "__lookupSetter__";
   js "isPrototypeOf"; js "propertyIsEnumerable"; js "toString";
   js "valueOf"; PROTO; js "toLocaleString"].

(** [o[k] === undefined] on an object whose own properties hold
    strings. *)
Definition readsUndefined (o : jsobj) (k : jstring) : bool :=
  negb (obj_has o k) && negb (has OBJECT_PROTOTYPE k).

(** The body of the loop of [reverseMapping]. *)
Definition reverseEntry (reversed : jsobj) (kv : jstring * jstring) : jsobj :=
  let (k, v) := kv in
  if isEmpty k || isEmpty v then reversed
  else if readsUndefined reversed v then obj_set v k reversed
  else reversed.

(** [mapping] is [None] for [null] and [undefined]. *)
Definition reverseMapping (mapping : option jsobj) : jsobj :=
  match mapping with
  | None => []
  | Some entries => fold_left reverseEntry entries []
  end.

(** The entry [k -> v] is the first of [l] that has the value [v] and a
    key that is not empty. *)
Definition firstWithValue (l : jsobj) (k v : jstring) : Prop :=
  exists pre post,
    l = pre ++ (k, v) :: post
    /\ forall k', k' <> [] -> ~ In (k', v) pre.

(* ================================================================= *)
(** ** Notions that the further statements use *)

(** A character that is not white space. *)
Definition notWhiteSpace (c : jschar) : bool := negb (isWhiteSpace c).

(** The text of the base line of a node: its text without the ruby
    annotations, the contents of the [rt] elements. *)
Fixpoint baseText (n : node) : jstring :=
  match n with
  | Text _ v => v
  | Element _ t _ _ _ cs => if str_eqb t RT then [] else flat_map baseText cs
  end.

(** [n.textContent] *)
Fixpoint allText (n : node) : jstring :=
  match n with
  | Text _ v => v
  | Element _ _ _ _ _ cs => flat_map allText cs
  end.

(** The text of a node with each ruby read by its annotation: of a [ruby]
    element the contents of its [rt] children, of every other node its
    text. *)
Fixpoint annotationText (n : node) : jstring :=
  match n with
  | Text _ v => v
  | Element _ t _ _ _ cs =>
      if str_eqb t RUBY then
        flat_map (fun ch => match ch with
                            | Element _ t' _ _ _ _ =>
                                if str_eqb t' RT then allText ch else []
                            | Text _ _ => []
                            end) cs
      else flat_map annotationText cs
  end.

(** One part of the text as the fragment shows it translated. *)
Definition translatedPart (replaceFn : jstring -> jstring) (part : jstring) : jstring :=
  if forallb isWhiteSpace part then part else replaceFn part.

(** The text [t] starts with white space or is empty. *)
Definition atBoundary (t : jstring) : Prop :=
  match t with
  | [] => True
  | c :: _ => isWhiteSpace c = true
  end.

(** *** A writer of tabular text

    No function of the extension writes tabular text; this is the usual
    writer (RFC 4180), against which the parser is read: a field goes
    between quotes, its quotes doubled, when it holds a quote, a comma, a
    carriage return or a line feed, or when every field is quoted; fields
    are joined by commas and rows by the end of line. *)
Definition quoteField (cell : jstring) : jstring :=
  [QUOTE] ++ flat_map (fun c => if (c =? QUOTE)%N then [QUOTE; QUOTE] else [c]) cell
  ++ [QUOTE].

Definition isDelimiter (c : jschar) : bool :=
  ((c =? QUOTE) || (c =? COMMA) || (c =? CR) || (c =? LF))%N.

Definition writeField (quoteAll : bool) (cell : jstring) : jstring :=
  if quoteAll || existsb isDelimiter cell then quoteField cell else cell.

Definition writeRow (quoteAll : bool) (r : list jstring) : jstring :=
  join [COMMA] (map (writeField quoteAll) r).

Definition endOfLine (crlf : bool) : jstring := if crlf then [CR; LF] else [LF].

Definition writeCsv (quoteAll crlf trailing : bool) (t : table) : jstring :=
  join (endOfLine crlf) (map (writeRow quoteAll) t)
  ++ (if trailing then endOfLine crlf else []).

(** Where an entry of the built mapping comes from. *)
Definition fromDirectRow (rows : table) (k v : jstring) : Prop :=
  exists j cols,
    nth_error rows j = Some cols /\ 2 <= length cols
    /\ (100 <= length (cipherTokens rows) -> j <> 0)
    /\ trim (nth 0 cols []) = k /\ trim (nth 1 cols []) = v.

Definition fromPackedPair (rows : table) (k v : jstring) : Prop :=
  100 <= length (cipherTokens rows) /\ 100 <= length (plainTokens rows)
  /\ exists i, nth_error (cipherTokens rows) i = Some k
               /\ nth_error (plainTokens rows) i = Some v.

Definition fromModuloScheme (parseInt : jstring -> option Z) (rows : table)
    (k v : jstring) : Prop :=
  let t := indexedPlaintext parseInt rows in
  100 <= length (cipherTokens rows) /\ length (plainTokens rows) < 100
  /\ 10 <= map_size (plainByIndex t)
  /\ exists i, nth_error (cipherTokens rows) i = Some k
               /\ map_get (plainByIndex t) (Z.of_nat i mod (maxIndex t + 1)) = Some v.

(** What a pass reports is bounded: as many samples as changes up to
    three, each side of a sample cut at 80 code units. *)
Definition boundedReport (p : pass) : Prop :=
  length (samples p) = Nat.min 3 (changedNodes p)
  /\ Forall (fun s => length (fst s) <= 80 /\ length (snd s) <= 80) (samples p).

(** A root that holds one text node under an element that cannot take a
    [span] as its child, here a [head] element. *)
Definition unwrappable (text : jstring) : document :=
  mkDocument
    (Element 0 (js "BODY") [] None false
       [Element 1 HEAD [] None false [Text 2 text]])
    [] [] 3 None false.

(** The same once the text is translated in place and its original
    remembered. *)
Definition translatedInPlace (replaceFn : jstring -> jstring) (text : jstring)
  : document :=
  mkDocument
    (Element 0 (js "BODY") [] None false
       [Element 1 HEAD [] None false [Text 2 (replaceFn text)]])
    [] [(2, text)] 3 None false.




(* ################################################################# *)
(** * Part II: lemmas and theorems *)

(* ================================================================= *)
(** ** Strings *)

Lemma str_eqb_eq (a b : jstring) : str_eqb a b = true <-> a = b.
Proof.
  revert b; induction a as [|x a IH]; intros [|y b]; simpl; split;
    try congruence; try reflexivity.
  - intros H. apply andb_true_iff in H as [H1 H2].
    apply N.eqb_eq in H1. apply IH in H2. congruence.
  - intros H. injection H as -> ->. rewrite N.eqb_refl. simpl.
    apply IH. reflexivity.
Qed.

Lemma str_eqb_refl (a : jstring) : str_eqb a a = true.
Proof. apply str_eqb_eq. reflexivity. Qed.

Lemma str_eqb_neq (a b : jstring) : str_eqb a b = false <-> a <> b.
Proof.
  split.
  - intros H E. apply str_eqb_eq in E. congruence.
  - intros H. destruct (str_eqb a b) eqn:E; [|reflexivity].
    apply str_eqb_eq in E. contradiction.
Qed.

Lemma isEmpty_true (s : jstring) : isEmpty s = true <-> s = [].
Proof. destruct s; simpl; split; congruence. Qed.

Lemma isEmpty_false (s : jstring) : isEmpty s = false <-> s <> [].
Proof. destruct s; simpl; split; congruence. Qed.

Lemma isEmpty_rev (s : jstring) : isEmpty (rev s) = isEmpty s.
Proof.
  destruct s as [|c s]; [reflexivity|]. simpl.
  destruct (rev s); reflexivity.
Qed.

Lemma isEmpty_trimStart (s : jstring) :
  isEmpty (trimStart s) = forallb isWhiteSpace s.
Proof.
  induction s as [|c s IH]; [reflexivity|]. simpl.
  destruct (isWhiteSpace c); [exact IH | reflexivity].
Qed.

Lemma forallb_rev {A} (f : A -> bool) (l : list A) :
  forallb f (rev l) = forallb f l.
Proof.
  induction l as [|a l IH]; [reflexivity|]. simpl.
  rewrite forallb_app, IH. simpl. rewrite andb_true_r. apply andb_comm.
Qed.

Lemma forallb_trimStart (s : jstring) :
  forallb isWhiteSpace (trimStart s) = forallb isWhiteSpace s.
Proof.
  induction s as [|c s IH]; [reflexivity|]. simpl.
  destruct (isWhiteSpace c) eqn:E; simpl; [exact IH | now rewrite E].
Qed.

(** A string trims to the empty string exactly when it is white space. *)
Lemma isEmpty_trim (s : jstring) : isEmpty (trim s) = forallb isWhiteSpace s.
Proof.
  unfold trim, trimEnd.
  now rewrite isEmpty_rev, isEmpty_trimStart, forallb_rev, forallb_trimStart.
Qed.

Lemma length_eqb_0 {A : Type} (l : list A) :
  (length l =? 0) = match l with [] => true | _ => false end.
Proof. destruct l; reflexivity. Qed.

(* ================================================================= *)
(** ** Tabular Parser *)

Lemma allEmpty_blankRow (r : list jstring) : allEmpty r = blankRow r.
Proof.
  unfold allEmpty, blankRow, blankCell.
  induction r as [|c r IH]; [reflexivity|]. simpl.
  now rewrite isEmpty_trim, IH.
Qed.

Lemma readTable_shape (q : bool) (text : jstring) :
  exists f r t', readTable q text = (f :: r) :: t'.
Proof.
  remember (length text) as n eqn:Hn.
  revert q text Hn.
  induction n as [n IH] using lt_wf_ind. intros q text Hn.
  destruct text as [|c rest]; simpl; [now eexists _, _, _|].
  assert (Hrest : forall q', exists f r t', readTable q' rest = (f :: r) :: t').
  { intros q'. apply (IH (length rest)); [subst; simpl; lia | reflexivity]. }
  assert (Hcons : forall c' q',
             exists f r t', consChar c' (readTable q' rest) = (f :: r) :: t').
  { intros c' q'. destruct (Hrest q') as (f & r & t' & ->). simpl.
    now eexists _, _, _. }
  destruct q.
  - destruct (c =? QUOTE)%N; [|apply Hcons].
    destruct rest as [|c' rest']; [now eexists _, _, _|].
    destruct (c' =? QUOTE)%N; [|apply Hrest].
    destruct (IH (length rest')) with (q := true) (text := rest')
      as (f & r & t' & E); [subst; simpl; lia | reflexivity |].
    rewrite E. simpl. now eexists _, _, _.
  - destruct (c =? QUOTE)%N; [apply Hrest|].
    destruct (c =? COMMA)%N.
    { destruct (Hrest false) as (f & r & t' & ->). simpl. now eexists _, _, _. }
    destruct (c =? CR)%N; [apply Hrest|].
    destruct (c =? LF)%N; [now eexists _, _, _ | apply Hcons].
Qed.

Lemma graft_consChar (st : csvState) (c : jschar) (q : bool) (text : jstring) :
  graft (addToField st c) (readTable q text)
  = graft st (consChar c (readTable q text)).
Proof.
  destruct (readTable_shape q text) as (f & r & t' & ->). simpl.
  now rewrite <- app_assoc.
Qed.

Lemma graft_endField (st : csvState) (q : bool) (text : jstring) :
  graft (pushField st) (readTable q text)
  = graft st (endField (readTable q text)).
Proof.
  destruct (readTable_shape q text) as (f & r & t' & ->). simpl.
  now rewrite <- !app_assoc, app_nil_r.
Qed.

Lemma graft_endRow (st : csvState) (q : bool) (text : jstring) :
  graft (pushRow st) (readTable q text)
  = graft st (endRow (readTable q text)).
Proof.
  destruct (readTable_shape q text) as (f & r & t' & ->). simpl.
  now rewrite <- !app_assoc, app_nil_r.
Qed.

Lemma graft_setInQuotes (st : csvState) (b : bool) (t : table) :
  graft (setInQuotes st b) t = graft st t.
Proof. reflexivity. Qed.

(** The loop and the final push build the table that the reference reads
    off the rest of the text, after what was accumulated so far. *)
Lemma parseCsvLoop_readTable (text : jstring) (st : csvState) :
  rows (pushRow (parseCsvLoop text st)) = graft st (readTable (inQuotes st) text).
Proof.
  remember (length text) as n eqn:Hn.
  revert text st Hn.
  induction n as [n IH] using lt_wf_ind. intros text st Hn.
  destruct text as [|ch rest].
  { simpl. now rewrite app_nil_r. }
  assert (Hrest : forall st', rows (pushRow (parseCsvLoop rest st'))
                         = graft st' (readTable (inQuotes st') rest)).
  { intros st'. apply (IH (length rest)); [subst; simpl; lia | reflexivity]. }
  destruct (inQuotes st) eqn:Hq.
  - destruct (ch =? QUOTE)%N eqn:Hch.
    + destruct rest as [|next rest'].
      * simpl. rewrite Hq, Hch. simpl. now rewrite app_nil_r.
      * destruct (next =? QUOTE)%N eqn:Hnext.
        -- transitivity (rows (pushRow (parseCsvLoop rest' (addToField st QUOTE)))).
           { simpl. now rewrite Hq, Hch, Hnext. }
           rewrite (IH (length rest')); [|subst; simpl; lia | reflexivity].
           simpl inQuotes. rewrite Hq, graft_consChar.
           simpl. now rewrite Hch, Hnext.
        -- transitivity (rows (pushRow (parseCsvLoop (next :: rest') (setInQuotes st false)))).
           { simpl. now rewrite Hq, Hch, Hnext. }
           rewrite Hrest. simpl. now rewrite Hch, !Hnext.
    + transitivity (rows (pushRow (parseCsvLoop rest (addToField st ch)))).
      { simpl. now rewrite Hq, Hch. }
      rewrite Hrest. simpl inQuotes. rewrite Hq, graft_consChar.
      simpl. now rewrite Hch.
  - cbn [parseCsvLoop readTable]. rewrite Hq.
    destruct (ch =? QUOTE)%N; [rewrite Hrest; reflexivity|].
    destruct (ch =? COMMA)%N.
    { rewrite Hrest. simpl inQuotes. rewrite Hq. apply graft_endField. }
    destruct (ch =? CR)%N; [rewrite Hrest, Hq; reflexivity|].
    destruct (ch =? LF)%N.
    { rewrite Hrest. simpl inQuotes. rewrite Hq. apply graft_endRow. }
    rewrite Hrest. simpl inQuotes. rewrite Hq. apply graft_consChar.
Qed.

Lemma dropTrailingBlankRows_snoc (t : table) (r : list jstring) :
  dropTrailingBlankRows (t ++ [r])
  = if blankRow r then dropTrailingBlankRows t else t ++ [r].
Proof.
  induction t as [|r0 t IH]; simpl.
  - destruct (blankRow r); reflexivity.
  - rewrite IH. destruct (blankRow r); [reflexivity|].
    destruct (t ++ [r]) eqn:E; [|reflexivity].
    now destruct t.
Qed.

Lemma popEmptyRows_drop (n : nat) (t : table) :
  length t <= n -> popEmptyRows n t = dropTrailingBlankRows t.
Proof.
  revert t; induction n as [|n IH]; intros t Hn.
  - destruct t; [reflexivity | simpl in Hn; lia].
  - destruct t as [|r0 t0] using rev_ind; [reflexivity|]. clear IHt0.
    simpl. rewrite rev_app_distr. simpl.
    rewrite dropTrailingBlankRows_snoc, allEmpty_blankRow.
    destruct (blankRow r0); [|reflexivity].
    rewrite removelast_last. apply IH.
    rewrite length_app in Hn. simpl in Hn. lia.
Qed.

(** The loop stops because its condition fails, not because it ran out of
    turns: the table it returns is empty or ends in a row that is not
    empty. *)
Lemma popEmptyRows_done (t : table) :
  match rev (popEmptyRows (length t) t) with
  | [] => True
  | last :: _ => allEmpty last = false
  end.
Proof.
  rewrite popEmptyRows_drop by lia.
  induction t as [|r t IH] using rev_ind; [exact I|].
  rewrite dropTrailingBlankRows_snoc.
  destruct (blankRow r) eqn:E; [exact IH|].
  rewrite rev_app_distr. simpl. now rewrite allEmpty_blankRow.
Qed.

Lemma parseCsv_parseCsv_ref (text : jstring) : parseCsv text = parseCsv_ref text.
Proof.
  unfold parseCsv, parseCsv_ref.
  rewrite popEmptyRows_drop by lia.
  rewrite parseCsvLoop_readTable. simpl.
  destruct (readTable_shape false text) as (f & r & t' & ->). reflexivity.
Qed.

Example parseCsv_ex1 :
  parseCsv (js "a,b" ++ [LF] ++ [QUOTE] ++ js "c,d" ++ [QUOTE; QUOTE; QUOTE] ++ js ",e" ++ [CR; LF; LF])
  = [[js "a"; js "b"]; [js "c,d" ++ [QUOTE]; js "e"]].
Proof. vm_compute. reflexivity. Qed.

(** *** The parser against its reference *)

(** C6, as stated, fails: a carriage return inside a quoted field is not
    stripped, it stays in the cell like every character between quotes.
    On the quoted field a, CR, b the parser gives one cell of three
    characters, the reference of the specification gives the cell ab. *)
Lemma quoted_carriage_return_kept :
  parseCsv ([QUOTE] ++ js "a" ++ [CR] ++ js "b" ++ [QUOTE])
  <> parseCsv_spec ([QUOTE] ++ js "a" ++ [CR] ++ js "b" ++ [QUOTE]).
Proof. vm_compute. discriminate. Qed.

Lemma stripQuotedCR_id (text : jstring) (quoted : bool) :
  hasQuotedCR quoted text = false -> stripQuotedCR quoted text = text.
Proof.
  remember (length text) as n eqn:Hn.
  revert text quoted Hn.
  induction n as [n IH] using lt_wf_ind. intros text quoted Hn.
  destruct text as [|c rest]; [reflexivity|].
  assert (Hrest : forall q, hasQuotedCR q rest = false -> stripQuotedCR q rest = rest).
  { intros q. apply (IH (length rest)); [subst; simpl; lia | reflexivity]. }
  destruct quoted; cbn [hasQuotedCR stripQuotedCR].
  - destruct (c =? QUOTE)%N.
    + destruct rest as [|c' rest']; [reflexivity|].
      destruct (c' =? QUOTE)%N; intros H.
      * do 2 f_equal. apply (IH (length rest')); [subst; simpl; lia | reflexivity | exact H].
      * f_equal. now apply Hrest.
    + destruct (c =? CR)%N; [discriminate|]. intros H. f_equal. now apply Hrest.
  - intros H. f_equal. now apply Hrest.
Qed.

(** C6 (amended): for every input string the Tabular Parser returns the
    Raw Table of the reference semantics in which a doubled quote inside a
    quoted field is one literal quote, delimiters, record separators and
    carriage returns inside quoted fields are literal, carriage returns
    outside quoted fields are stripped, an unquoted record separator ends
    the row, what follows the last separator is the final row, and the
    trailing rows whose every cell is empty or white space are removed.
    The parser is total, and its last loop ends because no empty row is
    left at the end.  On a text with no carriage return inside a quoted
    field this is the reference as the specification words it. *)
Theorem parseCsv_reference (text : jstring) :
  parseCsv text = parseCsv_ref text
  /\ match rev (parseCsv text) with
     | [] => True
     | last :: _ => allEmpty last = false
     end
  /\ (hasQuotedCR false text = false -> parseCsv text = parseCsv_spec text).
Proof.
  split; [apply parseCsv_parseCsv_ref|]. split.
  - unfold parseCsv. apply popEmptyRows_done.
  - intros H. unfold parseCsv_spec. rewrite stripQuotedCR_id by exact H.
    apply parseCsv_parseCsv_ref.
Qed.

(** Two rows ended by CR LF, the second with a quoted comma: the parser
    gives the table of the specification's reference. *)
Lemma parseCsv_reference_witness :
  parseCsv (js "a,b" ++ [CR; LF; QUOTE] ++ js "c,d" ++ [QUOTE] ++ js ",e" ++ [CR; LF])
  = parseCsv_spec
      (js "a,b" ++ [CR; LF; QUOTE] ++ js "c,d" ++ [QUOTE] ++ js ",e" ++ [CR; LF]).
Proof.
  apply (proj2 (proj2 (parseCsv_reference
           (js "a,b" ++ [CR; LF; QUOTE] ++ js "c,d" ++ [QUOTE] ++ js ",e" ++ [CR; LF])))).
  reflexivity.
Defined.

(* ================================================================= *)
(** ** Objects used as maps *)

Lemma obj_get_replace_same (k v : jstring) (o : jsobj) :
  obj_has o k = true -> obj_get (obj_replace k v o) k = Some v.
Proof.
  unfold obj_has. induction o as [|[k' v'] o IH]; simpl; [discriminate|].
  destruct (str_eqb k' k) eqn:E; simpl.
  - now rewrite str_eqb_refl.
  - now rewrite E.
Qed.

Lemma obj_get_replace_other (k v k0 : jstring) (o : jsobj) :
  k0 <> k -> obj_get (obj_replace k v o) k0 = obj_get o k0.
Proof.
  intros Hne. induction o as [|[k' v'] o IH]; simpl; [reflexivity|].
  destruct (str_eqb k' k) eqn:E; simpl.
  - apply str_eqb_eq in E. subst k'.
    destruct (str_eqb k k0) eqn:E0; [|reflexivity].
    apply str_eqb_eq in E0. congruence.
  - now rewrite IH.
Qed.

Lemma obj_get_insert_same (k v : jstring) (o : jsobj) :
  obj_has o k = false -> obj_get (obj_insert k v o) k = Some v.
Proof.
  unfold obj_has. induction o as [|[k' v'] o IH]; simpl.
  - now rewrite str_eqb_refl.
  - destruct (str_eqb k' k) eqn:E; [discriminate|]. intros H.
    destruct (arrayIndex k), (arrayIndex k'); simpl;
      try destruct (_ <? _)%N; simpl;
      rewrite ?str_eqb_refl, ?E; auto.
Qed.

Lemma obj_get_insert_other (k v k0 : jstring) (o : jsobj) :
  k0 <> k -> obj_get (obj_insert k v o) k0 = obj_get o k0.
Proof.
  intros Hne. apply not_eq_sym in Hne. apply str_eqb_neq in Hne.
  induction o as [|[k' v'] o IH]; simpl.
  - now rewrite Hne.
  - destruct (arrayIndex k), (arrayIndex k'); simpl;
      try destruct (_ <? _)%N; simpl;
      rewrite ?Hne, ?IH; reflexivity.
Qed.

Lemma obj_get_define_same (k v : jstring) (o : jsobj) :
  obj_get (obj_define k v o) k = Some v.
Proof.
  unfold obj_define. destruct (obj_has o k) eqn:E.
  - now apply obj_get_replace_same.
  - now apply obj_get_insert_same.
Qed.

Lemma obj_get_define_other (k v k0 : jstring) (o : jsobj) :
  k0 <> k -> obj_get (obj_define k v o) k0 = obj_get o k0.
Proof.
  intros Hne. unfold obj_define. destruct (obj_has o k).
  - now apply obj_get_replace_other.
  - now apply obj_get_insert_other.
Qed.

Lemma obj_get_set_same (k v : jstring) (o : jsobj) :
  k <> PROTO -> obj_get (obj_set k v o) k = Some v.
Proof.
  intros Hne. unfold obj_set. apply str_eqb_neq in Hne. rewrite Hne. simpl.
  apply obj_get_define_same.
Qed.

Lemma obj_get_set_other (k v k0 : jstring) (o : jsobj) :
  k0 <> k -> obj_get (obj_set k v o) k0 = obj_get o k0.
Proof.
  intros Hne. unfold obj_set.
  destruct (str_eqb k PROTO && negb (obj_has o k)); [reflexivity|].
  now apply obj_get_define_other.
Qed.

(** An assignment gives the key its value or, on [__proto__], gives
    nothing. *)
Lemma obj_get_set_inv (k v k0 v0 : jstring) (o : jsobj) :
  obj_get (obj_set k v o) k0 = Some v0 ->
  (k0 = k /\ v0 = v) \/ obj_get o k0 = Some v0.
Proof.
  intros H. destruct (str_eqb k0 k) eqn:E.
  - apply str_eqb_eq in E. subst k0. unfold obj_set in H.
    destruct (str_eqb k PROTO && negb (obj_has o k)); [now right|].
    rewrite obj_get_define_same in H. left. split; congruence.
  - apply str_eqb_neq in E. rewrite obj_get_set_other in H by exact E.
    now right.
Qed.

(** *** Loops that assign properties *)

Lemma assignAll_app (ws1 ws2 : list assignment) (o : jsobj) :
  assignAll (ws1 ++ ws2) o = assignAll ws2 (assignAll ws1 o).
Proof. apply fold_left_app. Qed.

Lemma obj_get_assign_other (w : assignment) (k : jstring) (o : jsobj) :
  ~ assignsKey k w -> obj_get (assign w o) k = obj_get o k.
Proof.
  destruct w as [[k' v']|]; simpl; [|reflexivity]. intros H.
  apply obj_get_set_other. intros ->. apply H. now exists v'.
Qed.

(** A key that no turn assigns keeps its value. *)
Lemma obj_get_assignAll_none (ws : list assignment) (k : jstring) (o : jsobj) :
  Forall (fun w => ~ assignsKey k w) ws ->
  obj_get (assignAll ws o) k = obj_get o k.
Proof.
  revert o; induction ws as [|w ws IH]; intros o H; [reflexivity|].
  inversion H; subst. simpl. rewrite IH by assumption.
  now apply obj_get_assign_other.
Qed.

(** The last turn that assigns a key decides its value. *)
Lemma obj_get_assignAll_last (ws1 ws2 : list assignment) (k v : jstring) (o : jsobj) :
  k <> PROTO ->
  Forall (fun w => ~ assignsKey k w) ws2 ->
  obj_get (assignAll (ws1 ++ Some (k, v) :: ws2) o) k = Some v.
Proof.
  intros Hk H2. rewrite assignAll_app. simpl.
  change (fold_left (fun o w => assign w o) ws2 ?x) with (assignAll ws2 x).
  rewrite obj_get_assignAll_none by assumption.
  now apply obj_get_set_same.
Qed.

(** Every property of the result was there before or was assigned by some
    turn. *)
Lemma obj_get_assignAll_inv (ws : list assignment) (k v : jstring) (o : jsobj) :
  obj_get (assignAll ws o) k = Some v ->
  obj_get o k = Some v \/ In (Some (k, v)) ws.
Proof.
  revert o; induction ws as [|w ws IH]; intros o H; [now left|].
  simpl in H. apply IH in H as [H|H]; [|right; now right].
  destruct w as [[k' v']|]; simpl in H; [|now left].
  apply obj_get_set_inv in H as [[-> ->]|H]; [right; now left | now left].
Qed.

Lemma forEachIndexed_assignAll {A : Type} (body : nat -> A -> jsobj -> jsobj)
    (w : nat -> A -> assignment) :
  (forall i x o, body i x o = assign (w i x) o) ->
  forall l i o, forEachIndexed body i l o = assignAll (turns w i l) o.
Proof.
  intros Hb. induction l as [|x l IH]; intros i o; [reflexivity|].
  simpl. now rewrite IH, Hb.
Qed.

Lemma turns_length {A : Type} (w : nat -> A -> assignment) (l : list A) (i : nat) :
  length (turns w i l) = length l.
Proof. revert i; induction l as [|x l IH]; intros i; simpl; auto. Qed.

Lemma turns_nth_error {A : Type} (w : nat -> A -> assignment) (l : list A) (i j : nat) :
  nth_error (turns w i l) j = option_map (w (i + j)) (nth_error l j).
Proof.
  revert i j; induction l as [|x l IH]; intros i [|j]; simpl; try reflexivity.
  - now rewrite Nat.add_0_r.
  - rewrite IH. now rewrite Nat.add_succ_r.
Qed.

(** The last turn, by its position, that assigns a key decides its
    value. *)
Lemma obj_get_turns_last {A : Type} (w : nat -> A -> assignment) (l : list A)
    (j : nat) (x : A) (k v : jstring) (o : jsobj) :
  k <> PROTO ->
  nth_error l j = Some x ->
  w j x = Some (k, v) ->
  (forall j' x', j < j' -> nth_error l j' = Some x' -> ~ assignsKey k (w j' x')) ->
  obj_get (assignAll (turns w 0 l) o) k = Some v.
Proof.
  intros Hk Hj Hw Hlater.
  assert (Hsplit : nth_error (turns w 0 l) j = Some (Some (k, v))).
  { rewrite turns_nth_error, Hj. simpl. now rewrite Hw. }
  apply nth_error_split in Hsplit as (ws1 & ws2 & E & Hlen).
  rewrite E. apply obj_get_assignAll_last; [exact Hk|].
  apply Forall_forall. intros w' Hin.
  apply In_nth_error in Hin as [n Hn].
  assert (Hn' : nth_error (turns w 0 l) (S (j + n)) = Some w').
  { rewrite E, nth_error_app2 by lia.
    replace (S (j + n) - length ws1) with (S n) by lia. exact Hn. }
  rewrite turns_nth_error in Hn'. change (0 + S (j + n)) with (S (j + n)) in Hn'.
  destruct (nth_error l (S (j + n))) as [x'|] eqn:Ex; [|discriminate].
  cbn [option_map] in Hn'. injection Hn' as <-.
  apply (Hlater (S (j + n)) x'); [lia | exact Ex].
Qed.

Lemma In_turns {A : Type} (w : nat -> A -> assignment) (l : list A) (i : nat)
    (a : assignment) :
  In a (turns w i l) -> exists j x, nth_error l j = Some x /\ w (i + j) x = a.
Proof.
  revert i; induction l as [|x l IH]; intros i; simpl; [tauto|].
  intros [H|H].
  - exists 0, x. split; [reflexivity|]. now rewrite Nat.add_0_r.
  - apply IH in H as (j & x' & Hj & Hw). exists (S j), x'.
    split; [exact Hj|]. now rewrite Nat.add_succ_r.
Qed.

(** *** Objects have each key once *)

Lemma obj_keys_replace (k v : jstring) (o : jsobj) :
  obj_keys (obj_replace k v o) = obj_keys o.
Proof.
  induction o as [|[k' v'] o IH]; simpl; [reflexivity|].
  destruct (str_eqb k' k) eqn:E; simpl.
  - apply str_eqb_eq in E. now subst.
  - now rewrite IH.
Qed.

Lemma obj_get_None_keys (o : jsobj) (k : jstring) :
  obj_get o k = None <-> ~ In k (obj_keys o).
Proof.
  induction o as [|[k' v'] o IH]; simpl; [tauto|].
  destruct (str_eqb k' k) eqn:E.
  - apply str_eqb_eq in E. split; [discriminate | tauto].
  - apply str_eqb_neq in E. rewrite IH. tauto.
Qed.

Lemma In_keys_insert (k v k0 : jstring) (o : jsobj) :
  In k0 (obj_keys (obj_insert k v o)) <-> k0 = k \/ In k0 (obj_keys o).
Proof.
  induction o as [|[k' v'] o IH]; simpl.
  - intuition congruence.
  - destruct (arrayIndex k), (arrayIndex k'); try destruct (_ <? _)%N;
      simpl; rewrite ?IH; intuition congruence.
Qed.

Lemma NoDup_keys_insert (k v : jstring) (o : jsobj) :
  ~ In k (obj_keys o) -> NoDup (obj_keys o) -> NoDup (obj_keys (obj_insert k v o)).
Proof.
  induction o as [|[k' v'] o IH]; simpl; intros Hk Hnd.
  - constructor; [tauto | constructor].
  - inversion Hnd as [|? ? Hk' Hnd']; subst.
    assert (Hins : NoDup (k' :: obj_keys (obj_insert k v o))).
    { constructor; [|apply IH; tauto].
      rewrite In_keys_insert. intros [->|H]; tauto. }
    assert (Hcons : NoDup (k :: k' :: obj_keys o)).
    { constructor; [simpl; tauto | exact Hnd]. }
    destruct (arrayIndex k), (arrayIndex k'); try destruct (_ <? _)%N;
      simpl; assumption.
Qed.

Lemma NoDup_keys_define (k v : jstring) (o : jsobj) :
  NoDup (obj_keys o) -> NoDup (obj_keys (obj_define k v o)).
Proof.
  intros Hnd. unfold obj_define, obj_has.
  destruct (obj_get o k) eqn:E.
  - now rewrite obj_keys_replace.
  - apply NoDup_keys_insert; [|exact Hnd]. now apply obj_get_None_keys.
Qed.

(** *** Object spread *)

Lemma obj_get_spread_fold (b o : jsobj) (k : jstring) :
  NoDup (obj_keys b) ->
  obj_get (fold_left (fun o kv => obj_define (fst kv) (snd kv) o) b o) k
  = match obj_get b k with
    | Some v => Some v
    | None => obj_get o k
    end.
Proof.
  revert o; induction b as [|[k' v'] b IH]; intros o Hnd; [reflexivity|].
  simpl in *. inversion Hnd as [|? ? Hk' Hnd']; subst.
  rewrite IH by assumption.
  destruct (str_eqb k' k) eqn:E.
  - apply str_eqb_eq in E. subst k'.
    apply obj_get_None_keys in Hk'. rewrite Hk'.
    apply obj_get_define_same.
  - apply str_eqb_neq in E.
    now rewrite obj_get_define_other by congruence.
Qed.

Lemma NoDup_keys_spread_fold (b o : jsobj) :
  NoDup (obj_keys o) ->
  NoDup (obj_keys (fold_left (fun o kv => obj_define (fst kv) (snd kv) o) b o)).
Proof.
  revert o; induction b as [|kv b IH]; intros o Hnd; [exact Hnd|].
  simpl. apply IH. now apply NoDup_keys_define.
Qed.

(** In [{ ...a, ...b }] the properties of [b] come first. *)
Lemma obj_get_spread (a b : jsobj) (k : jstring) :
  NoDup (obj_keys a) -> NoDup (obj_keys b) ->
  obj_get (obj_spread a b) k
  = match obj_get b k with
    | Some v => Some v
    | None => obj_get a k
    end.
Proof.
  intros Ha Hb. unfold obj_spread.
  rewrite obj_get_spread_fold by assumption.
  destruct (obj_get b k); [reflexivity|].
  rewrite obj_get_spread_fold by assumption.
  now destruct (obj_get a k).
Qed.

Lemma NoDup_keys_set (k v : jstring) (o : jsobj) :
  NoDup (obj_keys o) -> NoDup (obj_keys (obj_set k v o)).
Proof.
  intros Hnd. unfold obj_set.
  destruct (str_eqb k PROTO && negb (obj_has o k)); [exact Hnd|].
  now apply NoDup_keys_define.
Qed.

Lemma NoDup_keys_assignAll (ws : list assignment) (o : jsobj) :
  NoDup (obj_keys o) -> NoDup (obj_keys (assignAll ws o)).
Proof.
  revert o; induction ws as [|[[k v]|] ws IH]; intros o Hnd; simpl;
    [exact Hnd | | ]; apply IH; [now apply NoDup_keys_set | exact Hnd].
Qed.

(* ================================================================= *)
(** ** Mapping Builder *)

Section MappingBuilderFacts.

Variable parseInt : jstring -> option Z.

Lemma tokensOf_empty (s : jstring) : isEmpty (trim s) = true -> tokensOf s = [].
Proof.
  unfold tokensOf. intros H. apply isEmpty_true in H. now rewrite H.
Qed.

Lemma looksLikePackedFirstRow_tokens (a : jstring) :
  looksLikePackedFirstRow a = (100 <=? length (tokensOf a)).
Proof.
  unfold looksLikePackedFirstRow.
  destruct (isEmpty (trim a)) eqn:E; [|reflexivity].
  now rewrite tokensOf_empty.
Qed.

Lemma directRow_assign (packed : bool) (i : nat) (cols : list jstring) (o : jsobj) :
  directRow packed i cols o = assign (directAssignment packed i cols) o.
Proof.
  unfold directRow, directAssignment, getCell.
  destruct (length cols <? 2); [reflexivity|].
  destruct (packed && (i =? 0)); [reflexivity|].
  destruct (isEmpty _ || isEmpty _); reflexivity.
Qed.

Lemma pairDirect_assign (pl : list jstring) (i : nat) (from : jstring) (o : jsobj) :
  pairDirect pl i from o = assign (pairDirectAssignment pl i from) o.
Proof.
  unfold pairDirect, pairDirectAssignment.
  destruct (isEmpty _ || isEmpty _); reflexivity.
Qed.

Lemma pairModulo_assign (t : indexTable) (base : Z) (i : nat) (from : jstring)
    (o : jsobj) :
  pairModulo t base i from o = assign (pairModuloAssignment t base i from) o.
Proof.
  unfold pairModulo, pairModuloAssignment.
  destruct (map_get _ _); [|reflexivity].
  destruct (isEmpty _ || isEmpty _); reflexivity.
Qed.

Lemma mappingFromRows_assignAll (rows : table) :
  mappingFromRows parseInt rows
  = assignAll
      (packedAssignments parseInt rows
       ++ turns (directAssignment (100 <=? length (cipherTokens rows))) 0 rows) [].
Proof.
  unfold mappingFromRows, packedAssignments.
  rewrite looksLikePackedFirstRow_tokens.
  fold (firstRowA rows). fold (cipherTokens rows).
  rewrite assignAll_app.
  rewrite (forEachIndexed_assignAll _ _ (directRow_assign _)).
  f_equal.
  destruct (100 <=? length (cipherTokens rows)); [|reflexivity].
  unfold expandPacked.
  fold (firstRowA rows) (firstRowB rows) (cipherTokens rows) (plainTokens rows).
  destruct (100 <=? length (plainTokens rows)).
  - now rewrite (forEachIndexed_assignAll _ _ (pairDirect_assign _)).
  - cbv zeta.
    destruct ((10 <=? map_size _) && _); [|reflexivity].
    now rewrite (forEachIndexed_assignAll _ _ (pairModulo_assign _ _)).
Qed.

Lemma directAssignment_key (packed : bool) (i : nat) (cols : list jstring)
    (k v : jstring) :
  directAssignment packed i cols = Some (k, v) ->
  trim (nth 0 cols []) = k /\ trim (nth 1 cols []) = v /\ v <> [] /\ k <> []
  /\ (packed = true -> i <> 0).
Proof.
  unfold directAssignment.
  destruct (length cols <? 2); [discriminate|].
  destruct (packed && (i =? 0)) eqn:Ep; [discriminate|].
  destruct (isEmpty (trim (nth 0 cols []))) eqn:E0; [discriminate|].
  destruct (isEmpty (trim (nth 1 cols []))) eqn:E1; [discriminate|].
  simpl. intros H. injection H as <- <-.
  apply isEmpty_false in E0, E1. repeat split; auto.
  intros -> ->. discriminate.
Qed.

Lemma directAssignment_row (packed : bool) (i : nat) (cols : list jstring) :
  (packed = true -> i <> 0) ->
  trim (nth 0 cols []) <> [] -> trim (nth 1 cols []) <> [] ->
  directAssignment packed i cols
  = Some (trim (nth 0 cols []), trim (nth 1 cols [])).
Proof.
  intros Hp H0 H1. unfold directAssignment.
  destruct (length cols <? 2) eqn:El.
  { apply Nat.ltb_lt in El. exfalso. apply H1.
    rewrite nth_overflow by lia. reflexivity. }
  destruct (packed && (i =? 0)) eqn:Ep.
  { apply andb_true_iff in Ep as [-> Ei]. apply Nat.eqb_eq in Ei.
    now destruct Hp. }
  apply isEmpty_false in H0, H1. now rewrite H0, H1.
Qed.

Lemma noDirectRow_assignsKey (packed : bool) (rows : table) (k : jstring)
    (j : nat) (cols : list jstring) :
  noDirectRow rows k j -> nth_error rows j = Some cols ->
  ~ assignsKey k (directAssignment packed j cols).
Proof.
  intros Hno Hj [v Hv]. apply directAssignment_key in Hv as (H0 & H1 & Hv & _).
  apply Hv. rewrite <- H1. now apply (Hno cols).
Qed.

End MappingBuilderFacts.

Section DirectRows.

Variable parseInt : jstring -> option Z.

(** The value of a key after the third strategy is the one of the last
    row that assigns it, whatever the first two strategies left. *)
Lemma last_direct_row (rows : table) (i : nat) (cols : list jstring) :
  nth_error rows i = Some cols ->
  (looksLikePackedFirstRow (firstRowA rows) = true -> i <> 0) ->
  trim (nth 0 cols []) <> [] ->
  trim (nth 1 cols []) <> [] ->
  trim (nth 0 cols []) <> PROTO ->
  (forall j, i < j -> noDirectRow rows (trim (nth 0 cols [])) j) ->
  obj_get (mappingFromRows parseInt rows) (trim (nth 0 cols []))
  = Some (trim (nth 1 cols [])).
Proof.
  intros Hi Hp H0 H1 Hk Hlater.
  rewrite mappingFromRows_assignAll, assignAll_app.
  rewrite looksLikePackedFirstRow_tokens in Hp. fold (cipherTokens rows) in Hp.
  eapply obj_get_turns_last; eauto.
  - now apply directAssignment_row.
  - intros j' x' Hlt Hj'. eapply noDirectRow_assignsKey; eauto.
Qed.

End DirectRows.

(** C3, as stated, fails: of two rows with the same cell 0, the later one
    decides the entry, so the earlier row's cell 1 is not the value of its
    key.  Here the rows are [A,x] and [A,y]. *)
Lemma later_row_overwrites : ~ everyDirectRowDecides.
Proof.
  intros H.
  specialize (H [[js "A"; js "x"]; [js "A"; js "y"]] 0 [js "A"; js "x"]).
  vm_compute in H.
  assert (E : Some [121%N] = Some [120%N]).
  { apply H; try reflexivity; discriminate. }
  discriminate E.
Qed.

(** C3 (amended): for every Raw Table and every row, other than a packed
    row 0, whose cell 0 and cell 1 are non-empty after trimming, and which
    is the last row to assign its key (no later row has the same trimmed
    cell 0 and a non-empty trimmed cell 1), the final Mapping's entry for
    the trimmed cell 0 is the trimmed cell 1, whatever strategies 1 and 2
    produced for that key and whether or not cell 1 is numeric.  The key
    [__proto__] is left out: assigning to it stores nothing. *)
Theorem direct_row_wins (parseInt : jstring -> option Z)
    (rows : table) (i : nat) (cols : list jstring) :
  nth_error rows i = Some cols ->
  (looksLikePackedFirstRow (firstRowA rows) = true -> i <> 0) ->
  trim (nth 0 cols []) <> [] ->
  trim (nth 1 cols []) <> [] ->
  trim (nth 0 cols []) <> PROTO ->
  (forall j, i < j -> noDirectRow rows (trim (nth 0 cols [])) j) ->
  obj_get (mappingFromRows parseInt rows) (trim (nth 0 cols []))
  = Some (trim (nth 1 cols [])).
Proof. apply last_direct_row. Qed.

(** The row [So,28] after the index row [A,0]: its numeric cell 1 is the
    value of its key. *)
Lemma direct_row_wins_witness :
  obj_get (mappingFromRows parseIntExact
             [[js "A"; js "0"]; [js " So"; js "28 "]]) (js "So")
  = Some (js "28").
Proof.
  apply (direct_row_wins parseIntExact
           [[js "A"; js "0"]; [js " So"; js "28 "]] 1 [js " So"; js "28 "]).
  - reflexivity.
  - intros _. discriminate.
  - vm_compute. discriminate.
  - vm_compute. discriminate.
  - vm_compute. discriminate.
  - intros j Hj cols Hcols. destruct j as [|[|j]]; try lia.
    destruct j; discriminate Hcols.
Defined.

(* ----------------------------------------------------------------- *)
(** *** The packed first row *)

Lemma Forall_turns {A : Type} (P : assignment -> Prop) (w : nat -> A -> assignment)
    (l : list A) (i : nat) :
  (forall j x, nth_error l j = Some x -> P (w (i + j) x)) ->
  Forall P (turns w i l).
Proof.
  revert i; induction l as [|x l IH]; intros i H; simpl; constructor.
  - specialize (H 0 x eq_refl). now rewrite Nat.add_0_r in H.
  - apply IH. intros j x' Hj. specialize (H (S j) x' Hj).
    now rewrite Nat.add_succ_r in H.
Qed.

Lemma tokensOf_nonempty (s x : jstring) : In x (tokensOf s) -> x <> [].
Proof.
  unfold tokensOf, filterBoolean. intros H. apply filter_In in H as [_ H].
  apply negb_true_iff in H. now apply isEmpty_false.
Qed.

Lemma nth_error_nonempty (s x : jstring) (i : nat) :
  nth_error (tokensOf s) i = Some x -> isEmpty x = false.
Proof.
  intros H. apply isEmpty_false. eapply tokensOf_nonempty.
  eapply nth_error_In; eauto.
Qed.

(** Once the first row is packed, the third strategy leaves alone every
    key that no later row assigns. *)
Lemma direct_rows_keep (rows : table) (k : jstring) (o : jsobj) :
  (forall j, 0 < j -> noDirectRow rows k j) ->
  obj_get (assignAll (turns (directAssignment true) 0 rows) o) k = obj_get o k.
Proof.
  intros Hno. apply obj_get_assignAll_none. apply Forall_turns.
  intros j cols Hj. simpl. destruct j as [|j].
  - intros [v Hv]. apply directAssignment_key in Hv as (_ & _ & _ & _ & Hp).
    now apply Hp.
  - eapply noDirectRow_assignsKey; eauto. apply Hno. lia.
Qed.

Lemma map_get_set (k k0 : Z) (v : jstring) (m : nummap) :
  map_get (map_set k v m) k0 = if (k =? k0)%Z then Some v else map_get m k0.
Proof.
  induction m as [|[k' v'] m IH]; simpl.
  - reflexivity.
  - destruct (k' =? k)%Z eqn:E; simpl.
    + apply Z.eqb_eq in E. subst k'. destruct (k =? k0)%Z; reflexivity.
    + rewrite IH. destruct (k' =? k0)%Z eqn:E0; [|reflexivity].
      apply Z.eqb_eq in E0. subst k0. now rewrite Z.eqb_sym, E.
Qed.

Section IndexedPlaintext.

Variable parseInt : jstring -> option Z.

Lemma collectIndexed_indexed (cols : list jstring) (t : indexTable) :
  indexed t -> indexed (collectIndexed parseInt cols t).
Proof.
  intros Ht. unfold collectIndexed.
  destruct (length cols <? 2); [exact Ht|].
  destruct (isEmpty (trim (getCell (Some cols) 0))) eqn:Ea; [exact Ht|].
  destruct (isEmpty (trim (getCell (Some cols) 1))); [exact Ht|]. simpl.
  destruct (negb _); [exact Ht|].
  destruct (parseInt _) as [idx|]; [|exact Ht].
  destruct (idx <? 0)%Z eqn:Eneg; [exact Ht|].
  apply Z.ltb_ge in Eneg.
  intros k v. simpl. rewrite map_get_set.
  destruct (idx =? k)%Z eqn:E.
  - apply Z.eqb_eq in E. subst k. intros H. injection H as <-.
    split; [now apply isEmpty_false|].
    destruct (maxIndex t <? idx)%Z eqn:Em; [lia|].
    apply Z.ltb_ge in Em. lia.
  - intros H. apply Ht in H as [Hv Hk]. split; [exact Hv|].
    destruct (maxIndex t <? idx)%Z eqn:Em; [|lia].
    apply Z.ltb_lt in Em. lia.
Qed.

Lemma indexedPlaintext_indexed (rows : table) :
  indexed (indexedPlaintext parseInt rows).
Proof.
  unfold indexedPlaintext.
  assert (H0 : indexed (mkIndexTable [] (-1))) by (intros k v; discriminate).
  revert H0. generalize (mkIndexTable [] (-1)).
  induction rows as [|cols rows IH]; intros t Ht; simpl; [exact Ht|].
  apply IH. now apply collectIndexed_indexed.
Qed.

Lemma indexed_maxIndex (t : indexTable) :
  indexed t -> 1 <= map_size (plainByIndex t) -> (0 <= maxIndex t)%Z.
Proof.
  intros Ht Hs. destruct (plainByIndex t) as [|[k v] m] eqn:E.
  - simpl in Hs. lia.
  - destruct (Ht k v) as [_ Hk]; [|lia].
    rewrite E. simpl. now rewrite Z.eqb_refl.
Qed.

End IndexedPlaintext.

(** C4, as stated, fails: when a token of cell 0 occurs again further on,
    the later pair decides its entry.  Here cell 0 packs a hundred times
    the token T, and cell 1 packs ninety-nine u and then v: T is mapped to
    v, not to the token u at its first position. *)
Lemma repeated_token_overwrites : ~ everyPackedPairMapped.
Proof.
  intros H.
  specialize (H [[concat (repeat (js "T ") 100);
                  concat (repeat (js "u ") 99) ++ js "v"]] 0 (js "T") (js "u")).
  assert (E : obj_get (mappingFromRows parseIntExact
                [[concat (repeat (js "T ") 100);
                  concat (repeat (js "u ") 99) ++ js "v"]]) (js "T")
              = Some (js "v")) by (vm_compute; reflexivity).
  rewrite E in H.
  assert (E' : Some (js "v") = Some (js "u")).
  { apply H.
    - apply Nat.leb_le. vm_compute. reflexivity.
    - apply Nat.leb_le. vm_compute. reflexivity.
    - vm_compute. reflexivity.
    - vm_compute. reflexivity. }
  discriminate E'.
Qed.

(** C4 (amended): for every Raw Table whose row 0 packs at least 100 tokens
    in cell 0 and at least 100 in cell 1, the built Mapping maps token [i]
    of cell 0 to token [i] of cell 1 for every [i] below the shorter length
    whose token does not occur again at a later paired position and is not
    assigned by a direct row after row 0 (the key [__proto__] apart); and
    every entry of the Mapping is such a positional pair or a direct row:
    there are no modulo-fallback entries. *)
Theorem packed_row_expansion (parseInt : jstring -> option Z) (rows : table) :
  100 <= length (cipherTokens rows) ->
  100 <= length (plainTokens rows) ->
  (forall (i : nat) (from to : jstring),
     nth_error (cipherTokens rows) i = Some from ->
     nth_error (plainTokens rows) i = Some to ->
     from <> PROTO ->
     (forall j, i < j -> j < length (plainTokens rows) ->
        nth_error (cipherTokens rows) j <> Some from) ->
     (forall j, 0 < j -> noDirectRow rows from j) ->
     obj_get (mappingFromRows parseInt rows) from = Some to)
  /\
  (forall (k v : jstring),
     obj_get (mappingFromRows parseInt rows) k = Some v ->
     (exists i, nth_error (cipherTokens rows) i = Some k
                /\ nth_error (plainTokens rows) i = Some v)
     \/
     (exists j cols, 0 < j /\ nth_error rows j = Some cols
                /\ trim (nth 0 cols []) = k /\ trim (nth 1 cols []) = v)).
Proof.
  intros Hc Hp.
  assert (Ea : packedAssignments parseInt rows
               = turns (pairDirectAssignment (plainTokens rows)) 0
                   (firstn (Nat.min (length (cipherTokens rows))
                                    (length (plainTokens rows)))
                      (cipherTokens rows))).
  { unfold packedAssignments.
    apply Nat.leb_le in Hc, Hp. now rewrite Hc, Hp. }
  assert (Eb : (100 <=? length (cipherTokens rows)) = true) by now apply Nat.leb_le.
  rewrite mappingFromRows_assignAll, Ea, Eb. split.
  - intros i from to Hfrom Hto Hk Hrep Hrows.
    rewrite assignAll_app, direct_rows_keep by assumption.
    assert (Hi : i < Nat.min (length (cipherTokens rows)) (length (plainTokens rows))).
    { apply Nat.min_glb_lt; apply nth_error_Some; congruence. }
    apply obj_get_turns_last with (j := i) (x := from); try assumption.
    + rewrite nth_error_firstn. apply Nat.ltb_lt in Hi. now rewrite Hi.
    + unfold pairDirectAssignment.
      rewrite (nth_error_nth _ _ _ Hto).
      unfold cipherTokens, plainTokens in Hfrom, Hto.
      now rewrite (nth_error_nonempty _ _ _ Hfrom), (nth_error_nonempty _ _ _ Hto).
    + intros j' x' Hlt Hj' [v Hv].
      rewrite nth_error_firstn in Hj'.
      destruct (j' <? _) eqn:Ej; [|discriminate].
      apply Nat.ltb_lt in Ej.
      unfold pairDirectAssignment in Hv.
      destruct (isEmpty x' || isEmpty _); [discriminate|].
      injection Hv as -> _.
      apply (Hrep j'); [exact Hlt | lia | exact Hj'].
  - intros k v H. apply obj_get_assignAll_inv in H as [H|H]; [discriminate|].
    apply in_app_or in H as [H|H]; apply In_turns in H as (j & x & Hj & Hw).
    + left. exists j. simpl in Hw.
      rewrite nth_error_firstn in Hj.
      destruct (j <? _) eqn:Ej; [|discriminate].
      apply Nat.ltb_lt in Ej.
      unfold pairDirectAssignment in Hw.
      destruct (isEmpty x || isEmpty _); [discriminate|].
      injection Hw as -> <-. split; [exact Hj|].
      apply nth_error_nth'. lia.
    + right. simpl in Hw.
      apply directAssignment_key in Hw as (H0 & H1 & _ & _ & Hz).
      exists j, x. repeat split; auto.
      specialize (Hz eq_refl). lia.
Qed.

(** The first row packs the 150 characters from U+4E00 on one side and the
    150 from U+3042 on the other: the fourth goes to the fourth. *)
Lemma packed_row_expansion_witness :
  obj_get (mappingFromRows parseIntExact
             [[packedCell 0x4E00 150; packedCell 0x3042 150]]) [0x4E03%N]
  = Some [0x3045%N].
Proof.
  refine (proj1 (packed_row_expansion parseIntExact
                   [[packedCell 0x4E00 150; packedCell 0x3042 150]] _ _)
            3 [0x4E03%N] [0x3045%N] _ _ _ _ _).
  - apply Nat.leb_le. vm_compute. reflexivity.
  - apply Nat.leb_le. vm_compute. reflexivity.
  - vm_compute. reflexivity.
  - vm_compute. reflexivity.
  - vm_compute. discriminate.
  - intros j H3 Hj.
    assert (Hall : forallb (fun j => negb (str_eqb
                     (nth j (cipherTokens [[packedCell 0x4E00 150; packedCell 0x3042 150]]) [])
                     [0x4E03%N]))
                     (seq 4 146) = true) by (vm_compute; reflexivity).
    rewrite forallb_forall in Hall.
    assert (Hlen : length (plainTokens [[packedCell 0x4E00 150; packedCell 0x3042 150]]) = 150)
      by (vm_compute; reflexivity).
    assert (Hlen' : length (cipherTokens [[packedCell 0x4E00 150; packedCell 0x3042 150]]) = 150)
      by (vm_compute; reflexivity).
    specialize (Hall j). rewrite in_seq in Hall.
    intros E. assert (Hin : 4 <= j < 4 + 146) by lia.
    apply Hall in Hin. apply negb_true_iff, str_eqb_neq in Hin. apply Hin.
    now apply nth_error_nth.
  - intros j Hj cols Hcols. destruct j as [|j]; [lia|].
    destruct j; discriminate Hcols.
Defined.

(** A check of [noDirectRow] on the rows after the first, by evaluation. *)
Lemma noDirectRow_check (rows : table) (k : jstring) :
  forallb (fun cols => negb (str_eqb (trim (nth 0 cols [])) k)
                       || isEmpty (trim (nth 1 cols []))) (tl rows) = true ->
  forall j, 0 < j -> noDirectRow rows k j.
Proof.
  intros H j Hj cols Hcols Hk.
  destruct j as [|j]; [lia|]. destruct rows as [|r rows]; [discriminate|].
  cbn [tl] in H. cbn [nth_error] in Hcols. rewrite forallb_forall in H.
  apply nth_error_In in Hcols. specialize (H _ Hcols). cbv beta in H.
  subst k. rewrite str_eqb_refl in H. now apply isEmpty_true.
Qed.

(** A check that a token does not occur after position [i], by
    evaluation. *)
Lemma no_later_token_check (l : list jstring) (k : jstring) (i : nat) :
  forallb (fun x => negb (str_eqb x k)) (skipn (S i) l) = true ->
  forall j, i < j -> nth_error l j <> Some k.
Proof.
  intros H j Hj E. rewrite forallb_forall in H.
  assert (Hin : In k (skipn (S i) l)).
  { apply nth_error_In with (n := j - S i).
    rewrite nth_error_skipn. now replace (S i + (j - S i)) with j by lia. }
  apply H in Hin. cbv beta in Hin. now rewrite str_eqb_refl in Hin.
Qed.

(** C5, as stated, fails: a cell 0 of 25 tokens is not packed (the builder
    asks for 100 tokens), so the modulo scheme does not run.  Here row 0
    holds 25 tokens and ten index rows follow: the first token has no
    entry, where the claim maps it to the plaintext of index 0. *)
Lemma short_first_row_not_expanded : ~ moduloFallbackOn25Tokens.
Proof.
  intros H.
  specialize (H ([packedCell 0x4E00 25; []] :: indexRows 0x3042 10) 0 [0x4E00%N]).
  vm_compute in H.
  assert (E : @None jstring = Some [0x3042%N]).
  { apply H; try reflexivity; lia. }
  discriminate E.
Qed.

(** C5 (amended): for every Raw Table whose cell 0 of row 0 packs at
    least 100 tokens, whose cell 1 of row 0 packs fewer than 100, and for
    which strategy 1 collected at least 10 indexed plaintexts, the built
    Mapping maps token [i] of cell 0 to the indexed plaintext at index
    [i mod (maxIndex + 1)], one more than the largest index collected,
    whenever there is a plaintext at that index, the token does not occur
    again further on and no direct row after row 0 assigns it (the key
    [__proto__] apart). *)
Theorem modulo_fallback (parseInt : jstring -> option Z)
    (rows : table) (i : nat) (from to : jstring) :
  100 <= length (cipherTokens rows) ->
  length (plainTokens rows) < 100 ->
  10 <= map_size (plainByIndex (indexedPlaintext parseInt rows)) ->
  nth_error (cipherTokens rows) i = Some from ->
  map_get (plainByIndex (indexedPlaintext parseInt rows))
    (Z.of_nat i mod (maxIndex (indexedPlaintext parseInt rows) + 1)) = Some to ->
  from <> PROTO ->
  (forall j, i < j -> nth_error (cipherTokens rows) j <> Some from) ->
  (forall j, 0 < j -> noDirectRow rows from j) ->
  obj_get (mappingFromRows parseInt rows) from = Some to.
Proof.
  intros Hc Hp Hsize Hfrom Hto Hk Hrep Hrows.
  pose proof (indexedPlaintext_indexed parseInt rows) as Hind.
  pose proof (indexed_maxIndex _ Hind ltac:(lia)) as Hmax.
  set (t := indexedPlaintext parseInt rows) in *.
  assert (Ea : packedAssignments parseInt rows
               = turns (pairModuloAssignment t (maxIndex t + 1)) 0 (cipherTokens rows)).
  { unfold packedAssignments. fold t.
    apply Nat.leb_le in Hc. apply Nat.ltb_lt in Hp. rewrite Nat.ltb_antisym in Hp.
    apply negb_true_iff in Hp. rewrite Hc, Hp.
    apply Z.leb_le in Hmax. rewrite Hmax.
    apply Nat.leb_le in Hsize. rewrite Hsize.
    assert (Hb : (0 <? maxIndex t + 1)%Z = true) by (apply Z.ltb_lt; apply Z.leb_le in Hmax; lia).
    now rewrite Hb. }
  assert (Eb : (100 <=? length (cipherTokens rows)) = true) by now apply Nat.leb_le.
  rewrite mappingFromRows_assignAll, Ea, Eb.
  rewrite assignAll_app, direct_rows_keep by assumption.
  apply obj_get_turns_last with (j := i) (x := from); try assumption.
  - unfold pairModuloAssignment. rewrite Hto.
    unfold cipherTokens in Hfrom.
    rewrite (nth_error_nonempty _ _ _ Hfrom).
    destruct (Hind _ _ Hto) as [Hne _]. apply isEmpty_false in Hne.
    now rewrite Hne.
  - intros j' x' Hlt Hj' [v Hv].
    unfold pairModuloAssignment in Hv.
    destruct (map_get (plainByIndex t) (Z.of_nat j' mod (maxIndex t + 1)));
      [|discriminate].
    destruct (isEmpty x' || isEmpty _); [discriminate|].
    injection Hv as -> _. now apply (Hrep j').
Qed.

(** Row 0 packs the 100 characters from U+4E00 and ten index rows follow,
    from U+3042 on: the token at position 25 goes to the plaintext of
    index 5. *)
Lemma modulo_fallback_witness :
  obj_get (mappingFromRows parseIntExact
             ([packedCell 0x4E00 100; []] :: indexRows 0x3042 10)) [0x4E19%N]
  = Some [0x3047%N].
Proof.
  apply (modulo_fallback parseIntExact
           ([packedCell 0x4E00 100; []] :: indexRows 0x3042 10) 25).
  - apply Nat.leb_le. vm_compute. reflexivity.
  - apply Nat.ltb_lt. vm_compute. reflexivity.
  - apply Nat.leb_le. vm_compute. reflexivity.
  - vm_compute. reflexivity.
  - vm_compute. reflexivity.
  - vm_compute. discriminate.
  - apply no_later_token_check. vm_compute. reflexivity.
  - apply noDirectRow_check. vm_compute. reflexivity.
Defined.

(* ================================================================= *)
(** ** Mapping Source *)

Section FetchFailures.

Variable toLowerCase : jstring -> jstring.
Variable fetch : jstring -> settled response.
Variable parseInt : jstring -> option Z.
Variable now : nat -> Z.
Variable setError : cacheRecord -> option error.
Variable getError : jstring -> option error.

Lemma blank_text (text : jstring) :
  isEmpty text || (length (trim text) =? 0) = isEmpty (trim text).
Proof.
  rewrite length_eqb_0. fold (isEmpty (trim text)).
  destruct text as [|c text]; [reflexivity|]. reflexivity.
Qed.

Lemma fetch_empty_body (u : jstring) (res : response) :
  fetch u = Resolved res -> res_ok res = true ->
  trim (res_text res) = [] ->
  fetchFirstWorkingCsv toLowerCase fetch u
  = Rejected (mkError EMPTY_CSV (Some (res_status res)) (Some u) None).
Proof.
  intros Hf Hok Hblank. unfold fetchFirstWorkingCsv.
  rewrite Hf, Hok, blank_text, Hblank. reflexivity.
Qed.

Lemma fetch_html_body (u : jstring) (res : response) :
  fetch u = Resolved res -> res_ok res = true ->
  trim (res_text res) <> [] ->
  looksLikeHtml toLowerCase (res_text res) = true ->
  fetchFirstWorkingCsv toLowerCase fetch u
  = Rejected (mkError NON_CSV (Some (res_status res)) (Some u)
                (Some (slice0 300 (res_text res)))).
Proof.
  intros Hf Hok Hblank Hhtml. unfold fetchFirstWorkingCsv.
  apply isEmpty_false in Hblank.
  rewrite Hf, Hok, blank_text, Hblank. cbn [negb]. cbv zeta.
  unfold looksLikeHtml in Hhtml. now rewrite Hhtml.
Qed.

(** A response whose status is not ok is rejected before its body is
    looked at. *)
Lemma fetch_not_ok (u : jstring) (res : response) :
  fetch u = Resolved res -> res_ok res = false ->
  fetchFirstWorkingCsv toLowerCase fetch u
  = Rejected (mkError (httpMessage res) (Some (res_status res)) (Some u)
                (Some (slice0 300 (res_text res)))).
Proof.
  intros Hf Hok. unfold fetchFirstWorkingCsv. rewrite Hf, Hok. reflexivity.
Qed.

(** When the fetch of the one candidate URL fails, both copies of
    [refreshMapping] write the failure record of the empty mapping: it is
    persisted when the write goes through, and else the promise is rejected
    with the error of the write and the storage is as it was. *)
Lemma refresh_after_failed_fetch (e : error) (st : storage) :
  fetchFirstWorkingCsv toLowerCase fetch CSV_URL = Rejected e ->
  refreshMapping toLowerCase fetch parseInt now setError getError st
  = match setError (emptyMappingRecord now) with
    | None => (mkStorage (Some (emptyMappingRecord now)) (localOverrideMapping st),
               Resolved (RefreshFailed EMPTY_MAPPING))
    | Some e' => (st, Rejected e')
    end
  /\ refreshMapping_plain toLowerCase fetch parseInt now setError st
     = refreshMapping toLowerCase fetch parseInt now setError getError st.
Proof.
  intros Hf. unfold refreshMapping, refreshMapping_plain, buildCsvUrls.
  cbn [firstWorkingMapping]. rewrite Hf.
  unfold refreshFailure, storageSet, failureRecord, emptyMappingRecord, buildCsvUrls.
  cbn [newError message status bodySnippet].
  split; [|reflexivity].
  destruct (setError _); reflexivity.
Qed.

End FetchFailures.

(** C7, as stated, fails: a response whose status is not ok is rejected
    with its status before its body is looked at.  Two responses with
    status 403, the one with an empty body and the other with an HTML page,
    are both rejected with the message "HTTP 403 Forbidden". *)
Lemma not_ok_bodies_fail_alike : ~ bodiesFailDistinctly.
Proof.
  intros H.
  apply (H asciiLower CSV_URL
           (mkResponse false 403 (js "Forbidden") [])
           (mkResponse false 403 (js "Forbidden") (js "<html><body>Sign in</body></html>"))
           (mkError (js "HTTP 403 Forbidden") (Some 403%N) (Some CSV_URL) (Some []))
           (mkError (js "HTTP 403 Forbidden") (Some 403%N) (Some CSV_URL)
              (Some (js "<html><body>Sign in</body></html>"))));
    vm_compute; reflexivity.
Qed.

(** C7 (amended): a response whose status is ok and whose body is empty or
    all white space, and one whose status is ok and whose body, in the
    lower-cased first 2000 characters, holds the opening of an HTML
    document, are rejected with two different errors ("Empty CSV", and
    "Non-CSV response (HTML)..." with an excerpt of the body); a response
    whose status is not ok is rejected with "HTTP", its status and its
    status text, whatever its body.  After any of them [refreshMapping],
    in both of its copies, writes no success record: it writes the failure
    record of the empty mapping, [ok: false]; when the storage takes the
    write, that record is persisted and the refresh resolves to a failure,
    and when the storage rejects it, the refresh is rejected and the storage
    is as it was. *)
Theorem empty_and_html_bodies_fail
    (toLowerCase : jstring -> jstring) (fetch : jstring -> settled response)
    (parseInt : jstring -> option Z) (now : nat -> Z)
    (setError : cacheRecord -> option error) (getError : jstring -> option error)
    (st : storage) (res : response) :
  fetch CSV_URL = Resolved res ->
  (res_ok res = true ->
   trim (res_text res) = [] ->
   fetchFirstWorkingCsv toLowerCase fetch CSV_URL
   = Rejected (mkError EMPTY_CSV (Some (res_status res)) (Some CSV_URL) None))
  /\
  (res_ok res = true ->
   trim (res_text res) <> [] ->
   looksLikeHtml toLowerCase (res_text res) = true ->
   fetchFirstWorkingCsv toLowerCase fetch CSV_URL
   = Rejected (mkError NON_CSV (Some (res_status res)) (Some CSV_URL)
                 (Some (slice0 300 (res_text res)))))
  /\ EMPTY_CSV <> NON_CSV
  /\
  (res_ok res = false ->
   fetchFirstWorkingCsv toLowerCase fetch CSV_URL
   = Rejected (mkError (httpMessage res) (Some (res_status res)) (Some CSV_URL)
                 (Some (slice0 300 (res_text res)))))
  /\
  (res_ok res = false \/ trim (res_text res) = []
   \/ looksLikeHtml toLowerCase (res_text res) = true ->
   cache_ok (emptyMappingRecord now) = false
   /\ refreshMapping toLowerCase fetch parseInt now setError getError st
      = match setError (emptyMappingRecord now) with
        | None =>
            (mkStorage (Some (emptyMappingRecord now)) (localOverrideMapping st),
             Resolved (RefreshFailed EMPTY_MAPPING))
        | Some e => (st, Rejected e)
        end
   /\ refreshMapping_plain toLowerCase fetch parseInt now setError st
      = refreshMapping toLowerCase fetch parseInt now setError getError st).
Proof.
  intros Hf. split; [|split; [|split; [|split]]].
  - intros Hok. now apply fetch_empty_body.
  - intros Hok. now apply fetch_html_body.
  - discriminate.
  - now apply fetch_not_ok.
  - intros Hbody. split; [reflexivity|].
    apply refresh_after_failed_fetch with
      (e := match fetchFirstWorkingCsv toLowerCase fetch CSV_URL with
            | Rejected e => e
            | Resolved _ => newError []
            end).
    destruct (res_ok res) eqn:Eok.
    + destruct (isEmpty (trim (res_text res))) eqn:Eb.
      * apply isEmpty_true in Eb.
        now rewrite (fetch_empty_body toLowerCase fetch CSV_URL res Hf Eok Eb).
      * apply isEmpty_false in Eb.
        destruct Hbody as [Hn|[Hb|Hh]]; [discriminate | contradiction |].
        now rewrite (fetch_html_body toLowerCase fetch CSV_URL res Hf Eok Eb Hh).
    + now rewrite (fetch_not_ok toLowerCase fetch CSV_URL res Hf Eok).
Qed.

(** A login page answered with status 200, the storage taking every
    write: the refresh persists the failure record and resolves to a
    failure. *)
Lemma empty_and_html_bodies_fail_witness :
  refreshMapping asciiLower
    (fun _ => Resolved (mkResponse true 200 (js "OK")
                          (js "<!DOCTYPE HTML><HTML><body>Sign in</body>")))
    parseIntExact (fun _ => 0%Z) (fun _ => None) (fun _ => None)
    (mkStorage None None)
  = (mkStorage (Some (emptyMappingRecord (fun _ => 0%Z))) None,
     Resolved (RefreshFailed EMPTY_MAPPING)).
Proof.
  destruct (empty_and_html_bodies_fail asciiLower
              (fun _ => Resolved (mkResponse true 200 (js "OK")
                                    (js "<!DOCTYPE HTML><HTML><body>Sign in</body>")))
              parseIntExact (fun _ => 0%Z) (fun _ => None) (fun _ => None)
              (mkStorage None None)
              (mkResponse true 200 (js "OK")
                 (js "<!DOCTYPE HTML><HTML><body>Sign in</body>"))
              eq_refl) as (_ & _ & _ & _ & H).
  destruct H as (_ & Hr & _).
  - right. right. vm_compute. reflexivity.
  - exact Hr.
Defined.

(* ================================================================= *)
(** ** Mapping Cache *)

Lemma sanitizeEntry_assign (out : jsobj) (kv : jstring * jsval) :
  sanitizeEntry out kv = assign (sanitizeAssignment kv) out.
Proof.
  unfold sanitizeEntry, sanitizeAssignment.
  destruct (isEmpty (trim (fst kv))); [reflexivity|].
  rewrite length_eqb_0. fold (isEmpty (trim (stringOf (snd kv)))).
  destruct (isEmpty _); reflexivity.
Qed.

Lemma sanitizeMappingObject_assignAll (entries : list (jstring * jsval)) :
  sanitizeMappingObject (Some entries)
  = assignAll (map sanitizeAssignment entries) [].
Proof.
  simpl. unfold assignAll. generalize (@nil (jstring * jstring)).
  induction entries as [|kv entries IH]; intros o; [reflexivity|].
  simpl. now rewrite IH, sanitizeEntry_assign.
Qed.

Lemma sanitizeAssignment_kept (kv : jstring * jsval) :
  kept kv -> sanitizeAssignment kv = Some (trim (fst kv), stringOf (snd kv)).
Proof.
  intros [Hk Hv]. unfold sanitizeAssignment.
  apply isEmpty_false in Hk, Hv. now rewrite Hk, Hv.
Qed.

Lemma sanitizeAssignment_inv (kv : jstring * jsval) (k v : jstring) :
  sanitizeAssignment kv = Some (k, v) ->
  kept kv /\ trim (fst kv) = k /\ stringOf (snd kv) = v.
Proof.
  unfold sanitizeAssignment, kept.
  destruct (isEmpty (trim (fst kv))) eqn:Ek; [discriminate|].
  destruct (isEmpty (trim (stringOf (snd kv)))) eqn:Ev; [discriminate|].
  intros H. injection H as <- <-. apply isEmpty_false in Ek, Ev. auto.
Qed.

Lemma NoDup_keys_mappingFromRows (parseInt : jstring -> option Z) (rows : table) :
  NoDup (obj_keys (mappingFromRows parseInt rows)).
Proof.
  rewrite mappingFromRows_assignAll. apply NoDup_keys_assignAll. constructor.
Qed.

Lemma NoDup_keys_sanitize (obj : option (list (jstring * jsval))) :
  NoDup (obj_keys (sanitizeMappingObject obj)).
Proof.
  destruct obj as [entries|]; [|constructor].
  rewrite sanitizeMappingObject_assignAll. apply NoDup_keys_assignAll.
  constructor.
Qed.

Lemma firstWorkingMapping_built (toLowerCase : jstring -> jstring)
    (fetch : jstring -> settled response) (parseInt : jstring -> option Z)
    (urls : list jstring) (chosen : fetchedCsv) (m : jsobj) :
  firstWorkingMapping toLowerCase fetch parseInt urls = Some (chosen, m) ->
  (length (obj_keys m) =? 0) = false
  /\ m = mappingFromRows parseInt (parseCsv (fetched_text chosen))
  /\ fetchFirstWorkingCsv toLowerCase fetch (fetched_url chosen) = Resolved chosen.
Proof.
  induction urls as [|u urls IH]; simpl; [discriminate|].
  destruct (fetchFirstWorkingCsv toLowerCase fetch u) as [e|fetched] eqn:Ef;
    [exact IH|].
  destruct (length (obj_keys (mappingFromRows parseInt
              (parseCsv (fetched_text fetched)))) =? 0) eqn:El; [exact IH|].
  intros H. injection H as <- <-. repeat split; [exact El|].
  assert (Eu : fetched_url fetched = u).
  { unfold fetchFirstWorkingCsv in Ef.
    destruct (fetch u) as [e|res]; [discriminate|].
    destruct (negb (res_ok res)); [discriminate|].
    destruct (isEmpty _ || _); [discriminate|].
    destruct (includes _ _ || includes _ _); [discriminate|].
    injection Ef as <-. reflexivity. }
  now rewrite Eu.
Qed.

(** C8, as stated, fails: the value of an override entry is stored as it
    is, only its key is trimmed.  The stored object with the one entry
    [a -> " x "] is sanitized to [a -> " x "], spaces kept. *)
Lemma override_value_not_trimmed : ~ sanitizedValuesTrimmed.
Proof.
  intros H.
  specialize (H [(js "a", VString (js " x "))] (js "a") (js " x ")).
  vm_compute in H.
  assert (E : Some [32%N; 120%N; 32%N] = Some [120%N]).
  { apply H; [now left | discriminate | discriminate]. }
  discriminate E.
Qed.

(** C8 (amended): for every stored override object, the sanitized override
    mapping holds exactly the entries whose key is non-empty after
    trimming and whose value is non-empty after trimming, the key stored
    trimmed and the value stored as it is, not trimmed: every entry of the
    sanitized mapping comes from such an entry, and such an entry is there
    when no later such entry has the same trimmed key (the key [__proto__]
    is excepted: assigning it to a plain object stores nothing).  The
    merged mapping that [refreshMapping] builds, and persists when the
    storage takes the write, gives for every key the entry of the overrides
    that were read, and the remote entry when they have none; a read of the
    overrides that the storage rejects counts as no overrides. *)
Theorem sanitized_overrides_take_precedence :
  (forall (entries : list (jstring * jsval)) (k v : jstring),
     obj_get (sanitizeMappingObject (Some entries)) k = Some v ->
     exists kv, In kv entries /\ kept kv
                /\ trim (fst kv) = k /\ stringOf (snd kv) = v)
  /\
  (forall (before after : list (jstring * jsval)) (kv : jstring * jsval),
     kept kv ->
     trim (fst kv) <> PROTO ->
     Forall (fun kv' => kept kv' -> trim (fst kv') <> trim (fst kv)) after ->
     obj_get (sanitizeMappingObject (Some (before ++ kv :: after))) (trim (fst kv))
     = Some (stringOf (snd kv)))
  /\
  (forall (toLowerCase : jstring -> jstring) (fetch : jstring -> settled response)
          (parseInt : jstring -> option Z) (now : nat -> Z)
          (setError : cacheRecord -> option error)
          (getError : jstring -> option error)
          (st : storage) (chosen : fetchedCsv) (mapping : jsobj),
     firstWorkingMapping toLowerCase fetch parseInt buildCsvUrls
     = Some (chosen, mapping) ->
     let overrides :=
       match getError LOCAL_OVERRIDE_KEY with
       | Some _ => []
       | None => sanitizeMappingObject (localOverrideMapping st)
       end in
     let merged := obj_spread mapping overrides in
     let record :=
       CacheOk merged (now 1) (fetched_url chosen) (now 2 - now 0)
         (length (obj_keys merged)) in
     (forall k,
        obj_get merged k
        = match obj_get overrides k with
          | Some v => Some v
          | None => obj_get mapping k
          end)
     /\
     (setError record = None ->
      refreshMapping toLowerCase fetch parseInt now setError getError st
      = (mkStorage (Some record) (localOverrideMapping st),
         Resolved (RefreshOk (length (obj_keys merged)))))).
Proof.
  split; [|split].
  - intros entries k v H.
    rewrite sanitizeMappingObject_assignAll in H.
    apply obj_get_assignAll_inv in H as [H|H]; [discriminate|].
    apply in_map_iff in H as (kv & Hkv & Hin).
    apply sanitizeAssignment_inv in Hkv as (Hkept & Hk & Hv).
    now exists kv.
  - intros before after kv Hkept Hproto Hafter.
    rewrite sanitizeMappingObject_assignAll, map_app. simpl.
    rewrite (sanitizeAssignment_kept _ Hkept).
    apply obj_get_assignAll_last; [exact Hproto|].
    apply Forall_map. eapply Forall_impl; [|exact Hafter].
    intros kv' Hkv' [v Hv]. apply sanitizeAssignment_inv in Hv as (Hk' & Hk & _).
    now apply Hkv'.
  - intros toLowerCase fetch parseInt now setError getError st chosen mapping
      Hfirst overrides merged record.
    destruct (firstWorkingMapping_built _ _ _ _ _ _ Hfirst) as (Hlen & Hm & _).
    split.
    + intros k. apply obj_get_spread.
      * rewrite Hm. apply NoDup_keys_mappingFromRows.
      * unfold overrides. destruct (getError LOCAL_OVERRIDE_KEY);
          [constructor | apply NoDup_keys_sanitize].
    + intros Hset. unfold refreshMapping. rewrite Hfirst, Hlen.
      change (loadLocalOverrideMapping getError st) with overrides. cbv zeta.
      change (obj_spread mapping overrides) with merged.
      unfold storageSet.
      change (CacheOk merged (now 1) (fetched_url chosen) (now 2 - now 0)
                (length (obj_keys merged))) with record.
      now rewrite Hset.
Qed.

(** The stored object [" a " -> " x ", b -> "  "]: the first entry is
    kept under the key [a] with its value untouched. *)
Lemma sanitized_overrides_take_precedence_witness :
  obj_get (sanitizeMappingObject
             (Some [(js " a ", VString (js " x ")); (js "b", VString (js "  "))]))
    (js "a")
  = Some (js " x ").
Proof.
  apply (proj1 (proj2 sanitized_overrides_take_precedence)
           [] [(js "b", VString (js "  "))] (js " a ", VString (js " x "))).
  - split; vm_compute; discriminate.
  - vm_compute. discriminate.
  - constructor; [|constructor]. intros [_ H]. exfalso. apply H.
    vm_compute. reflexivity.
Defined.

(* ================================================================= *)
(** ** Replacer Engine *)

Lemma startsWith_app (k rest : jstring) : startsWith k (k ++ rest) = true.
Proof.
  induction k as [|c k IH]; simpl; [reflexivity|].
  now rewrite N.eqb_refl, IH.
Qed.

Lemma startsWith_inv (k s : jstring) :
  startsWith k s = true -> exists rest, s = k ++ rest.
Proof.
  revert s; induction k as [|c k IH]; intros s H; simpl in *.
  - now exists s.
  - destruct s as [|d s]; [discriminate|].
    apply andb_true_iff in H as [Hc Hk]. apply N.eqb_eq in Hc. subst d.
    destruct (IH _ Hk) as [rest ->]. now exists rest.
Qed.

Lemma startsWith_length (k s : jstring) :
  startsWith k s = true -> length k <= length s.
Proof.
  intros H. destruct (startsWith_inv _ _ H) as [rest ->].
  rewrite length_app. lia.
Qed.

(** Two prefixes of one string that have the same length are equal. *)
Lemma startsWith_same_length (k m s : jstring) :
  startsWith k s = true -> startsWith m s = true -> length k = length m ->
  k = m.
Proof.
  revert m s; induction k as [|c k IH]; intros [|d m] s Hk Hm Hl;
    simpl in *; try discriminate; [reflexivity|].
  destruct s as [|e s]; [discriminate|].
  apply andb_true_iff in Hk as [Hc Hk]. apply andb_true_iff in Hm as [Hd Hm].
  apply N.eqb_eq in Hc, Hd. subst. f_equal. eapply IH; eauto.
Qed.

(** *** The pattern is read back as the keys *)

Lemma isSpecial_false (c : jschar) :
  isSpecial c = false -> (c =? BACKSLASH)%N = false /\ (c =? BAR)%N = false.
Proof.
  intros H. split.
  - destruct (c =? BACKSLASH)%N eqn:E; [|reflexivity].
    apply N.eqb_eq in E. subst c. discriminate H.
  - destruct (c =? BAR)%N eqn:E; [|reflexivity].
    apply N.eqb_eq in E. subst c. discriminate H.
Qed.

Lemma readPattern_escapeKey (k rest cur : jstring) :
  readPattern (escapeKey k ++ rest) cur = readPattern rest (cur ++ k).
Proof.
  revert cur; induction k as [|c k IH]; intros cur; simpl.
  - now rewrite app_nil_r.
  - replace (cur ++ c :: k) with ((cur ++ [c]) ++ k) by now rewrite <- app_assoc.
    destruct (isSpecial c) eqn:E; simpl.
    + apply IH.
    + destruct (isSpecial_false _ E) as [-> ->]. apply IH.
Qed.

Lemma readPattern_bar (p cur : jstring) :
  readPattern ([BAR] ++ p) cur = cur :: readPattern p [].
Proof. reflexivity. Qed.

Lemma readPattern_join (k : jstring) (keys : list jstring) (cur : jstring) :
  readPattern (join [BAR] (map escapeKey (k :: keys))) cur = (cur ++ k) :: keys.
Proof.
  revert k cur; induction keys as [|k' keys IH]; intros k cur.
  - simpl. rewrite <- (app_nil_r (escapeKey k)), readPattern_escapeKey.
    reflexivity.
  - change (join [BAR] (map escapeKey (k :: k' :: keys)))
      with (escapeKey k ++ [BAR] ++ join [BAR] (map escapeKey (k' :: keys))).
    rewrite readPattern_escapeKey, readPattern_bar.
    now rewrite IH.
Qed.

(** The regular expression built from the escaped keys is the alternation
    of the keys themselves, in their order. *)
Lemma newRegExp_keys (keys : list jstring) :
  keys <> [] -> newRegExp (join [BAR] (map escapeKey keys)) = keys.
Proof.
  destruct keys as [|k keys]; [congruence|]. intros _.
  unfold newRegExp. now rewrite readPattern_join.
Qed.

(** *** The sort *)

Lemma insertByLength_perm (e : jstring * jstring) (l : list (jstring * jstring)) :
  Permutation (insertByLength e l) (e :: l).
Proof.
  induction l as [|x l IH]; simpl; [reflexivity|].
  destruct (length (fst e) <? length (fst x)); [|reflexivity].
  rewrite IH. apply perm_swap.
Qed.

Lemma sortByLength_perm (l : list (jstring * jstring)) :
  Permutation (sortByLength l) l.
Proof.
  induction l as [|e l IH]; simpl; [reflexivity|].
  rewrite insertByLength_perm. now constructor.
Qed.

Lemma insertByLength_sorted (e : jstring * jstring) (l : list (jstring * jstring)) :
  StronglySorted longerFirst l -> StronglySorted longerFirst (insertByLength e l).
Proof.
  induction l as [|x l IH]; intros Hs; simpl.
  - constructor; [constructor | constructor].
  - inversion Hs as [|? ? Hs' Hx]; subst.
    destruct (length (fst e) <? length (fst x)) eqn:E.
    + apply Nat.ltb_lt in E. constructor; [now apply IH|].
      apply Forall_forall. intros y Hy.
      apply (Permutation_in _ (insertByLength_perm e l)) in Hy.
      destruct Hy as [<-|Hy]; [unfold longerFirst; lia|].
      rewrite Forall_forall in Hx. now apply Hx.
    + apply Nat.ltb_ge in E. constructor; [exact Hs|].
      constructor; [exact E|].
      eapply Forall_impl; [|exact Hx].
      intros y Hy. unfold longerFirst in *. lia.
Qed.

Lemma sortByLength_sorted (l : list (jstring * jstring)) :
  StronglySorted longerFirst (sortByLength l).
Proof.
  induction l as [|e l IH]; simpl; [constructor|].
  now apply insertByLength_sorted.
Qed.

(** The sort is stable: entries whose keys have one length keep their
    order. *)
Lemma insertByLength_filter (n : nat) (e : jstring * jstring)
    (l : list (jstring * jstring)) :
  StronglySorted longerFirst l ->
  filter (fun x => length (fst x) =? n) (insertByLength e l)
  = filter (fun x => length (fst x) =? n) (e :: l).
Proof.
  induction l as [|x l IH]; intros Hs; [reflexivity|].
  inversion Hs as [|? ? Hs' Hx]; subst. simpl.
  destruct (length (fst e) <? length (fst x)) eqn:E; [|reflexivity].
  apply Nat.ltb_lt in E. simpl. rewrite (IH Hs'). simpl.
  destruct (length (fst x) =? n) eqn:Ex, (length (fst e) =? n) eqn:Ee;
    try reflexivity.
  apply Nat.eqb_eq in Ex, Ee. lia.
Qed.

Lemma sortByLength_stable (n : nat) (l : list (jstring * jstring)) :
  filter (fun x => length (fst x) =? n) (sortByLength l)
  = filter (fun x => length (fst x) =? n) l.
Proof.
  induction l as [|e l IH]; [reflexivity|]. simpl sortByLength.
  rewrite insertByLength_filter by apply sortByLength_sorted.
  simpl. now rewrite IH.
Qed.

(** *** The match at a position *)

Lemma matchAt_Some (re : regexp) (s m : jstring) :
  matchAt re s = Some m -> In m re /\ startsWith m s = true.
Proof.
  induction re as [|alt re IH]; simpl; [discriminate|].
  destruct (startsWith alt s) eqn:E.
  - intros H. injection H as <-. auto.
  - intros H. apply IH in H. tauto.
Qed.

Lemma matchAt_None (re : regexp) (s : jstring) :
  matchAt re s = None <-> forall k, In k re -> startsWith k s = false.
Proof.
  induction re as [|alt re IH]; simpl.
  - split; [intros _ k [] | reflexivity].
  - destruct (startsWith alt s) eqn:E.
    + split; [discriminate|]. intros H. rewrite H in E by now left. discriminate.
    + rewrite IH. split.
      * intros H k [<-|Hk]; auto.
      * intros H k Hk. apply H. now right.
Qed.

(** In an alternation ordered by descending length, the alternative that
    matches is a longest one among those that could. *)
Lemma matchAt_longest (re : regexp) (s m : jstring) :
  StronglySorted (fun a b => length b <= length a) re ->
  matchAt re s = Some m ->
  forall k, In k re -> startsWith k s = true -> length k <= length m.
Proof.
  induction re as [|alt re IH]; simpl; intros Hs Hm k Hk Hpre; [tauto|].
  inversion Hs as [|? ? Hs' Halt]; subst.
  destruct (startsWith alt s) eqn:E.
  - injection Hm as <-. destruct Hk as [<-|Hk]; [lia|].
    rewrite Forall_forall in Halt. now apply Halt.
  - destruct Hk as [<-|Hk]; [congruence|]. now apply IH.
Qed.

(** The key that is the longest among the keys at the head of the text is
    the one that the alternation matches there. *)
Lemma matchAt_longest_key (re : regexp) (k rest : jstring) :
  StronglySorted (fun a b => length b <= length a) re ->
  In k re ->
  (forall k', In k' re -> startsWith k' (k ++ rest) = true ->
     length k' <= length k) ->
  matchAt re (k ++ rest) = Some k.
Proof.
  intros Hs Hk Hlong.
  destruct (matchAt re (k ++ rest)) as [m|] eqn:E.
  - destruct (matchAt_Some _ _ _ E) as [Hm Hpre].
    f_equal. apply startsWith_same_length with (s := k ++ rest);
      [exact Hpre | apply startsWith_app |].
    apply Nat.le_antisymm; [now apply Hlong|].
    eapply matchAt_longest; eauto. apply startsWith_app.
  - rewrite matchAt_None in E. specialize (E k Hk).
    now rewrite startsWith_app in E.
Qed.

(** *** The replacement *)

Lemma replaceFrom_skip (re : regexp) (fn : jstring -> jstring)
    (pre rest : jstring) :
  replaceFrom re fn (pre ++ rest) (length pre) = replaceFrom re fn rest 0.
Proof. induction pre as [|c pre IH]; simpl; [reflexivity | exact IH]. Qed.

(** A match that is not empty is replaced, and the scan goes on after
    it. *)
Lemma replace_match (re : regexp) (fn : jstring -> jstring) (k rest : jstring) :
  k <> [] ->
  matchAt re (k ++ rest) = Some k ->
  replace (k ++ rest) re fn = fn k ++ replace rest re fn.
Proof.
  intros Hne Hm. unfold replace. destruct k as [|c k]; [congruence|].
  simpl app in *. cbn [replaceFrom]. rewrite Hm.
  now rewrite replaceFrom_skip.
Qed.

(** Where nothing matches, the character goes through. *)
Lemma replace_no_match (re : regexp) (fn : jstring -> jstring)
    (c : jschar) (rest : jstring) :
  matchAt re (c :: rest) = None ->
  replace (c :: rest) re fn = c :: replace rest re fn.
Proof. intros Hm. unfold replace. cbn [replaceFrom]. now rewrite Hm. Qed.

(** *** The map of the entries *)

Lemma strmap_get_set (k v k0 : jstring) (m : strmap) :
  strmap_get (strmap_set k v m) k0
  = if str_eqb k k0 then Some v else strmap_get m k0.
Proof.
  unfold strmap_get. induction m as [|[k' v'] m IH]; simpl.
  - reflexivity.
  - destruct (str_eqb k' k) eqn:E; simpl.
    + apply str_eqb_eq in E. subst k'. destruct (str_eqb k k0); reflexivity.
    + rewrite IH. destruct (str_eqb k' k0) eqn:E0; [|reflexivity].
      apply str_eqb_eq in E0. subst k0.
      destruct (str_eqb k k') eqn:E1; [|reflexivity].
      apply str_eqb_eq in E1. subst k'. now rewrite str_eqb_refl in E.
Qed.

Lemma strmap_get_fold (entries : list (jstring * jstring)) (m : strmap) (k : jstring) :
  NoDup (map fst entries) ->
  strmap_get (fold_left (fun m kv => strmap_set (fst kv) (snd kv) m) entries m) k
  = match obj_get entries k with
    | Some v => Some v
    | None => strmap_get m k
    end.
Proof.
  revert m; induction entries as [|[k' v'] entries IH]; intros m Hnd;
    [reflexivity|].
  simpl in *. inversion Hnd as [|? ? Hk' Hnd']; subst.
  rewrite IH by assumption.
  destruct (str_eqb k' k) eqn:E.
  - apply str_eqb_eq in E. subst k'.
    apply obj_get_None_keys in Hk'. unfold obj_keys in Hk'. rewrite Hk'.
    now rewrite strmap_get_set, str_eqb_refl.
  - destruct (obj_get entries k); [reflexivity|].
    now rewrite strmap_get_set, E.
Qed.

Lemma obj_get_In (o : jsobj) (k v : jstring) :
  NoDup (obj_keys o) -> (obj_get o k = Some v <-> In (k, v) o).
Proof.
  induction o as [|[k' v'] o IH]; simpl; intros Hnd; [split; [discriminate | tauto]|].
  inversion Hnd as [|? ? Hk' Hnd']; subst.
  destruct (str_eqb k' k) eqn:E.
  - apply str_eqb_eq in E. subst k'. split.
    + intros H. injection H as <-. now left.
    + intros [H|H]; [congruence|]. exfalso. apply Hk'.
      apply in_map_iff. now exists (k, v).
  - apply str_eqb_neq in E. rewrite (IH Hnd'). split; [tauto|].
    intros [H|H]; [congruence | exact H].
Qed.

Lemma obj_get_perm (o o' : jsobj) (k : jstring) :
  NoDup (obj_keys o) -> Permutation o o' -> obj_get o k = obj_get o' k.
Proof.
  intros Hnd Hp.
  assert (Hnd' : NoDup (obj_keys o')).
  { eapply Permutation_NoDup; [|exact Hnd]. now apply Permutation_map. }
  destruct (obj_get o k) as [v|] eqn:E.
  - symmetry. apply obj_get_In; [exact Hnd'|].
    apply (Permutation_in _ Hp). now apply obj_get_In.
  - destruct (obj_get o' k) as [v|] eqn:E'; [|reflexivity].
    apply obj_get_In in E'; [|exact Hnd'].
    apply (Permutation_in _ (Permutation_sym Hp)) in E'.
    apply obj_get_In in E'; [congruence | exact Hnd].
Qed.

(** The map that [buildReplacer] consults holds the mapping. *)
Lemma newMap_sortByLength (mapping : jsobj) (k : jstring) :
  NoDup (obj_keys mapping) ->
  strmap_get (newMap (sortByLength mapping)) k = obj_get mapping k.
Proof.
  intros Hnd. unfold newMap.
  pose proof (sortByLength_perm mapping) as Hp.
  rewrite strmap_get_fold.
  - rewrite (obj_get_perm _ _ k Hnd (Permutation_sym Hp)).
    now destruct (obj_get _ k).
  - eapply Permutation_NoDup; [|exact Hnd].
    apply Permutation_map. now apply Permutation_sym.
Qed.

Lemma sortByLength_keys_sorted (mapping : jsobj) :
  StronglySorted (fun a b => length b <= length a)
    (map fst (sortByLength mapping)).
Proof.
  pose proof (sortByLength_sorted mapping) as Hs.
  induction Hs as [|x l Hs IH Hx]; simpl; constructor; [exact IH|].
  apply Forall_map. exact Hx.
Qed.

Lemma sortByLength_keys_In (mapping : jsobj) (k : jstring) :
  In k (map fst (sortByLength mapping)) <-> In k (obj_keys mapping).
Proof.
  pose proof (Permutation_map fst (sortByLength_perm mapping)) as Hp.
  split; intros H.
  - now apply (Permutation_in _ Hp).
  - now apply (Permutation_in _ (Permutation_sym Hp)).
Qed.

Lemma filter_map_fst (n : nat) (l : list (jstring * jstring)) :
  filter (fun k => length k =? n) (map fst l)
  = map fst (filter (fun x => length (fst x) =? n) l).
Proof.
  induction l as [|x l IH]; [reflexivity|]. simpl.
  destruct (length (fst x) =? n); simpl; now rewrite IH.
Qed.

Lemma startsWith_nil (k : jstring) : startsWith k [] = true -> k = [].
Proof. destruct k; [reflexivity | discriminate]. Qed.

Lemma obj_get_Some_keys (o : jsobj) (k v : jstring) :
  obj_get o k = Some v -> In k (obj_keys o).
Proof.
  intros H. destruct (in_dec (list_eq_dec N.eq_dec) k (obj_keys o)) as [Hin|Hin];
    [exact Hin|].
  apply obj_get_None_keys in Hin. congruence.
Qed.

(** C2: for every mapping with an entry (an object: each key once), the
    replacer that [buildReplacer] compiles is built on the alternation of
    the keys sorted by descending length, keys of one length in the order
    of the mapping; at each position it replaces the longest key that the
    rest of the text starts with by its value and goes on after it, and
    lets the character through where no key matches.  In particular,
    when [A] and [AB] are both keys, the input [AB] becomes the value of
    [AB], not the value of [A] followed by [B].  (At the end of the text
    the empty key, were it in the mapping, matches once and leaves its
    value there.) *)
Theorem longest_key_wins (mapping : jsobj) :
  mapping <> [] ->
  NoDup (obj_keys mapping) ->
  let keys := map fst (sortByLength mapping) in
  (newRegExp (join [BAR] (map escapeKey keys)) = keys
   /\ StronglySorted (fun a b => length b <= length a) keys
   /\ forall n, filter (fun k => length k =? n) keys
                = filter (fun k => length k =? n) (obj_keys mapping))
  /\
  exists replaceFn,
    buildReplacer mapping = Some replaceFn
    /\ (forall k v rest,
          k <> [] ->
          obj_get mapping k = Some v ->
          (forall k', In k' (obj_keys mapping) ->
                      startsWith k' (k ++ rest) = true ->
                      length k' <= length k) ->
          replaceFn (k ++ rest) = v ++ replaceFn rest)
    /\ (forall c rest,
          (forall k, In k (obj_keys mapping) -> startsWith k (c :: rest) = false) ->
          replaceFn (c :: rest) = c :: replaceFn rest)
    /\ replaceFn [] = match obj_get mapping [] with
                      | Some e => e
                      | None => []
                      end
    /\ (forall A B vAB,
          In A (obj_keys mapping) ->
          B <> [] ->
          obj_get mapping (A ++ B) = Some vAB ->
          replaceFn (A ++ B) = vAB ++ replaceFn []
          /\ (~ In [] (obj_keys mapping) -> replaceFn (A ++ B) = vAB)).
Proof.
  intros Hne Hnd keys.
  assert (Hkeys : keys <> []).
  { unfold keys. intros E. apply Hne.
    apply map_eq_nil in E.
    pose proof (sortByLength_perm mapping) as Hp. rewrite E in Hp.
    now apply Permutation_nil in Hp. }
  assert (Hre : newRegExp (join [BAR] (map escapeKey keys)) = keys)
    by now apply newRegExp_keys.
  assert (Hsorted : StronglySorted (fun a b => length b <= length a) keys)
    by apply sortByLength_keys_sorted.
  split.
  { repeat split; [exact Hre | exact Hsorted |].
    intros n. unfold keys, obj_keys.
    now rewrite !filter_map_fst, sortByLength_stable. }
  assert (Hin : forall k, In k keys <-> In k (obj_keys mapping))
    by apply sortByLength_keys_In.
  set (fn := fun m => match strmap_get (newMap (sortByLength mapping)) m with
                      | Some v => v
                      | None => m
                      end).
  assert (Hbuild : buildReplacer mapping = Some (fun text => replace text keys fn)).
  { unfold buildReplacer. destruct mapping; [congruence|].
    cbn [length Nat.eqb]. cbv zeta. fold keys. now rewrite Hre. }
  exists (fun text => replace text keys fn). split; [exact Hbuild|]. cbv beta.
  assert (Hfn : forall k v, obj_get mapping k = Some v -> fn k = v).
  { intros k v Hk. unfold fn. now rewrite newMap_sortByLength, Hk. }
  assert (Hmatch : forall k v rest,
            k <> [] ->
            obj_get mapping k = Some v ->
            (forall k', In k' (obj_keys mapping) ->
                        startsWith k' (k ++ rest) = true -> length k' <= length k) ->
            replace (k ++ rest) keys fn = v ++ replace rest keys fn).
  { intros k v rest Hk0 Hk Hlong.
    rewrite replace_match; [now rewrite (Hfn _ _ Hk) | exact Hk0 |].
    apply matchAt_longest_key; [exact Hsorted | |].
    - apply Hin. eapply obj_get_Some_keys; eauto.
    - intros k' Hk'. apply Hlong. now apply Hin. }
  assert (Hnil : replace [] keys fn = match obj_get mapping [] with
                                      | Some e => e
                                      | None => []
                                      end).
  { unfold replace. cbn [replaceFrom].
    destruct (matchAt keys []) as [m|] eqn:E.
    - apply matchAt_Some in E as [Hm Hpre]. apply startsWith_nil in Hpre.
      subst m. apply Hin in Hm.
      destruct (obj_get mapping []) as [e|] eqn:Ee; [now apply Hfn|].
      apply obj_get_None_keys in Ee. contradiction.
    - destruct (obj_get mapping []) as [e|] eqn:Ee; [|reflexivity].
      apply obj_get_Some_keys, Hin in Ee.
      rewrite matchAt_None in E. specialize (E [] Ee). discriminate. }
  split; [exact Hmatch|]. split; [|split; [exact Hnil|]].
  - intros c rest Hno. apply replace_no_match. apply matchAt_None.
    intros k Hk. apply Hno. now apply Hin.
  - intros A B vAB _ HB HAB.
    assert (E : replace (A ++ B) keys fn = vAB ++ replace [] keys fn).
    { rewrite <- (app_nil_r (A ++ B)) at 1. apply Hmatch; [|exact HAB|].
      - intros E. apply app_eq_nil in E. tauto.
      - intros k' _ Hpre. rewrite app_nil_r in Hpre.
        now apply startsWith_length. }
    split; [exact E|]. intros Hempty. rewrite E, Hnil.
    apply obj_get_None_keys in Hempty. rewrite Hempty. apply app_nil_r.
Qed.

(** The mapping [A -> 1, AB -> 2], in the order in which the shorter key
    comes first: the input AB becomes 2. *)
Lemma longest_key_wins_witness :
  exists replaceFn,
    buildReplacer [(js "A", js "1"); (js "AB", js "2")] = Some replaceFn
    /\ replaceFn (js "AB") = js "2".
Proof.
  destruct (longest_key_wins [(js "A", js "1"); (js "AB", js "2")])
    as (_ & f & Hf & _ & _ & _ & HAB).
  - discriminate.
  - repeat constructor; simpl; intuition discriminate.
  - exists f. split; [exact Hf|].
    apply (HAB (js "A") (js "B") (js "2")).
    + now left.
    + discriminate.
    + reflexivity.
    + simpl. intuition discriminate.
Defined.

Example buildReplacer_ex :
  option_map (fun f => f (js "xABAyB")) 
    (buildReplacer [(js "A", js "1"); (js "AB", js "2")])
  = Some (js "x21yB").
Proof. vm_compute. reflexivity. Qed.

(* ================================================================= *)
(** ** The built mapping as input of the replacer *)

Lemma In_keys_obj_get (o : jsobj) (k : jstring) :
  In k (obj_keys o) -> exists v, obj_get o k = Some v.
Proof.
  intros H. destruct (obj_get o k) as [v|] eqn:E; [now exists v|].
  apply obj_get_None_keys in E. contradiction.
Qed.

(** No key of a built mapping is empty, and each stands once: the built
    mapping is an input on which the replacer behaves as stated above. *)
Lemma mappingFromRows_keys (parseInt : jstring -> option Z) (rows : table) :
  NoDup (obj_keys (mappingFromRows parseInt rows))
  /\ ~ In [] (obj_keys (mappingFromRows parseInt rows)).
Proof.
  split; [apply NoDup_keys_mappingFromRows|].
  intros H. apply In_keys_obj_get in H as [v Hv].
  rewrite mappingFromRows_assignAll in Hv.
  apply obj_get_assignAll_inv in Hv as [Hv|Hv]; [discriminate|].
  apply in_app_or in Hv as [Hv|Hv].
  - unfold packedAssignments in Hv.
    destruct (100 <=? length (cipherTokens rows)); [|destruct Hv].
    destruct (100 <=? length (plainTokens rows)).
    + apply In_turns in Hv as (j & x & _ & Hw).
      unfold pairDirectAssignment in Hw.
      destruct (isEmpty x || isEmpty _) eqn:Ex; [discriminate|].
      injection Hw as Hx _. subst x. discriminate Ex.
    + cbv zeta in Hv.
      destruct ((10 <=? _) && _); [|destruct Hv].
      apply In_turns in Hv as (j & x & _ & Hw).
      unfold pairModuloAssignment in Hw.
      destruct (map_get _ _); [|discriminate].
      destruct (isEmpty x || isEmpty _) eqn:Ex; [discriminate|].
      injection Hw as Hx _. subst x. discriminate Ex.
  - apply In_turns in Hv as (j & x & _ & Hw).
    apply directAssignment_key in Hw as (_ & _ & _ & Hk & _).
    now apply Hk.
Qed.

(** The example of the specification: a first row that packs 150 tokens
    on each side gives the 150 positional pairs and nothing else. *)
Example packed_row_150 :
  let m := mappingFromRows parseIntExact
             [[packedCell 0x4E00 150; packedCell 0x3042 150]] in
  length m = 150
  /\ forallb (fun i => match obj_get m [(0x4E00 + N.of_nat i)%N] with
                       | Some v => str_eqb v [(0x3042 + N.of_nat i)%N]
                       | None => false
                       end) (seq 0 150) = true.
Proof. vm_compute. split; reflexivity. Qed.

(** A first row of 100 tokens with no packed cell 1, and ten index rows:
    token [i] goes to the plaintext of index [i mod 10]; the ten index
    rows are direct entries as well. *)
Example modulo_fallback_100 :
  let m := mappingFromRows parseIntExact
             ([packedCell 0x4E00 100; []] :: indexRows 0x3042 10) in
  length m = 110
  /\ forallb (fun i => match obj_get m [(0x4E00 + N.of_nat i)%N] with
                       | Some v => str_eqb v [(0x3042 + N.of_nat (i mod 10))%N]
                       | None => false
                       end) (seq 0 100) = true.
Proof. vm_compute. split; reflexivity. Qed.

(* ================================================================= *)
(** ** DOM Rewriting Engine: one text node *)

(** [closest] gives the first element of the chain that the selector
    accepts, and [null] when the chain has none. *)
Lemma closest_Some (sel : element -> bool) (chain : list element) (e : element) :
  closest sel chain = Some e -> In e chain /\ sel e = true.
Proof.
  induction chain as [|x chain IH]; simpl; [discriminate|].
  destruct (sel x) eqn:E.
  - intros H. injection H as <-. auto.
  - intros H. apply IH in H. tauto.
Qed.

Lemma closest_None (sel : element -> bool) (chain : list element) :
  closest sel chain = None <-> forall e, In e chain -> sel e = false.
Proof.
  induction chain as [|x chain IH]; simpl.
  - split; [intros _ e [] | reflexivity].
  - destruct (sel x) eqn:E.
    + split; [discriminate|]. intros H. rewrite H in E by now left. discriminate.
    + rewrite IH. split.
      * intros H e [<-|He]; auto.
      * intros H e He. apply H. now right.
Qed.

Lemma blank_current (current : jstring) :
  isEmpty current || (length (trim current) =? 0) = isEmpty (trim current).
Proof. apply blank_text. Qed.




(* ================================================================= *)
(** ** Trees and identities *)

(** Induction on trees, with the hypothesis on every child. *)
Lemma node_induction (P : node -> Prop) :
  (forall i v, P (Text i v)) ->
  (forall i t c o e cs, Forall P cs -> P (Element i t c o e cs)) ->
  forall n, P n.
Proof.
  intros HT HE. fix IH 1. intros [i v|i t c o e cs]; [apply HT|].
  apply HE. induction cs as [|ch cs IHcs]; constructor; [apply IH | exact IHcs].
Qed.

Lemma nodeId_In_ids (n : node) : In (nodeId n) (ids n).
Proof. destruct n; simpl; auto. Qed.

Lemma locate_Element (id : nat) (anc : list element)
    (i : nat) (t : jstring) (c : list jstring) (o : option jstring) (e : bool)
    (cs : list node) :
  locate id anc (Element i t c o e cs)
  = if i =? id then Some (Element i t c o e cs, anc)
    else locateIn id (mkElement i t c o e :: anc) cs.
Proof.
  simpl. destruct (i =? id); [reflexivity|].
  induction cs as [|ch cs IH]; [reflexivity|]. simpl.
  destruct (locate id _ ch); [reflexivity | exact IH].
Qed.

Lemma locate_Text (id : nat) (anc : list element) (i : nat) (v : jstring) :
  locate id anc (Text i v) = if i =? id then Some (Text i v, anc) else None.
Proof. reflexivity. Qed.

Lemma locateIn_app (id : nat) (anc : list element) (l1 l2 : list node) :
  locateIn id anc (l1 ++ l2)
  = match locateIn id anc l1 with
    | Some r => Some r
    | None => locateIn id anc l2
    end.
Proof.
  induction l1 as [|ch l1 IH]; [reflexivity|]. simpl.
  destruct (locate id anc ch); [reflexivity | exact IH].
Qed.

(** A node is found exactly when its identity is in the tree. *)
Lemma locate_None (n : node) :
  forall id anc, locate id anc n = None <-> ~ In id (ids n).
Proof.
  induction n as [i v|i t c o e cs IH] using node_induction; intros id anc.
  - rewrite locate_Text. simpl. destruct (i =? id) eqn:E.
    + apply Nat.eqb_eq in E. split; [discriminate | tauto].
    + apply Nat.eqb_neq in E. split; [tauto | reflexivity].
  - rewrite locate_Element. simpl. destruct (i =? id) eqn:E.
    + apply Nat.eqb_eq in E. split; [discriminate | tauto].
    + apply Nat.eqb_neq in E.
      assert (H : locateIn id (mkElement i t c o e :: anc) cs = None
                  <-> ~ In id (flat_map ids cs)).
      { induction IH as [|ch cs Hch Hcs IHcs]; simpl; [tauto|].
        rewrite in_app_iff.
        destruct (locate id _ ch) eqn:El.
        - split; [discriminate|]. intros H. exfalso.
          assert (Hn : locate id (mkElement i t c o e :: anc) ch <> None) by congruence.
          apply Hn. apply Hch. tauto.
        - apply Hch in El. rewrite IHcs. tauto. }
      rewrite H. tauto.
Qed.

Lemma locateIn_None (l : list node) (id : nat) (anc : list element) :
  locateIn id anc l = None <-> ~ In id (flat_map ids l).
Proof.
  induction l as [|ch l IH]; simpl; [tauto|].
  rewrite in_app_iff. destruct (locate id anc ch) eqn:E.
  - split; [discriminate|]. intros H. exfalso.
    assert (Hn : locate id anc ch <> None) by congruence.
    apply Hn. apply locate_None. tauto.
  - apply locate_None in E. rewrite IH. tauto.
Qed.

(** What is found has the identity asked for and lies in the tree, and
    its ancestors are elements of the tree above those given. *)
Lemma locate_Some (n : node) :
  forall id anc m anc',
    locate id anc n = Some (m, anc') ->
    nodeId m = id
    /\ incl (ids m) (ids n)
    /\ exists pre, anc' = pre ++ anc /\ incl pre (elements n).
Proof.
  induction n as [i v|i t c o e cs IH] using node_induction;
    intros id anc m anc'.
  - rewrite locate_Text. destruct (i =? id) eqn:E; [|discriminate].
    apply Nat.eqb_eq in E. intros H. injection H as <- <-.
    repeat split; [exact E | apply incl_refl |].
    exists []. split; [reflexivity | apply incl_nil_l].
  - rewrite locate_Element. destruct (i =? id) eqn:E.
    + apply Nat.eqb_eq in E. intros H. injection H as <- <-.
      repeat split; [exact E | apply incl_refl |].
      exists []. split; [reflexivity | apply incl_nil_l].
    + intros H.
      assert (Hin : nodeId m = id
                /\ incl (ids m) (flat_map ids cs)
                /\ exists pre, anc' = pre ++ mkElement i t c o e :: anc
                               /\ incl pre (flat_map elements cs)).
      { induction IH as [|ch cs Hch Hcs IHcs]; [discriminate|].
        simpl in H. destruct (locate id _ ch) as [r|] eqn:El.
        - injection H as ->. apply Hch in El as (Hid & Hids & pre & Hanc & Hpre).
          repeat split; [exact Hid | |].
          + simpl. now apply incl_appl.
          + exists pre. split; [exact Hanc|]. simpl. now apply incl_appl.
        - destruct (IHcs H) as (Hid & Hids & pre & Hanc & Hpre).
          repeat split; [exact Hid | |].
          + simpl. now apply incl_appr.
          + exists pre. split; [exact Hanc|]. simpl. now apply incl_appr. }
      destruct Hin as (Hid & Hids & pre & Hanc & Hpre).
      repeat split; [exact Hid | |].
      * simpl. now apply incl_tl.
      * exists (pre ++ [mkElement i t c o e]). split.
        -- now rewrite <- app_assoc.
        -- simpl. apply incl_app; [now apply incl_tl|].
           intros x [<-|[]]. now left.
Qed.

Lemma elements_ids (n : node) (e : element) :
  In e (elements n) -> In (el_id e) (ids n).
Proof.
  induction n as [i v|i t c o ed cs IH] using node_induction; [intros []|].
  simpl. intros [<-|H]; [now left|]. right.
  induction IH as [|ch cs Hch Hcs IHcs]; [destruct H|].
  simpl in *. apply in_app_or in H as [H|H]; apply in_or_app; auto.
Qed.

(** A rewriting of the children of some identity leaves alone a tree that
    does not hold it. *)
Lemma rewriteChildren_notin (id : nat) (f : node -> list node) (n : node) :
  ~ In id (ids n) -> rewriteChildren id f n = n.
Proof.
  induction n as [i v|i t c o e cs IH] using node_induction; [reflexivity|].
  simpl. intros H. f_equal.
  assert (Hcs : ~ In id (flat_map ids cs)) by tauto. clear H.
  induction IH as [|ch cs Hch Hcs' IHcs]; [reflexivity|].
  simpl in *. rewrite in_app_iff in Hcs.
  destruct (nodeId ch =? id) eqn:E.
  - apply Nat.eqb_eq in E. exfalso. apply Hcs. left. rewrite <- E.
    apply nodeId_In_ids.
  - simpl. rewrite Hch by tauto. f_equal. apply IHcs. tauto.
Qed.

Lemma modifyNode_notin (id : nat) (g : node -> node) (n : node) :
  ~ In id (ids n) -> modifyNode id g n = n.
Proof.
  intros H. unfold modifyNode. destruct (nodeId n =? id) eqn:E.
  - apply Nat.eqb_eq in E. exfalso. apply H. rewrite <- E. apply nodeId_In_ids.
  - now apply rewriteChildren_notin.
Qed.

Lemma replaceNode_notin (id : nat) (new n : node) :
  ~ In id (ids n) -> replaceNode id new n = n.
Proof. apply rewriteChildren_notin. Qed.

(** A property of identities that the nodes put in by a rewriting have
    holds of the rewritten tree when it held of the tree. *)
Lemma ids_rewriteChildren (S : nat -> Prop) (id : nat) (f : node -> list node)
    (n : node) :
  (forall ch, (forall i, In i (ids ch) -> S i) ->
              forall i, In i (flat_map ids (f ch)) -> S i) ->
  (forall i, In i (ids n) -> S i) ->
  forall i, In i (ids (rewriteChildren id f n)) -> S i.
Proof.
  intros Hf.
  induction n as [j v|j t c o e cs IH] using node_induction; [auto|].
  simpl. intros Hn i [<-|Hi]; [apply Hn; now left|].
  assert (Hcs : forall i, In i (flat_map ids cs) -> S i) by (intros; apply Hn; auto).
  clear Hn. induction IH as [|ch cs Hch Hcs' IHcs]; [destruct Hi|].
  simpl in Hi, Hcs. apply in_flat_map in Hi as (x & Hx & Hi).
  apply in_app_or in Hx as [Hx|Hx].
  - destruct (nodeId ch =? id).
    + apply (Hf ch); [intros; apply Hcs; apply in_or_app; auto|].
      apply in_flat_map. eauto.
    + destruct Hx as [<-|[]]. apply Hch; [|exact Hi].
      intros; apply Hcs; apply in_or_app; auto.
  - apply IHcs.
    + apply in_flat_map. eauto.
    + intros; apply Hcs; apply in_or_app; auto.
Qed.

Lemma ids_modifyNode (S : nat -> Prop) (id : nat) (g : node -> node) (n : node) :
  (forall ch, (forall i, In i (ids ch) -> S i) ->
              forall i, In i (ids (g ch)) -> S i) ->
  (forall i, In i (ids n) -> S i) ->
  forall i, In i (ids (modifyNode id g n)) -> S i.
Proof.
  intros Hg Hn. unfold modifyNode. destruct (nodeId n =? id); [now apply Hg|].
  apply ids_rewriteChildren; [|exact Hn].
  intros ch Hch i Hi. simpl in Hi. rewrite app_nil_r in Hi. now apply (Hg ch).
Qed.

Lemma ids_setChildNodes (S : nat -> Prop) (frag : list node) (ch : node) :
  (forall i, In i (flat_map ids frag) -> S i) ->
  (forall i, In i (ids ch) -> S i) ->
  forall i, In i (ids (setChildNodes frag ch)) -> S i.
Proof.
  intros Hfrag Hch i. destruct ch as [j v|j t c o e cs]; simpl; [apply Hch|].
  intros [<-|Hi]; [apply Hch; now left | now apply Hfrag].
Qed.

Lemma ids_childNodesOf (n : node) : incl (flat_map ids (childNodesOf n)) (ids n).
Proof. destruct n; simpl; [apply incl_nil_l | apply incl_tl, incl_refl]. Qed.

(** *** The fragment of a wrapper *)

Section Fragment.

Variable rubySwap : bool.
Variable replaceFn : jstring -> jstring.

Lemma ids_textContent (id : nat) (s : jstring) (i : nat) :
  In i (flat_map ids (textContent id s)) -> i = id.
Proof.
  unfold textContent. destruct (isEmpty s); simpl; [tauto|].
  intros [H|[]]. now symmetry.
Qed.

Lemma ids_createTranslatedRuby (id : nat) (original translated : jstring) (i : nat) :
  In i (ids (createTranslatedRuby rubySwap id original translated)) ->
  id <= i < id + 5.
Proof.
  simpl. rewrite !app_nil_r. intros [<-|[<-|H]]; [lia | lia |].
  apply in_app_or in H as [H|[<-|H]]; [|lia|].
  - apply ids_textContent in H. lia.
  - apply ids_textContent in H. lia.
Qed.

(** The identities of a fragment are those taken from the counter. *)
Lemma segmentNodes_ids (parts : list jstring) (s : nat) :
  s <= snd (segmentNodes rubySwap replaceFn parts s)
  /\ forall i, In i (flat_map ids (fst (segmentNodes rubySwap replaceFn parts s))) ->
               s <= i < snd (segmentNodes rubySwap replaceFn parts s).
Proof.
  revert s; induction parts as [|part parts IH]; intros s; simpl.
  - split; [lia | intros i []].
  - destruct (isEmpty part); [apply IH|].
    destruct (forallb isWhiteSpace part).
    + destruct (segmentNodes rubySwap replaceFn parts (s + 1)) as [ns s'] eqn:E.
      specialize (IH (s + 1)). rewrite E in IH. simpl in *.
      destruct IH as [Hle Hin]. split; [lia|].
      intros i [<-|Hi]; [lia|]. apply Hin in Hi. lia.
    + destruct (str_eqb (replaceFn part) part).
      * destruct (segmentNodes rubySwap replaceFn parts (s + 1)) as [ns s'] eqn:E.
        specialize (IH (s + 1)). rewrite E in IH. simpl in *.
        destruct IH as [Hle Hin]. split; [lia|].
        intros i [<-|Hi]; [lia|]. apply Hin in Hi. lia.
      * destruct (segmentNodes rubySwap replaceFn parts (s + 5)) as [ns s'] eqn:E.
        specialize (IH (s + 5)). rewrite E in IH.
        destruct IH as [Hle Hin]. cbn [fst snd] in *. split; [lia|].
        intros i Hi. cbn [flat_map] in Hi. apply in_app_or in Hi as [Hi|Hi].
        -- apply ids_createTranslatedRuby in Hi. lia.
        -- apply Hin in Hi. lia.
Qed.

(** What a fragment renders does not depend on the identities it takes. *)
Lemma rendered_textContent (id id' : nat) (s : jstring) :
  map rendered (textContent id s) = map rendered (textContent id' s).
Proof. unfold textContent. destruct (isEmpty s); reflexivity. Qed.

Lemma rendered_createTranslatedRuby (id id' : nat) (original translated : jstring) :
  rendered (createTranslatedRuby rubySwap id original translated)
  = rendered (createTranslatedRuby rubySwap id' original translated).
Proof.
  simpl.
  now rewrite (rendered_textContent (id + 2) (id' + 2)),
              (rendered_textContent (id + 4) (id' + 4)).
Qed.

Lemma segmentNodes_rendered (parts : list jstring) (s s' : nat) :
  map rendered (fst (segmentNodes rubySwap replaceFn parts s))
  = map rendered (fst (segmentNodes rubySwap replaceFn parts s')).
Proof.
  revert s s'; induction parts as [|part parts IH]; intros s s'; simpl;
    [reflexivity|].
  destruct (isEmpty part); [apply IH|].
  destruct (forallb isWhiteSpace part).
  - specialize (IH (s + 1) (s' + 1)).
    destruct (segmentNodes rubySwap replaceFn parts (s + 1)),
             (segmentNodes rubySwap replaceFn parts (s' + 1)).
    simpl in *. now rewrite IH.
  - destruct (str_eqb (replaceFn part) part).
    + specialize (IH (s + 1) (s' + 1)).
      destruct (segmentNodes rubySwap replaceFn parts (s + 1)),
               (segmentNodes rubySwap replaceFn parts (s' + 1)).
      simpl in *. now rewrite IH.
    + specialize (IH (s + 5) (s' + 5)).
      destruct (segmentNodes rubySwap replaceFn parts (s + 5)),
               (segmentNodes rubySwap replaceFn parts (s' + 5)).
      cbn [fst map] in *.
      now rewrite IH, (rendered_createTranslatedRuby s s').
Qed.

(** No element of a fragment is a wrapper or editable. *)
Lemma segmentNodes_elements (parts : list jstring) (s : nat) (e : element) :
  In e (flat_map elements (fst (segmentNodes rubySwap replaceFn parts s))) ->
  isWrapper e = false /\ el_editable e = false.
Proof.
  revert s; induction parts as [|part parts IH]; intros s; simpl; [intros []|].
  destruct (isEmpty part); [apply IH|].
  destruct (forallb isWhiteSpace part).
  - specialize (IH (s + 1)).
    destruct (segmentNodes rubySwap replaceFn parts (s + 1)). exact IH.
  - destruct (str_eqb (replaceFn part) part).
    + specialize (IH (s + 1)).
      destruct (segmentNodes rubySwap replaceFn parts (s + 1)). exact IH.
    + specialize (IH (s + 5)).
      destruct (segmentNodes rubySwap replaceFn parts (s + 5)).
      cbn [fst flat_map]. intros H. apply in_app_or in H as [H|H]; [|now apply IH].
      assert (Ho : el_original e = None /\ el_editable e = false).
      { simpl in H. destruct H as [<-|[<-|H]]; [now split | now split |].
        apply in_app_or in H as [H|H].
        - unfold textContent in H. destruct (isEmpty _); destruct H.
        - destruct H as [<-|H]; [now split|]. rewrite app_nil_r in H.
          unfold textContent in H. destruct (isEmpty _); destruct H. }
      destruct Ho as [Ho He]. split; [|exact He].
      unfold isWrapper. rewrite Ho. apply andb_false_r.
Qed.

End Fragment.

(* ================================================================= *)
(** ** Steps that work out of the document *)

Lemma locateFirst_Some (id : nat) (trees : list node) (m : node)
    (anc : list element) :
  locateFirst id trees = Some (m, anc) ->
  exists t, In t trees /\ locate id [] t = Some (m, anc).
Proof.
  induction trees as [|t trees IH]; simpl; [discriminate|].
  destruct (locate id [] t) as [r|] eqn:E.
  - intros H. injection H as ->. exists t. auto.
  - intros H. destruct (IH H) as (t' & Hin & Ht'). exists t'. auto.
Qed.

(** A node that is not in the body is found in a detached tree, with its
    ancestors. *)
Lemma locateNode_detached (d : document) (id : nat) (m : node)
    (anc : list element) :
  ~ In id (ids (body d)) ->
  locateNode d id = Some (m, anc) ->
  exists t, In t (detached d)
            /\ incl (ids m) (ids t)
            /\ forall e, In e anc -> In (el_id e) (ids t).
Proof.
  intros Hid H. unfold locateNode in H. simpl in H.
  apply (locate_None (body d) id []) in Hid. rewrite Hid in H.
  apply locateFirst_Some in H as (t & Hin & Ht).
  apply locate_Some in Ht as (_ & Hids & pre & Hanc & Hpre).
  exists t. repeat split; [exact Hin | exact Hids |].
  intros e He. subst anc. rewrite app_nil_r in He.
  apply elements_ids. now apply Hpre.
Qed.

(** The body stays and the document stays well formed when the trees out
    of the document are changed into trees of old and fresh identities. *)
Lemma wellFormed_detached (d : document) (dt' : list node)
    (orig : list (nat * jstring)) (id' : nat) (active : option nat) (font : bool) :
  wellFormed d ->
  nextId d <= id' ->
  (forall t i, In t dt' -> In i (ids t) -> detachedId d id' i) ->
  wellFormed (mkDocument (body d) dt' orig id' active font).
Proof.
  intros [Hbelow Hdisj] Hle Hdt. split; simpl.
  - intros t i [<-|Ht] Hi.
    + specialize (Hbelow (body d) i (or_introl eq_refl) Hi). lia.
    + now destruct (Hdt t i Ht Hi).
  - intros t i Ht Hi Hbody.
    destruct (Hdt t i Ht Hi) as [_ [Hfresh|(t0 & Ht0 & Hi0)]].
    + specialize (Hbelow (body d) i (or_introl eq_refl) Hbody). lia.
    + now apply (Hdisj t0 i).
Qed.

Lemma detachedId_old (d : document) (id' : nat) (t : node) (i : nat) :
  wellFormed d -> nextId d <= id' ->
  In t (detached d) -> In i (ids t) -> detachedId d id' i.
Proof.
  intros [Hbelow _] Hle Ht Hi. split.
  - specialize (Hbelow t i (or_intror Ht) Hi). lia.
  - right. eauto.
Qed.

Section DetachedSteps.

Variable rubySwap : bool.
Variable replaceFn : jstring -> jstring.

Lemma newContainer_ids (d : document) (original : jstring) :
  nextId d < snd (newContainer rubySwap replaceFn d original)
  /\ forall i, In i (ids (fst (newContainer rubySwap replaceFn d original))) ->
               nextId d <= i < snd (newContainer rubySwap replaceFn d original).
Proof.
  unfold newContainer, createSegmentedTranslationFragment.
  pose proof (segmentNodes_ids rubySwap replaceFn (splitRuns original) (nextId d + 1))
    as [Hle Hin].
  destruct (segmentNodes rubySwap replaceFn (splitRuns original) (nextId d + 1))
    as [frag id']. simpl in *. split; [lia|].
  intros i [<-|Hi]; [lia|]. apply Hin in Hi. lia.
Qed.

Lemma replaceInParent_detached (d : document) (old : nat) (new : node) (id' : nat) :
  wellFormed d ->
  ~ In old (ids (body d)) ->
  nextId d <= id' ->
  (forall i, In i (ids new) -> nextId d <= i < id') ->
  body (replaceInParent d old new id') = body d
  /\ wellFormed (replaceInParent d old new id').
Proof.
  intros Hwf Hold Hle Hnew. unfold replaceInParent.
  destruct (locateNode d old) as [[oldNode anc]|] eqn:Eloc; [|auto].
  destruct (locateNode_detached _ _ _ _ Hold Eloc) as (t & Ht & Hids & _).
  destruct (nodeId (body d) =? old) eqn:Eroot.
  { apply Nat.eqb_eq in Eroot. exfalso. apply Hold. rewrite <- Eroot.
    apply nodeId_In_ids. }
  destruct (existsb _ (detached d)).
  - split; [reflexivity|]. apply wellFormed_detached; [exact Hwf | exact Hle |].
    intros t' i Ht' Hi. now apply detachedId_old with (t := t').
  - simpl. rewrite replaceNode_notin by exact Hold. split; [reflexivity|].
    apply (wellFormed_detached d); [exact Hwf | exact Hle |].
    intros t' i Ht' Hi. apply in_app_or in Ht' as [Ht'|[<-|[]]].
    + apply in_map_iff in Ht' as (t0 & <- & Ht0).
      revert i Hi. apply ids_rewriteChildren.
      * intros ch Hch i Hi. simpl in Hi. rewrite app_nil_r in Hi.
        apply Hnew in Hi. split; [lia | left; lia].
      * intros i Hi. now apply detachedId_old with (t := t0).
    + apply detachedId_old with (t := t); auto.
Qed.

Lemma fillTranslatedContainer_detached (d : document) (w : nat) (original : jstring) :
  wellFormed d ->
  ~ In w (ids (body d)) ->
  body (fillTranslatedContainer rubySwap replaceFn d w original) = body d
  /\ wellFormed (fillTranslatedContainer rubySwap replaceFn d w original).
Proof.
  intros Hwf Hw. unfold fillTranslatedContainer.
  destruct (locateNode d w) as [[container anc]|] eqn:Eloc; [|auto].
  destruct (locateNode_detached _ _ _ _ Hw Eloc) as (t & Ht & Hids & _).
  unfold createSegmentedTranslationFragment.
  pose proof (segmentNodes_ids rubySwap replaceFn (splitRuns original) (nextId d))
    as [Hle Hin].
  destruct (segmentNodes rubySwap replaceFn (splitRuns original) (nextId d))
    as [frag id']. simpl in Hle, Hin. simpl.
  rewrite modifyNode_notin by exact Hw. split; [reflexivity|].
  apply (wellFormed_detached d); [exact Hwf | exact Hle |].
  intros t' i Ht' Hi. apply in_app_or in Ht' as [Ht'|Ht'].
  - apply in_map_iff in Ht' as (t0 & <- & Ht0).
    revert i Hi. apply ids_modifyNode.
    + intros ch Hch. apply ids_setChildNodes; [|exact Hch].
      intros i Hi. apply Hin in Hi. split; [lia | left; lia].
    + intros i Hi. now apply detachedId_old with (t := t0).
  - apply detachedId_old with (t := t); auto.
    apply Hids. apply (ids_childNodesOf container).
    apply in_flat_map. eauto.
Qed.

Lemma setNodeValue_detached (d : document) (id : nat) (v : jstring) :
  wellFormed d ->
  ~ In id (ids (body d)) ->
  body (setNodeValue d id v) = body d
  /\ wellFormed (setNodeValue d id v).
Proof.
  intros Hwf Hid. unfold setNodeValue, setTrees. simpl.
  rewrite modifyNode_notin by exact Hid. split; [reflexivity|].
  apply (wellFormed_detached d); [exact Hwf | lia |].
  intros t' i Ht' Hi. apply in_map_iff in Ht' as (t0 & <- & Ht0).
  revert i Hi. apply ids_modifyNode.
  - intros ch Hch i Hi. apply Hch. destruct ch; exact Hi.
  - intros i Hi. now apply detachedId_old with (t := t0).
Qed.

Lemma wellFormed_ensureDefaultFontStyle (d : document) :
  wellFormed d -> wellFormed (ensureDefaultFontStyle d).
Proof. intros H. exact H. Qed.

Lemma wellFormed_rememberOriginal (d : document) (id : nat) (o : jstring) :
  wellFormed d -> wellFormed (rememberOriginal d id o).
Proof. intros H. exact H. Qed.

End DetachedSteps.

Section PassOverWrapper.

Variable rubySwap : bool.
Variable replaceFn : jstring -> jstring.

Let step := translateTextNode rubySwap replaceFn.

(** The step on a text node that is not in the body leaves the body as it
    is: whatever it does, it does out of the document. *)
Lemma translateTextNode_detached (p : pass) (textNode : nat) :
  wellFormed (doc p) ->
  ~ In textNode (ids (body (doc p))) ->
  body (doc (step p textNode)) = body (doc p)
  /\ wellFormed (doc (step p textNode))
  /\ (forall w, In w (processedWrappers (step p textNode)) ->
                In w (processedWrappers p) \/ ~ In w (ids (body (doc p)))).
Proof.
  intros Hwf Hid. unfold step, translateTextNode.
  destruct (locateNode (doc p) textNode) as [[[i current|] ancestors]|] eqn:Eloc;
    auto.
  destruct (locateNode_detached _ _ _ _ Hid Eloc) as (t & Ht & _ & Hanc).
  assert (Hbelow : forall i, In i (ids (body (doc p))) -> i < nextId (doc p)).
  { intros j Hj. destruct Hwf as [Hb _]. apply (Hb (body (doc p))); simpl; auto. }
  assert (Hdisj : forall e, In e ancestors -> ~ In (el_id e) (ids (body (doc p)))).
  { intros e He. destruct Hwf as [_ Hd]. apply (Hd t); auto. }
  destruct (shouldIgnoreTextNode (doc p) ancestors); auto.
  destruct (isEmpty current || _); auto.
  destruct (closest isWrapper ancestors) as [wrapper|] eqn:Ew.
  - apply closest_Some in Ew as [Hin _]. apply Hdisj in Hin.
    destruct (existsb _ (processedWrappers p)); auto.
    destruct (str_eqb (el_tagName wrapper) RUBY).
    + pose proof (newContainer_ids rubySwap replaceFn (doc p)
                    (match el_original wrapper with Some o => o | None => [] end))
        as [Hlt Hids].
      destruct (newContainer rubySwap replaceFn (doc p) _) as [container id'].
      cbn [fst snd] in Hlt, Hids. cbn [doc countChange processedWrappers].
      destruct (replaceInParent_detached (ensureDefaultFontStyle (doc p))
                  (el_id wrapper) container id') as [Hb Hw];
        [exact Hwf | exact Hin | simpl; lia | exact Hids |].
      split; [exact Hb | split; [exact Hw|]].
      intros w [<-|Hw']; [|now left]. right. intros Hc. apply Hbelow in Hc.
      specialize (Hids (nodeId container) (nodeId_In_ids container)). lia.
    + cbn [doc countChange processedWrappers].
      destruct (fillTranslatedContainer_detached rubySwap replaceFn
                  (ensureDefaultFontStyle (doc p)) (el_id wrapper)
                  (match el_original wrapper with Some o => o | None => [] end))
        as [Hb Hw]; [exact Hwf | exact Hin |].
      split; [exact Hb | split; [exact Hw|]].
      intros w [<-|Hw']; [now right | now left].
  - destruct (str_eqb _ current); auto.
    destruct ancestors as [|parent ancestors]; auto.
    destruct (canWrapWithSpan parent).
    + pose proof (newContainer_ids rubySwap replaceFn
                    (ensureDefaultFontStyle (doc p))
                    (match weak_get (ORIGINAL_TEXT_BY_NODE (doc p)) textNode with
                     | Some o => o
                     | None => current
                     end)) as [Hlt Hids].
      destruct (newContainer rubySwap replaceFn (ensureDefaultFontStyle (doc p)) _)
        as [container id'].
      cbn [fst snd] in Hlt, Hids. cbn [doc countChange processedWrappers].
      destruct (replaceInParent_detached (ensureDefaultFontStyle (doc p))
                  textNode container id') as [Hb Hw];
        [exact Hwf | exact Hid | simpl in *; lia | exact Hids |].
      split; [exact Hb | split; [exact Hw | now left]].
    + cbn [doc countChange processedWrappers].
      destruct (weak_has _ textNode).
      * destruct (setNodeValue_detached (doc p) textNode
                    (replaceFn (match weak_get (ORIGINAL_TEXT_BY_NODE (doc p)) textNode with
                                | Some o => o
                                | None => current
                                end))) as [Hb Hw]; [exact Hwf | exact Hid |].
        split; [exact Hb | split; [exact Hw | now left]].
      * destruct (setNodeValue_detached
                    (rememberOriginal (doc p) textNode
                       (match weak_get (ORIGINAL_TEXT_BY_NODE (doc p)) textNode with
                        | Some o => o
                        | None => current
                        end)) textNode
                    (replaceFn (match weak_get (ORIGINAL_TEXT_BY_NODE (doc p)) textNode with
                                | Some o => o
                                | None => current
                                end))) as [Hb Hw]; [exact Hwf | exact Hid |].
        split; [exact Hb | split; [exact Hw | now left]].
Qed.

End PassOverWrapper.

Lemma closest_app (sel : element -> bool) (pre l : list element) :
  (forall e, In e pre -> sel e = false) ->
  closest sel (pre ++ l) = closest sel l.
Proof.
  induction pre as [|x pre IH]; intros H; [reflexivity|]. simpl.
  rewrite (H x) by now left. apply IH. intros e He. apply H. now right.
Qed.

Lemma locateIn_Some (l : list node) (id : nat) (anc : list element) (m : node)
    (anc' : list element) :
  locateIn id anc l = Some (m, anc') ->
  nodeId m = id
  /\ incl (ids m) (flat_map ids l)
  /\ exists pre, anc' = pre ++ anc /\ incl pre (flat_map elements l).
Proof.
  induction l as [|ch l IH]; simpl; [discriminate|].
  destruct (locate id anc ch) as [r|] eqn:E.
  - intros H. injection H as ->.
    apply locate_Some in E as (Hid & Hids & pre & Hanc & Hpre).
    split; [exact Hid|]. split; [now apply incl_appl|].
    exists pre. split; [exact Hanc | now apply incl_appl].
  - intros H. destruct (IH H) as (Hid & Hids & pre & Hanc & Hpre).
    split; [exact Hid|]. split; [now apply incl_appr|].
    exists pre. split; [exact Hanc | now apply incl_appr].
Qed.

Section WrappedParagraph.

Variable rubySwap : bool.
Variable replaceFn : jstring -> jstring.
Variable original : jstring.

Let step := translateTextNode rubySwap replaceFn.
Let fragment (s : nat) : list node :=
  fst (createSegmentedTranslationFragment rubySwap replaceFn original s).

Let theWrapper : element :=
  mkElement 3 SPAN [OKECHIKA_TRANSLATED] (Some original) false.
Let theParagraph : element := mkElement 1 (js "P") [] None false.
Let theBody : element := mkElement 0 (js "BODY") [] None false.

Lemma ids_wrappedParagraph (s : nat) :
  ids (wrappedParagraph rubySwap replaceFn original s)
  = 0 :: 1 :: 3 :: flat_map ids (fragment s).
Proof. unfold wrappedParagraph. simpl. now rewrite !app_nil_r. Qed.

Lemma fragment_ids (s i : nat) :
  In i (flat_map ids (fragment s)) ->
  s <= i < snd (createSegmentedTranslationFragment rubySwap replaceFn original s).
Proof.
  unfold fragment, createSegmentedTranslationFragment.
  apply (segmentNodes_ids rubySwap replaceFn (splitRuns original) s).
Qed.

(** What the step finds for a node of the wrapped paragraph: an element,
    or a text node of the fragment whose wrapper is the wrapper of the
    paragraph and which has no editable ancestor. *)
Lemma locate_wrappedParagraph (s id : nat) (m : node) (anc : list element) :
  locate id [] (wrappedParagraph rubySwap replaceFn original s) = Some (m, anc) ->
  (exists i t c o e cs, m = Element i t c o e cs)
  \/ (closest isWrapper anc = Some theWrapper
      /\ closest el_editable anc = None
      /\ anc <> []).
Proof.
  unfold wrappedParagraph. rewrite locate_Element.
  destruct (0 =? id); [intros H; injection H as <- <-; left; now eexists _, _, _, _, _, _|].
  cbn [locateIn]. rewrite locate_Element.
  destruct (1 =? id); [intros H; injection H as <- <-; left; now eexists _, _, _, _, _, _|].
  cbn [locateIn]. rewrite locate_Element.
  destruct (3 =? id); [intros H; injection H as <- <-; left; now eexists _, _, _, _, _, _|].
  fold theWrapper theParagraph theBody.
  destruct (locateIn id [theWrapper; theParagraph; theBody] _) as [[m' anc']|] eqn:E;
    [|discriminate].
  intros H. injection H as -> ->.
  apply locateIn_Some in E as (_ & _ & pre & -> & Hpre).
  right.
  assert (Hplain : forall e, In e pre -> isWrapper e = false /\ el_editable e = false).
  { intros e He. apply Hpre in He.
    now apply (segmentNodes_elements rubySwap replaceFn (splitRuns original) s). }
  repeat split.
  - rewrite closest_app by (intros e He; now apply Hplain). reflexivity.
  - rewrite closest_app by (intros e He; now apply Hplain). reflexivity.
  - destruct pre; discriminate.
Qed.

(** The refill of the wrapper of the paragraph. *)
Lemma fillTranslatedContainer_wrappedParagraph (d : document) (s : nat) :
  body d = wrappedParagraph rubySwap replaceFn original s ->
  3 < s ->
  wellFormed d ->
  body (fillTranslatedContainer rubySwap replaceFn d 3 original)
  = wrappedParagraph rubySwap replaceFn original (nextId d)
  /\ wellFormed (fillTranslatedContainer rubySwap replaceFn d 3 original).
Proof.
  intros Hbody Hs Hwf. unfold fillTranslatedContainer, locateNode.
  cbn [locateFirst]. rewrite Hbody.
  assert (Hloc : locate 3 [] (wrappedParagraph rubySwap replaceFn original s)
                 = Some (Element 3 SPAN [OKECHIKA_TRANSLATED] (Some original) false
                           (fragment s), [theParagraph; theBody]))
    by reflexivity.
  rewrite Hloc. cbn [childNodesOf]. unfold fragment at 1.
  pose proof (fragment_ids (nextId d)) as Hnew.
  pose proof (fragment_ids s) as Hold.
  assert (Hle : nextId d
                <= snd (createSegmentedTranslationFragment rubySwap replaceFn
                          original (nextId d))).
  { unfold createSegmentedTranslationFragment.
    exact (proj1 (segmentNodes_ids rubySwap replaceFn (splitRuns original) (nextId d))). }
  unfold fragment in Hnew, Hold.
  destruct (createSegmentedTranslationFragment rubySwap replaceFn original (nextId d))
    as [frag id'] eqn:Efrag.
  cbn [fst snd] in Hnew, Hle.
  assert (Hbody' : modifyNode 3 (setChildNodes frag)
                     (wrappedParagraph rubySwap replaceFn original s)
                   = wrappedParagraph rubySwap replaceFn original (nextId d)).
  { unfold wrappedParagraph. rewrite Efrag. reflexivity. }
  cbn [body]. split; [exact Hbody'|].
  destruct Hwf as [Hbelow Hdisj].
  assert (Hb : forall i, In i (ids (body d)) -> i < nextId d).
  { intros i Hi. apply (Hbelow (body d)); simpl; auto. }
  assert (H3 : In 3 (ids (body d))).
  { rewrite Hbody, ids_wrappedParagraph. simpl. auto. }
  assert (Hkeep : forall t, In t (detached d) ->
                            modifyNode 3 (setChildNodes frag) t = t).
  { intros t Ht. apply modifyNode_notin. intros Hc. now apply (Hdisj t 3). }
  assert (Hmap : map (modifyNode 3 (setChildNodes frag)) (detached d) = detached d).
  { rewrite <- (map_id (detached d)) at 2. apply map_ext_in. exact Hkeep. }
  rewrite Hmap, Hbody'.
  assert (Hfragold : forall t i,
             In t (fst (createSegmentedTranslationFragment rubySwap replaceFn original s)) ->
             In i (ids t) -> s <= i /\ In i (ids (body d))).
  { intros t i Ht Hi.
    assert (Hin : In i (flat_map ids
              (fst (createSegmentedTranslationFragment rubySwap replaceFn original s)))).
    { apply in_flat_map. eauto. }
    split; [apply Hold in Hin; lia|].
    rewrite Hbody, ids_wrappedParagraph. simpl. auto. }
  split; cbn [body detached nextId].
  - intros t i [<-|Ht] Hi.
    + rewrite ids_wrappedParagraph in Hi. unfold fragment in Hi. rewrite Efrag in Hi.
      cbn [fst] in Hi. specialize (Hb 3 H3).
      destruct Hi as [<-|[<-|[<-|Hi]]]; try lia. apply Hnew in Hi. lia.
    + apply in_app_or in Ht as [Ht|Ht].
      * specialize (Hbelow t i (or_intror Ht) Hi). lia.
      * destruct (Hfragold t i Ht Hi) as [_ Hin]. apply Hb in Hin. lia.
  - intros t i Ht Hi Hc.
    rewrite ids_wrappedParagraph in Hc. unfold fragment in Hc. rewrite Efrag in Hc.
    cbn [fst] in Hc.
    apply in_app_or in Ht as [Ht|Ht].
    + assert (Hnot : ~ In i (ids (body d))) by now apply (Hdisj t).
      assert (Hlt : i < nextId d) by (apply (Hbelow t); simpl; auto).
      rewrite Hbody, ids_wrappedParagraph in Hnot. simpl in Hnot.
      destruct Hc as [<-|[<-|[<-|Hc]]]; try tauto. apply Hnew in Hc. lia.
    + destruct (Hfragold t i Ht Hi) as [Hsi Hin]. apply Hb in Hin.
      destruct Hc as [<-|[<-|[<-|Hc]]]; try lia. apply Hnew in Hc. lia.
Qed.

End WrappedParagraph.

Section PassOverParagraph.

Variable rubySwap : bool.
Variable replaceFn : jstring -> jstring.

Let step := translateTextNode rubySwap replaceFn.

(** The counter of identities never goes back. *)
Lemma translateTextNode_nextId (p : pass) (textNode : nat) :
  nextId (doc p) <= nextId (doc (step p textNode)).
Proof.
  unfold step, translateTextNode.
  destruct (locateNode (doc p) textNode) as [[[i current|] ancestors]|]; auto.
  destruct (shouldIgnoreTextNode (doc p) ancestors); auto.
  destruct (isEmpty current || _); auto.
  destruct (closest isWrapper ancestors) as [wrapper|].
  - destruct (existsb _ (processedWrappers p)); auto.
    destruct (str_eqb (el_tagName wrapper) RUBY).
    + pose proof (newContainer_ids rubySwap replaceFn (doc p)
                    (match el_original wrapper with Some o => o | None => [] end))
        as [Hlt _].
      destruct (newContainer rubySwap replaceFn (doc p) _) as [container id'].
      cbn [fst snd doc countChange] in *. unfold replaceInParent.
      destruct (locateNode _ (el_id wrapper)) as [[old ?]|]; [|simpl; lia].
      destruct (nodeId _ =? el_id wrapper); [simpl; lia|].
      destruct (existsb _ _); simpl; lia.
    + cbn [doc countChange]. unfold fillTranslatedContainer.
      destruct (locateNode _ (el_id wrapper)) as [[container ?]|]; [|simpl; lia].
      unfold createSegmentedTranslationFragment.
      pose proof (proj1 (segmentNodes_ids rubySwap replaceFn
                    (splitRuns (match el_original wrapper with Some o => o | None => [] end))
                    (nextId (ensureDefaultFontStyle (doc p))))) as Hle.
      destruct (segmentNodes rubySwap replaceFn _ _) as [frag id'].
      simpl in *. lia.
  - destruct (str_eqb _ current); auto.
    destruct ancestors as [|parent ancestors]; auto.
    destruct (canWrapWithSpan parent).
    + pose proof (newContainer_ids rubySwap replaceFn
                    (ensureDefaultFontStyle (doc p))
                    (match weak_get (ORIGINAL_TEXT_BY_NODE (doc p)) textNode with
                     | Some o => o
                     | None => current
                     end)) as [Hlt _].
      destruct (newContainer rubySwap replaceFn (ensureDefaultFontStyle (doc p)) _)
        as [container id'].
      cbn [fst snd doc countChange] in *. unfold replaceInParent.
      destruct (locateNode _ textNode) as [[old ?]|]; [|simpl in *; lia].
      destruct (nodeId _ =? textNode); [simpl in *; lia|].
      destruct (existsb _ _); simpl in *; lia.
    + cbn [doc countChange]. destruct (weak_has _ textNode); simpl; lia.
Qed.

Variable original : jstring.

(** The step on a node of the wrapped paragraph changes nothing, or
    refills the wrapper from the original it stores. *)
Lemma translateTextNode_wrappedParagraph (p : pass) (s textNode : nat) :
  body (doc p) = wrappedParagraph rubySwap replaceFn original s ->
  3 < s ->
  wellFormed (doc p) ->
  In textNode (ids (body (doc p))) ->
  step p textNode = p
  \/ (body (doc (step p textNode))
      = wrappedParagraph rubySwap replaceFn original (nextId (doc p))
      /\ wellFormed (doc (step p textNode))).
Proof.
  intros Hbody Hs Hwf Hin. unfold step, translateTextNode, locateNode.
  cbn [locateFirst].
  destruct (locate textNode [] (body (doc p))) as [[m anc]|] eqn:Eloc.
  2:{ apply locate_None in Eloc. contradiction. }
  rewrite Hbody in Eloc.
  apply locate_wrappedParagraph in Eloc
    as [(i & t & c & o & e & cs & ->)|(Hw & He & Hanc)]; [now left|].
  destruct m as [i current|]; [|now left].
  destruct (shouldIgnoreTextNode (doc p) anc); [now left|].
  destruct (isEmpty current || _); [now left|].
  rewrite Hw. cbn [el_id el_original el_tagName].
  destruct (existsb _ (processedWrappers p)); [now left|].
  assert (Etag : str_eqb SPAN RUBY = false) by reflexivity.
  rewrite Etag. right. cbn [doc countChange].
  apply (fillTranslatedContainer_wrappedParagraph rubySwap replaceFn original
           (ensureDefaultFontStyle (doc p)) s); assumption.
Qed.

(** A pass over the wrapped paragraph leaves a wrapped paragraph: the
    nodes it visits are of the body until the wrapper is refilled, and
    out of it from then on. *)
Lemma fold_wrappedParagraph (l : list nat) :
  forall (p : pass) (s : nat),
    body (doc p) = wrappedParagraph rubySwap replaceFn original s ->
    3 < s ->
    wellFormed (doc p) ->
    (forall j, In j l -> 3 < j < nextId (doc p))
    \/ (forall j, In j l -> ~ In j (ids (body (doc p)))) ->
    exists s',
      body (doc (fold_left step l p)) = wrappedParagraph rubySwap replaceFn original s'
      /\ 3 < s'
      /\ wellFormed (doc (fold_left step l p)).
Proof.
  induction l as [|i l IH]; intros p s Hbody Hs Hwf Hl; [now exists s|].
  cbn [fold_left].
  assert (H3 : 3 < nextId (doc p)).
  { destruct Hwf as [Hb _]. apply (Hb (body (doc p))); [now left|].
    rewrite Hbody, ids_wrappedParagraph. simpl. auto. }
  assert (Hout : ~ In i (ids (body (doc p))) ->
            exists s', body (doc (fold_left step l (step p i)))
                       = wrappedParagraph rubySwap replaceFn original s'
                       /\ 3 < s' /\ wellFormed (doc (fold_left step l (step p i)))).
  { intros Hi.
    destruct (translateTextNode_detached rubySwap replaceFn p i Hwf Hi)
      as (Hb & Hw & _).
    fold step in Hb, Hw.
    apply (IH (step p i) s); [now rewrite Hb | exact Hs | exact Hw |].
    rewrite Hb.
    destruct Hl as [Hl|Hl]; [left | right; intros j Hj; apply Hl; now right].
    intros j Hj. specialize (Hl j (or_intror Hj)).
    pose proof (translateTextNode_nextId p i). lia. }
  destruct (in_dec Nat.eq_dec i (ids (body (doc p)))) as [Hi|Hi]; [|now apply Hout].
  destruct Hl as [Hl|Hl]; [|exfalso; apply (Hl i); [now left | exact Hi]].
  destruct (translateTextNode_wrappedParagraph p s i Hbody Hs Hwf Hi)
    as [E|[Hb Hw]].
  - rewrite E. apply (IH p s); auto. left. intros j Hj. apply Hl. now right.
  - apply (IH (step p i) (nextId (doc p))); [exact Hb | exact H3 | exact Hw |].
    right. intros j Hj. rewrite Hb, ids_wrappedParagraph.
    specialize (Hl j (or_intror Hj)).
    intros [<-|[<-|[<-|Hc]]]; try lia.
    apply (segmentNodes_ids rubySwap replaceFn (splitRuns original)) in Hc. lia.
Qed.

Lemma textNodes_ids (n : node) : incl (textNodes n) (ids n).
Proof.
  induction n as [i v|i t c o e cs IH] using node_induction; [apply incl_refl|].
  simpl. apply incl_tl.
  induction IH as [|ch cs Hch Hcs IHcs]; [apply incl_refl|].
  simpl. apply incl_app; [now apply incl_appl | now apply incl_appr].
Qed.

(** [translateRoot] from the body of a wrapped paragraph. *)
Lemma translateRoot_wrappedParagraph (d : document) (s : nat) :
  body d = wrappedParagraph rubySwap replaceFn original s ->
  3 < s ->
  wellFormed d ->
  exists s',
    body (doc (translateRoot rubySwap replaceFn d 0))
    = wrappedParagraph rubySwap replaceFn original s'
    /\ 3 < s'
    /\ wellFormed (doc (translateRoot rubySwap replaceFn d 0)).
Proof.
  intros Hbody Hs Hwf. unfold translateRoot, locateNode. cbn [locateFirst].
  rewrite Hbody.
  assert (Hloc : locate 0 [] (wrappedParagraph rubySwap replaceFn original s)
                 = Some (wrappedParagraph rubySwap replaceFn original s, []))
    by reflexivity.
  rewrite Hloc.
  apply (fold_wrappedParagraph _ (mkPass d 0 [] []) s); try assumption.
  left. intros j Hj. cbn [doc].
  assert (Hjs : In j (flat_map ids
            (fst (createSegmentedTranslationFragment rubySwap replaceFn original s)))).
  { unfold wrappedParagraph, walkTextNodes in Hj. simpl in Hj.
    rewrite !app_nil_r in Hj.
    apply in_flat_map in Hj as (ch & Hch & Hj).
    apply in_flat_map. exists ch. split; [exact Hch | now apply textNodes_ids]. }
  split.
  - apply (segmentNodes_ids rubySwap replaceFn (splitRuns original)) in Hjs. lia.
  - destruct Hwf as [Hb _]. apply (Hb (body d)); [now left|].
    rewrite Hbody, ids_wrappedParagraph. simpl. auto.
Qed.

End PassOverParagraph.

Section ParagraphPasses.

Variable rubySwap : bool.
Variable replaceFn : jstring -> jstring.
Variable original : jstring.

Let pass (d : document) : document := doc (translateRoot rubySwap replaceFn d 0).

(** The first pass over the paragraph leaves it as it is, or wraps its
    text. *)
Lemma first_pass_paragraph :
  pass (paragraph original) = paragraph original
  \/ (body (pass (paragraph original))
      = wrappedParagraph rubySwap replaceFn original 4
      /\ wellFormed (pass (paragraph original))).
Proof.
  unfold pass, translateRoot.
  assert (Hroot : locateNode (paragraph original) 0
                  = Some (body (paragraph original), [])) by reflexivity.
  rewrite Hroot. cbn [body paragraph walkTextNodes flat_map textNodes app fold_left].
  unfold translateTextNode. cbn [doc].
  assert (Htext : locateNode (paragraph original) 2
                  = Some (Text 2 original,
                          [mkElement 1 (js "P") [] None false;
                           mkElement 0 (js "BODY") [] None false])) by reflexivity.
  fold (paragraph original). rewrite Htext.
  assert (Hign : shouldIgnoreTextNode (paragraph original)
                   [mkElement 1 (js "P") [] None false;
                    mkElement 0 (js "BODY") [] None false] = false) by reflexivity.
  rewrite Hign.
  destruct (isEmpty original || _); [now left|].
  assert (Hwrap : closest isWrapper
                    [mkElement 1 (js "P") [] None false;
                     mkElement 0 (js "BODY") [] None false] = None) by reflexivity.
  rewrite Hwrap. cbn [ORIGINAL_TEXT_BY_NODE paragraph weak_get].
  destruct (str_eqb (replaceFn original) original); [now left|].
  assert (Hcan : canWrapWithSpan (mkElement 1 (js "P") [] None false) = true)
    by reflexivity.
  rewrite Hcan. right.
  pose proof (newContainer_ids rubySwap replaceFn
                (ensureDefaultFontStyle (paragraph original)) original) as [Hlt Hids].
  unfold newContainer in *. cbn [nextId ensureDefaultFontStyle paragraph] in *.
  pose proof (segmentNodes_ids rubySwap replaceFn (splitRuns original) 4) as [Hle Hfrag].
  unfold createSegmentedTranslationFragment in *.
  change (3 + 1) with 4 in *.
  destruct (segmentNodes rubySwap replaceFn (splitRuns original) 4) as [frag id'] eqn:E.
  cbn [fst snd] in *. cbn [doc countChange].
  assert (Hrep : replaceInParent (ensureDefaultFontStyle (paragraph original)) 2
                   (Element 3 SPAN [OKECHIKA_TRANSLATED] (Some original) false frag) id'
                 = mkDocument
                     (Element 0 (js "BODY") [] None false
                        [Element 1 (js "P") [] None false
                           [Element 3 SPAN [OKECHIKA_TRANSLATED] (Some original) false frag]])
                     [Text 2 original] [] id' None true) by reflexivity.
  rewrite Hrep. cbn [body]. split.
  - unfold wrappedParagraph, createSegmentedTranslationFragment. now rewrite E.
  - split; cbn [body detached nextId].
    + intros t i [<-|[<-|[]]] Hi.
      * simpl in Hi. rewrite !app_nil_r in Hi.
        destruct Hi as [<-|[<-|[<-|Hi]]]; try lia. apply Hfrag in Hi. lia.
      * destruct Hi as [<-|[]]. lia.
    + intros t i [<-|[]] [<-|[]] Hc. simpl in Hc. rewrite !app_nil_r in Hc.
      destruct Hc as [Hc|[Hc|[Hc|Hc]]]; try discriminate.
      apply Hfrag in Hc. lia.
Qed.

Lemma rendered_wrappedParagraph (s s' : nat) :
  rendered (wrappedParagraph rubySwap replaceFn original s)
  = rendered (wrappedParagraph rubySwap replaceFn original s').
Proof.
  unfold wrappedParagraph, createSegmentedTranslationFragment. simpl.
  now rewrite (segmentNodes_rendered rubySwap replaceFn (splitRuns original) s s').
Qed.

(** Idempotence of the rendering: on the page of one paragraph, for every
    text, every replacer and either orientation of the ruby, any number of
    passes after the first leaves the document rendered as the first did.
    The wrapper is refilled each time from the original that it stores. *)
Lemma paragraph_rendering_stable (n : nat) :
  rendered (body (Nat.iter n pass (pass (paragraph original))))
  = rendered (body (pass (paragraph original))).
Proof.
  destruct first_pass_paragraph as [E|[Hbody Hwf]].
  - rewrite E.
    assert (Hit : Nat.iter n pass (paragraph original) = paragraph original).
    { induction n as [|n IHn]; [reflexivity|]. simpl. now rewrite IHn. }
    now rewrite Hit.
  - assert (Hinv : exists s,
              body (Nat.iter n pass (pass (paragraph original)))
              = wrappedParagraph rubySwap replaceFn original s
              /\ 3 < s
              /\ wellFormed (Nat.iter n pass (pass (paragraph original)))).
    { induction n as [|n IH].
      - exists 4. simpl. repeat split; [exact Hbody | lia | apply Hwf | apply Hwf].
      - destruct IH as (s & Hb & Hs & Hw). simpl.
        now apply translateRoot_wrappedParagraph with (s := s). }
    destruct Hinv as (s & Hb & _ & _).
    rewrite Hb, Hbody. apply rendered_wrappedParagraph.
Qed.

End ParagraphPasses.

(* ================================================================= *)
(** ** DOM Rewriting Engine: pass after pass *)

(** C1, on the page whose paragraph reads A A, with the mapping A -> B,
    B -> C.  The first pass wraps the text and stores A A as the original;
    the second pass refills the wrapper from that original and renders
    what the first rendered.  But the refill detaches the nodes that the
    wrapper held, the loop still visits them, and the base text of the
    second ruby, which reads B and no longer has the wrapper among its
    ancestors, is taken for an untranslated text: it goes through the
    replacer and is wrapped, out of the document, as B -> C.  The pass
    counts two changes and reports the sample B, C. *)
Theorem second_pass_refeeds_translated_text :
  let replaceFn := replacerOf [(js "A", js "B"); (js "B", js "C")] in
  let first := translateRoot false replaceFn (paragraph (js "A A")) 0 in
  let second := translateRoot false replaceFn (doc first) 0 in
  changedNodes first = 1
  /\ samples first = [(js "A A", js "B B")]
  /\ rendered (body (doc second)) = rendered (body (doc first))
  /\ changedNodes second = 2
  /\ samples second = [(js "A A", js "B B"); (js "B", js "C")]
  /\ In (Element 10 RUBY [] None false
           [Element 11 SPAN [OKECHIKA_TRANSLATED_BASE] None false
              [Element 26 SPAN [OKECHIKA_TRANSLATED] (Some (js "B")) false
                 [Element 27 RUBY [] None false
                    [Element 28 SPAN [OKECHIKA_TRANSLATED_BASE] None false
                       [Text 29 (js "C")];
                     Element 30 RT [] None false [Text 31 (js "B")]]]];
            Element 13 RT [] None false [Text 14 (js "A")]])
        (detached (doc second)).
Proof.
  vm_compute. repeat split; try reflexivity. intuition.
Qed.

(* ================================================================= *)
(** ** Mutation Tracker *)

(** [isInsideTranslated] decides [insideTranslated]. *)
Lemma isInsideTranslated_spec (d : document) (node : nat) :
  isInsideTranslated d node = true <-> insideTranslated d node.
Proof.
  unfold isInsideTranslated, insideTranslated.
  destruct (locateNode d node) as [[n anc]|].
  - destruct (elementChain n anc) as [|el chain] eqn:Ec.
    + split; [discriminate|]. intros (n' & anc' & e & H & Hin & _).
      injection H as <- <-. rewrite Ec in Hin. destruct Hin.
    + destruct (has (el_classList el) OKECHIKA_TRANSLATED) eqn:Eh.
      * split; [|reflexivity]. intros _. exists n, anc, el.
        rewrite Ec. repeat split; [now left | exact Eh].
      * destruct (closest _ (el :: chain)) as [e|] eqn:E.
        -- apply closest_Some in E as [Hin He]. split; [|reflexivity].
           intros _. exists n, anc, e. rewrite Ec. auto.
        -- split; [discriminate|]. intros (n' & anc' & e & H & Hin & He).
           injection H as <- <-. rewrite Ec in Hin.
           rewrite closest_None in E. rewrite (E e Hin) in He. discriminate.
  - split; [discriminate|]. intros (n & anc & e & H & _). discriminate.
Qed.

Lemma observeAdded_inside (d : document) (pending : list nat) (node : nat) :
  insideTranslated d node -> observeAdded d pending node = pending.
Proof.
  intros H. apply isInsideTranslated_spec in H. unfold observeAdded.
  now rewrite H.
Qed.

Lemma observeMutation_inside (d : document) (pending : list nat)
    (m : mutationRecord) :
  mutationInsideTranslated d m -> observeMutation d pending m = pending.
Proof.
  destruct m as [target|addedNodes]; simpl; intros H.
  - apply isInsideTranslated_spec in H. rewrite H.
    destruct (locateNode d target) as [[[? ?|? ? ? ? ? ?] ?]|]; reflexivity.
  - induction H as [|node nodes Hnode Hnodes IH]; [reflexivity|].
    simpl. now rewrite observeAdded_inside.
Qed.

(** Records all of whose nodes lie, when the callback runs, inside a
    structure that the engine produced add nothing to the pending set,
    whatever else the batch holds. *)
Lemma nodes_inside_translated_add_nothing (enabled : bool) (d : document)
    (t : tracker) :
  (forall mutations,
     Forall (mutationInsideTranslated d) mutations ->
     pendingRoots (observerCallback enabled d t mutations) = pendingRoots t)
  /\
  (forall before after m,
     mutationInsideTranslated d m ->
     fold_left (observeMutation d) (before ++ m :: after) (pendingRoots t)
     = fold_left (observeMutation d) (before ++ after) (pendingRoots t)).
Proof.
  split.
  - intros mutations H. unfold observerCallback.
    destruct (isApplying t); [reflexivity|].
    assert (E : fold_left (observeMutation d) mutations (pendingRoots t)
                = pendingRoots t).
    { generalize (pendingRoots t). induction H as [|m ms Hm Hms IH];
        intros pending; [reflexivity|].
      simpl. rewrite observeMutation_inside by exact Hm. apply IH. }
    destruct (negb enabled); simpl; exact E.
  - intros before after m Hm. rewrite !fold_left_app. simpl.
    now rewrite observeMutation_inside.
Qed.

(** C9: the engine's own mutations inside a wrapper that it produced reach
    the pending set and schedule a pass.  The paragraph reads A x, A is
    mapped to B, and the first pass has wrapped the text in the wrapper 3.
    The page then appends the paragraph again and a text node that is out
    of the document when the callback runs: the callback leaves the body
    and the paragraph pending.  The microtask drains them and runs
    [translateRoot] at the body and then at the paragraph (the page has no
    form field and no shadow root); each pass refills the wrapper, the
    second taking out of the document what the first had put there, and
    the microtask ends with [isApplying] cleared.  The records of the two
    refills, whose target is the wrapper, are delivered then (three
    removals and one addition each): the callback does not return at its
    test of [isApplying], it finds the ruby 11 and the text nodes 16 and
    17 of the first refill outside every translated structure, leaves the
    ruby and the body pending and schedules a pass; the microtask of
    that pass changes nothing at the ruby and, at the body, refills the
    wrapper once more. *)
Theorem self_mutations_reach_the_pending_set :
  let replaceFn := replacerOf [(js "A", js "B")] in
  let wrapped := doc (translateRoot false replaceFn (paragraph (js "A x")) 0) in
  let idle := mkTracker false [] false in
  let atBody := doc (translateRoot false replaceFn wrapped 0) in
  let atParagraph := doc (translateRoot false replaceFn atBody 1) in
  let refills :=
    [ChildList []; ChildList []; ChildList []; ChildList [11; 16; 17];
     ChildList []; ChildList []; ChildList []; ChildList [18; 23; 24]] in
  observerCallback true wrapped idle [ChildList [2]; ChildList [1]]
  = mkTracker true [0; 1] false
  /\ isInsideTranslated wrapped 0 = false
  /\ isInsideTranslated atBody 1 = false
  /\ isInsideTranslated atParagraph 3 = true
  /\ observerCallback true atParagraph idle refills = mkTracker true [11; 0] false
  /\ changedNodes (translateRoot false replaceFn atParagraph 11) = 0
  /\ changedNodes
       (translateRoot false replaceFn
          (doc (translateRoot false replaceFn atParagraph 11)) 0) = 1.
Proof.
  cbv zeta. repeat split; vm_compute; reflexivity.
Qed.

(* ================================================================= *)
(** ** Tabular Parser: written tables, empty rows and blank texts *)

Lemma fold_consChar (cell f : jstring) (r : list jstring) (t : table) :
  fold_right consChar ((f :: r) :: t) cell = ((cell ++ f) :: r) :: t.
Proof. induction cell as [|c cell IH]; [reflexivity|]. simpl. now rewrite IH. Qed.

(** A cell that holds no quote, comma or line break is read as it is
    written; a quoted cell is read with its doubled quotes undone. *)
Lemma readTable_plain (cell rest : jstring) :
  existsb isDelimiter cell = false ->
  readTable false (cell ++ rest) = fold_right consChar (readTable false rest) cell.
Proof.
  induction cell as [|c cell IH]; intros H; [reflexivity|].
  simpl in H. apply orb_false_iff in H as [Hc H].
  unfold isDelimiter in Hc.
  apply orb_false_iff in Hc as [Hc HLF].
  apply orb_false_iff in Hc as [Hc HCR].
  apply orb_false_iff in Hc as [HQ HCO].
  simpl app. cbn [readTable fold_right]. rewrite HQ, HCO, HCR, HLF.
  now rewrite IH.
Qed.

Lemma readTable_quoted (cell rest : jstring) :
  match rest with c :: _ => (c =? QUOTE)%N = false | [] => True end ->
  readTable true
    (flat_map (fun c => if (c =? QUOTE)%N then [QUOTE; QUOTE] else [c]) cell
     ++ QUOTE :: rest)
  = fold_right consChar (readTable false rest) cell.
Proof.
  intros Hrest. induction cell as [|c cell IH].
  - simpl flat_map. simpl app. cbn [readTable]. rewrite N.eqb_refl.
    destruct rest as [|c' rest']; [reflexivity|]. now rewrite Hrest.
  - cbn [flat_map fold_right]. destruct (c =? QUOTE)%N eqn:E.
    + apply N.eqb_eq in E. subst c. simpl app. cbn [readTable].
      rewrite !N.eqb_refl. now rewrite IH.
    + simpl app. cbn [readTable]. rewrite E. now rewrite IH.
Qed.

Lemma readTable_writeField (quoteAll : bool) (cell rest : jstring) :
  match rest with c :: _ => (c =? QUOTE)%N = false | [] => True end ->
  readTable false (writeField quoteAll cell ++ rest)
  = fold_right consChar (readTable false rest) cell.
Proof.
  intros Hrest. unfold writeField.
  destruct (quoteAll || existsb isDelimiter cell) eqn:E.
  - unfold quoteField. rewrite <- !app_assoc. simpl app. cbn [readTable].
    rewrite N.eqb_refl. now apply readTable_quoted.
  - apply orb_false_iff in E as [_ E]. now apply readTable_plain.
Qed.

Lemma readTable_comma (rest : jstring) :
  readTable false ([COMMA] ++ rest) = endField (readTable false rest).
Proof. reflexivity. Qed.

Lemma readTable_writeRow (quoteAll : bool) (c : jstring) (r : list jstring)
    (rest : jstring) (t : table) :
  match rest with c :: _ => (c =? QUOTE)%N = false | [] => True end ->
  readTable false rest = [[]] :: t ->
  readTable false (writeRow quoteAll (c :: r) ++ rest) = (c :: r) :: t.
Proof.
  intros Hrest Ht. unfold writeRow. revert c; induction r as [|c' r IH]; intros c.
  - simpl. rewrite readTable_writeField by exact Hrest.
    rewrite Ht, fold_consChar. now rewrite app_nil_r.
  - change (join [COMMA] (map (writeField quoteAll) (c :: c' :: r)))
      with (writeField quoteAll c
            ++ [COMMA] ++ join [COMMA] (map (writeField quoteAll) (c' :: r))).
    rewrite <- !app_assoc. rewrite readTable_writeField by reflexivity.
    rewrite readTable_comma, IH. cbn [endField].
    rewrite fold_consChar. now rewrite app_nil_r.
Qed.

Lemma readTable_endOfLine (crlf : bool) (rest : jstring) :
  readTable false (endOfLine crlf ++ rest) = [[]] :: readTable false rest.
Proof. destruct crlf; reflexivity. Qed.

Lemma endOfLine_head (crlf : bool) (rest : jstring) :
  match endOfLine crlf ++ rest with
  | c :: _ => (c =? QUOTE)%N = false
  | [] => True
  end.
Proof. destruct crlf; reflexivity. Qed.

Lemma readTable_rows (quoteAll crlf : bool) (r : list jstring) (t : table)
    (tail : jstring) (t0 : table) :
  Forall (fun r => r <> []) (r :: t) ->
  match tail with c :: _ => (c =? QUOTE)%N = false | [] => True end ->
  readTable false tail = [[]] :: t0 ->
  readTable false
    (join (endOfLine crlf) (map (writeRow quoteAll) (r :: t)) ++ tail)
  = (r :: t) ++ t0.
Proof.
  intros Hne Htail Ht0. revert r Hne; induction t as [|r' t IH]; intros r Hne.
  - inversion Hne as [|? ? Hr _]; subst. destruct r as [|c r]; [congruence|].
    simpl join. now rewrite (readTable_writeRow _ _ _ _ t0).
  - inversion Hne as [|? ? Hr Hne']; subst. destruct r as [|c r]; [congruence|].
    change (join (endOfLine crlf) (map (writeRow quoteAll) ((c :: r) :: r' :: t)))
      with (writeRow quoteAll (c :: r)
            ++ endOfLine crlf
            ++ join (endOfLine crlf) (map (writeRow quoteAll) (r' :: t))).
    rewrite <- !app_assoc.
    rewrite (readTable_writeRow _ _ _ _ ((r' :: t) ++ t0)).
    + reflexivity.
    + apply endOfLine_head.
    + rewrite readTable_endOfLine. f_equal. now apply IH.
Qed.

Lemma dropTrailingBlankRows_last (t : table) :
  match rev t with
  | [] => True
  | last :: _ => allEmpty last = false
  end ->
  dropTrailingBlankRows t = t.
Proof.
  destruct t as [|r t] using rev_ind; [reflexivity|]. clear IHt.
  rewrite rev_app_distr. simpl. intros H.
  rewrite dropTrailingBlankRows_snoc, <- allEmpty_blankRow. now rewrite H.
Qed.

(** X1: the parser reads back what the usual writer of tabular text
    writes.  For every table whose rows have at least one cell and whose
    last row is not blank, written with every field quoted or only those
    that need it, with LF or CR LF at the end of the lines, with or
    without a line end after the last row, [parseCsv] gives the table:
    quotes, commas, line feeds and carriage returns inside a cell come
    back as they were. *)
Theorem parseCsv_writeCsv (quoteAll crlf trailing : bool) (t : table) :
  Forall (fun r => r <> []) t ->
  match rev t with
  | [] => True
  | last :: _ => allEmpty last = false
  end ->
  parseCsv (writeCsv quoteAll crlf trailing t) = t.
Proof.
  intros Hne Hlast. rewrite parseCsv_parseCsv_ref. unfold parseCsv_ref, writeCsv.
  destruct t as [|r t].
  - simpl. destruct trailing; [destruct crlf|]; reflexivity.
  - rewrite (readTable_rows quoteAll crlf r t _
               (if trailing then [[[]]] else [])).
    + destruct trailing.
      * rewrite dropTrailingBlankRows_snoc.
        change (blankRow [[]]) with true. cbv iota.
        now apply dropTrailingBlankRows_last.
      * rewrite app_nil_r. now apply dropTrailingBlankRows_last.
    + exact Hne.
    + destruct trailing; [destruct crlf|]; reflexivity.
    + destruct trailing; [destruct crlf|]; reflexivity.
Qed.

(** Two rows, a comma and a quote inside cells, an empty cell; lines
    ended by CR LF, the last one too. *)
Lemma parseCsv_writeCsv_witness :
  parseCsv (writeCsv false true true
              [[js "a,b"; [QUOTE] ++ js "c"]; [[]; js " d"]])
  = [[js "a,b"; [QUOTE] ++ js "c"]; [[]; js " d"]].
Proof.
  apply parseCsv_writeCsv.
  - repeat constructor; discriminate.
  - reflexivity.
Defined.

Lemma readTable_rows_nonempty (q : bool) (text : jstring) :
  Forall (fun r => r <> []) (readTable q text).
Proof.
  remember (length text) as n eqn:Hn.
  revert q text Hn.
  induction n as [n IH] using lt_wf_ind. intros q text Hn.
  destruct text as [|c rest]; simpl; [repeat constructor; discriminate|].
  assert (Hrest : forall q', Forall (fun r => r <> []) (readTable q' rest)).
  { intros q'. apply (IH (length rest)); [subst; simpl; lia | reflexivity]. }
  assert (Hcons : forall c' t, Forall (fun r : list jstring => r <> []) t ->
                               Forall (fun r => r <> []) (consChar c' t)).
  { intros c' t Ht. destruct t as [|[|f r] t]; simpl.
    - repeat constructor; discriminate.
    - inversion Ht; subst. constructor; [discriminate | assumption].
    - inversion Ht; subst. constructor; [discriminate | assumption]. }
  destruct q.
  - destruct (c =? QUOTE)%N; [|now apply Hcons].
    destruct rest as [|c' rest']; [repeat constructor; discriminate|].
    destruct (c' =? QUOTE)%N; [|apply Hrest].
    apply Hcons. apply (IH (length rest')); [subst; simpl; lia | reflexivity].
  - destruct (c =? QUOTE)%N; [apply Hrest|].
    destruct (c =? COMMA)%N.
    { specialize (Hrest false). destruct (readTable false rest) as [|r t]; simpl.
      - repeat constructor; discriminate.
      - inversion Hrest; subst. constructor; [discriminate | assumption]. }
    destruct (c =? CR)%N; [apply Hrest|].
    destruct (c =? LF)%N; [|now apply Hcons].
    constructor; [discriminate | apply Hrest].
Qed.

Lemma dropTrailingBlankRows_In (t : table) (r : list jstring) :
  In r (dropTrailingBlankRows t) -> In r t.
Proof.
  induction t as [|r0 t IH]; simpl; [tauto|].
  destruct (dropTrailingBlankRows t) as [|r1 t1].
  - destruct (blankRow r0); simpl; tauto.
  - simpl. intros [H|H]; [now left | right; apply IH; exact H].
Qed.

Lemma readTable_blank (text : jstring) :
  forallb isWhiteSpace text = true ->
  Forall (fun r => blankRow r = true) (readTable false text).
Proof.
  induction text as [|c text IH]; intros H; [repeat constructor|].
  simpl in H. apply andb_true_iff in H as [Hc H]. specialize (IH H).
  cbn [readTable].
  destruct (c =? QUOTE)%N eqn:EQ.
  { apply N.eqb_eq in EQ. subst c. discriminate Hc. }
  destruct (c =? COMMA)%N eqn:EC.
  { apply N.eqb_eq in EC. subst c. discriminate Hc. }
  destruct (c =? CR)%N; [exact IH|].
  destruct (c =? LF)%N; [constructor; [reflexivity | exact IH]|].
  destruct (readTable false text) as [|[|f r] t]; simpl.
  - repeat constructor. simpl. now rewrite Hc.
  - inversion IH; subst. constructor; [|assumption]. simpl. now rewrite Hc.
  - inversion IH as [|? ? Hr Ht]; subst. constructor; [|assumption].
    simpl in *. now rewrite Hc.
Qed.

Lemma dropTrailingBlankRows_blank (t : table) :
  Forall (fun r => blankRow r = true) t -> dropTrailingBlankRows t = [].
Proof.
  induction 1 as [|r t Hr Ht IH]; [reflexivity|]. simpl. now rewrite IH, Hr.
Qed.

(** X2: every row that [parseCsv] returns has at least one cell. *)
Theorem parseCsv_rows_have_cells (text : jstring) (r : list jstring) :
  In r (parseCsv text) -> r <> [].
Proof.
  rewrite parseCsv_parseCsv_ref. unfold parseCsv_ref.
  intros Hr. apply dropTrailingBlankRows_In in Hr.
  pose proof (readTable_rows_nonempty false text) as H.
  rewrite Forall_forall in H. now apply H.
Qed.

(** The last row of a text with an empty line in it. *)
Lemma parseCsv_rows_have_cells_witness :
  [js "b"] <> [].
Proof.
  apply (parseCsv_rows_have_cells (js "a,," ++ [LF; LF] ++ js "b") [js "b"]).
  vm_compute. tauto.
Defined.

(** X3: a text of white space only, the empty text among them, parses
    to the empty table. *)
Theorem parseCsv_blank_text (text : jstring) :
  forallb isWhiteSpace text = true -> parseCsv text = [].
Proof.
  rewrite parseCsv_parseCsv_ref. unfold parseCsv_ref.
  intros H. apply dropTrailingBlankRows_blank. now apply readTable_blank.
Qed.

(** A space, a tab and line ends. *)
Lemma parseCsv_blank_text_witness :
  parseCsv ([SPACE; CR; LF; 9%N; LF; LF]) = [].
Proof.
  apply (parseCsv_blank_text [SPACE; CR; LF; 9%N; LF; LF]).
  reflexivity.
Defined.

(* ================================================================= *)
(** ** Strings: trimming twice *)

Lemma trimStart_head (s : jstring) :
  match trimStart s with
  | [] => True
  | c :: _ => isWhiteSpace c = false
  end.
Proof.
  induction s as [|c s IH]; [exact I|]. simpl.
  destruct (isWhiteSpace c) eqn:E; [exact IH | exact E].
Qed.

Lemma trimStart_fixed (s : jstring) :
  match s with
  | [] => True
  | c :: _ => isWhiteSpace c = false
  end -> trimStart s = s.
Proof. destruct s as [|c s]; [reflexivity|]. simpl. now intros ->. Qed.

Lemma trimStart_trimStart (s : jstring) : trimStart (trimStart s) = trimStart s.
Proof. apply trimStart_fixed, trimStart_head. Qed.

Lemma trimStart_snoc (l : jstring) (c : jschar) :
  isWhiteSpace c = false -> trimStart (l ++ [c]) = trimStart l ++ [c].
Proof.
  intros Hc. induction l as [|x l IH]; simpl; [now rewrite Hc|].
  destruct (isWhiteSpace x); [exact IH | reflexivity].
Qed.

Lemma trimEnd_head (s : jstring) :
  match s with
  | [] => True
  | c :: _ => isWhiteSpace c = false
  end ->
  match trimEnd s with
  | [] => True
  | c :: _ => isWhiteSpace c = false
  end.
Proof.
  destruct s as [|c s]; [intros _; exact I|]. intros Hc.
  unfold trimEnd. simpl rev. rewrite trimStart_snoc by exact Hc.
  rewrite rev_app_distr. simpl. exact Hc.
Qed.

Lemma trimEnd_trimEnd (s : jstring) : trimEnd (trimEnd s) = trimEnd s.
Proof. unfold trimEnd. now rewrite rev_involutive, trimStart_trimStart. Qed.

Lemma trim_trim (s : jstring) : trim (trim s) = trim s.
Proof.
  unfold trim. rewrite (trimStart_fixed (trimEnd (trimStart s))).
  - apply trimEnd_trimEnd.
  - apply trimEnd_head, trimStart_head.
Qed.

Lemma trim_notWhiteSpace (s : jstring) :
  forallb notWhiteSpace s = true -> trim s = s.
Proof.
  intros H.
  assert (Hfix : forall u, forallb notWhiteSpace u = true -> trimStart u = u).
  { intros u Hu. apply trimStart_fixed. destruct u as [|c u]; [exact I|].
    simpl in Hu. apply andb_true_iff in Hu as [Hc _].
    unfold notWhiteSpace in Hc. now apply negb_true_iff in Hc. }
  unfold trim, trimEnd. rewrite (Hfix s H).
  rewrite Hfix by now rewrite forallb_rev. apply rev_involutive.
Qed.

Lemma splitWsFrom_notWhiteSpace (s cur : jstring) (inRun : bool) :
  forallb notWhiteSpace cur = true ->
  Forall (fun x => forallb notWhiteSpace x = true) (splitWsFrom s cur inRun).
Proof.
  revert cur inRun; induction s as [|c s IH]; intros cur inRun Hcur; simpl.
  - now repeat constructor.
  - destruct (isWhiteSpace c) eqn:E.
    + destruct inRun; [now apply IH|]. constructor; [exact Hcur | now apply IH].
    + apply IH. rewrite forallb_app, Hcur. simpl. unfold notWhiteSpace.
      now rewrite E.
Qed.

Lemma tokensOf_notWhiteSpace (s x : jstring) :
  In x (tokensOf s) -> forallb notWhiteSpace x = true.
Proof.
  unfold tokensOf, filterBoolean, splitWs. intros H.
  apply filter_In in H as [H _].
  pose proof (splitWsFrom_notWhiteSpace (trim s) [] false eq_refl) as Hall.
  rewrite Forall_forall in Hall. now apply Hall.
Qed.

(* ================================================================= *)
(** ** Mapping Builder: what the built mapping holds *)

Lemma nth_nonempty_In (l : list jstring) (i : nat) :
  nth i l [] <> [] -> nth_error l i = Some (nth i l []).
Proof.
  intros H. destruct (Nat.lt_ge_cases i (length l)) as [Hi|Hi].
  - now apply nth_error_nth'.
  - rewrite nth_overflow in H by exact Hi. congruence.
Qed.

Section BuiltEntries.

Variable parseInt : jstring -> option Z.

Lemma collectIndexed_trimmed (cols : list jstring) (t : indexTable) :
  (forall k v, map_get (plainByIndex t) k = Some v -> trim v = v) ->
  forall k v, map_get (plainByIndex (collectIndexed parseInt cols t)) k = Some v ->
              trim v = v.
Proof.
  intros Ht. unfold collectIndexed.
  destruct (length cols <? 2); [exact Ht|].
  destruct (isEmpty (trim (getCell (Some cols) 0)) || _); [exact Ht|].
  destruct (negb _); [exact Ht|].
  destruct (parseInt _) as [idx|]; [|exact Ht].
  destruct (idx <? 0)%Z; [exact Ht|].
  intros k v. simpl. rewrite map_get_set.
  destruct (idx =? k)%Z; [|apply Ht].
  intros H. injection H as <-. apply trim_trim.
Qed.

Lemma indexedPlaintext_trimmed (rows : table) (k : Z) (v : jstring) :
  map_get (plainByIndex (indexedPlaintext parseInt rows)) k = Some v -> trim v = v.
Proof.
  unfold indexedPlaintext.
  assert (H0 : forall k v, map_get (plainByIndex (mkIndexTable [] (-1))) k = Some v
                           -> trim v = v) by (intros ? ?; discriminate).
  revert k v. revert H0. generalize (mkIndexTable [] (-1)).
  induction rows as [|cols rows IH]; intros t Ht; simpl; [exact Ht|].
  apply IH. now apply collectIndexed_trimmed.
Qed.

(** Every entry of the built mapping was assigned by one of the three
    strategies. *)
Lemma built_entry_source (rows : table) (k v : jstring) :
  obj_get (mappingFromRows parseInt rows) k = Some v ->
  fromDirectRow rows k v \/ fromPackedPair rows k v
  \/ fromModuloScheme parseInt rows k v.
Proof.
  intros H. rewrite mappingFromRows_assignAll in H.
  apply obj_get_assignAll_inv in H as [H|H]; [discriminate|].
  apply in_app_or in H as [H|H].
  - right. unfold packedAssignments in H.
    destruct (100 <=? length (cipherTokens rows)) eqn:Ec; [|destruct H].
    apply Nat.leb_le in Ec.
    destruct (100 <=? length (plainTokens rows)) eqn:Ep.
    + left. apply Nat.leb_le in Ep.
      apply In_turns in H as (j & x & Hj & Hw). cbn [Nat.add] in Hw.
      rewrite nth_error_firstn in Hj.
      destruct (j <? _); [|discriminate].
      unfold pairDirectAssignment in Hw.
      destruct (isEmpty x || isEmpty _) eqn:Ex; [discriminate|].
      apply orb_false_iff in Ex as [_ Ev].
      injection Hw as -> <-. apply isEmpty_false in Ev.
      split; [exact Ec|]. split; [exact Ep|]. exists j. split; [exact Hj|].
      now apply nth_nonempty_In.
    + right. apply Nat.leb_gt in Ep. cbv zeta in H.
      pose proof (indexedPlaintext_indexed parseInt rows) as Hind.
      destruct ((10 <=? _) && _) eqn:Es; [|destruct H].
      apply andb_true_iff in Es as [Es Eb]. apply Nat.leb_le in Es.
      pose proof (indexed_maxIndex _ Hind ltac:(lia)) as Hmax.
      apply Z.leb_le in Hmax. rewrite Hmax in H.
      apply In_turns in H as (j & x & Hj & Hw). cbn [Nat.add] in Hw.
      unfold pairModuloAssignment in Hw.
      destruct (map_get _ _) as [to|] eqn:Em; [|discriminate].
      destruct (isEmpty x || isEmpty to); [discriminate|].
      injection Hw as -> ->.
      split; [exact Ec|]. split; [exact Ep|]. split; [exact Es|].
      exists j. split; [exact Hj | exact Em].
  - left. apply In_turns in H as (j & cols & Hj & Hw). cbn [Nat.add] in Hw.
    pose proof Hw as Hw'.
    apply directAssignment_key in Hw as (H0 & H1 & _ & _ & Hp).
    exists j, cols. split; [exact Hj|]. split.
    + unfold directAssignment in Hw'.
      destruct (length cols <? 2) eqn:El; [discriminate|].
      now apply Nat.ltb_ge in El.
    + split; [|split; assumption].
      intros Hc. apply Hp. now apply Nat.leb_le.
Qed.

End BuiltEntries.

(** X4: the builder invents no entry.  Every entry of the built mapping
    is a direct row with two cells or more (not row 0 when it is packed),
    a positional pair of the packed first row, or a pair that the modulo
    scheme makes of a token of the packed cell 0 and the indexed plaintext
    at the position of the token modulo [maxIndex + 1]. *)
Theorem built_entries_have_a_source (parseInt : jstring -> option Z)
    (rows : table) (k v : jstring) :
  obj_get (mappingFromRows parseInt rows) k = Some v ->
  fromDirectRow rows k v \/ fromPackedPair rows k v
  \/ fromModuloScheme parseInt rows k v.
Proof. apply built_entry_source. Qed.

(** The entry of the direct row [So,28]. *)
Lemma built_entries_have_a_source_witness :
  fromDirectRow [[js "A"; js "0"]; [js " So"; js "28 "]] (js "So") (js "28")
  \/ fromPackedPair [[js "A"; js "0"]; [js " So"; js "28 "]] (js "So") (js "28")
  \/ fromModuloScheme parseIntExact
       [[js "A"; js "0"]; [js " So"; js "28 "]] (js "So") (js "28").
Proof.
  apply (built_entries_have_a_source parseIntExact
           [[js "A"; js "0"]; [js " So"; js "28 "]] (js "So") (js "28")).
  vm_compute. reflexivity.
Defined.

(** X5: no key and no value of the built mapping is empty, and each is
    stored trimmed. *)
Theorem built_entries_are_trimmed (parseInt : jstring -> option Z)
    (rows : table) (k v : jstring) :
  obj_get (mappingFromRows parseInt rows) k = Some v ->
  k <> [] /\ v <> [] /\ trim k = k /\ trim v = v.
Proof.
  intros H. pose proof H as Hsrc. apply built_entry_source in Hsrc.
  assert (Htok : forall s x i, nth_error (tokensOf s) i = Some x ->
                               x <> [] /\ trim x = x).
  { intros s x i Hx. apply nth_error_In in Hx. split.
    - eapply tokensOf_nonempty; eauto.
    - apply trim_notWhiteSpace. eapply tokensOf_notWhiteSpace; eauto. }
  assert (Hk : k <> []).
  { intros ->. destruct (mappingFromRows_keys parseInt rows) as [_ Hno].
    apply Hno. eapply obj_get_Some_keys; eauto. }
  split; [exact Hk|].
  destruct Hsrc as [(j & cols & Hj & Hlen & _ & <- & <-)
                   |[(_ & _ & i & Hi & Hv)|(_ & _ & _ & i & Hi & Hv)]].
  - rewrite mappingFromRows_assignAll in H.
    apply obj_get_assignAll_inv in H as [H|H]; [discriminate|].
    rewrite !trim_trim. split; [|split; reflexivity].
    intros Hv.
    assert (Hall : Forall (fun w => forall k' v', w = Some (k', v') -> v' <> [])
                     (packedAssignments parseInt rows
                      ++ turns (directAssignment (100 <=? length (cipherTokens rows)))
                           0 rows)).
    { apply Forall_app. split.
      - unfold packedAssignments.
        destruct (100 <=? length (cipherTokens rows)); [|constructor].
        destruct (100 <=? length (plainTokens rows)).
        + apply Forall_turns. intros j' x _ k' v' Hw.
          unfold pairDirectAssignment in Hw.
          destruct (isEmpty x || isEmpty _) eqn:Ex; [discriminate|].
          apply orb_false_iff in Ex as [_ Ev]. injection Hw as _ <-.
          now apply isEmpty_false.
        + cbv zeta. destruct ((10 <=? _) && _); [|constructor].
          apply Forall_turns. intros j' x _ k' v' Hw.
          unfold pairModuloAssignment in Hw.
          destruct (map_get _ _) as [to|]; [|discriminate].
          destruct (isEmpty x || isEmpty to) eqn:Ex; [discriminate|].
          apply orb_false_iff in Ex as [_ Ev]. injection Hw as _ <-.
          now apply isEmpty_false.
      - apply Forall_turns. intros j' cols' _ k' v' Hw.
        now apply directAssignment_key in Hw as (_ & _ & Hne & _). }
    rewrite Forall_forall in Hall. now apply (Hall _ H _ _ eq_refl).
  - destruct (Htok _ _ _ Hi) as [_ Hkt]. destruct (Htok _ _ _ Hv) as [Hvn Hvt].
    auto.
  - destruct (Htok _ _ _ Hi) as [_ Hkt].
    destruct (indexedPlaintext_indexed parseInt rows _ _ Hv) as [Hvn _].
    split; [exact Hvn|]. split; [exact Hkt|].
    eapply indexedPlaintext_trimmed; eauto.
Qed.

(** The cells [ So] and [28 ] of a row give the entry [So -> 28]. *)
Lemma built_entries_are_trimmed_witness :
  js "So" <> [] /\ js "28" <> [] /\ trim (js "So") = js "So"
  /\ trim (js "28") = js "28".
Proof.
  apply (built_entries_are_trimmed parseIntExact
           [[js "A"; js "0"]; [js " So"; js "28 "]] (js "So") (js "28")).
  vm_compute. reflexivity.
Defined.

(** X6: rows with fewer than two cells contribute nothing: a table in
    which every row has fewer than two cells gives the empty mapping,
    even when cell 0 of its first row is packed. *)
Theorem narrow_rows_give_no_entry (parseInt : jstring -> option Z) (rows : table) :
  (forall cols, In cols rows -> length cols < 2) ->
  mappingFromRows parseInt rows = [].
Proof.
  intros Hnarrow.
  destruct (mappingFromRows parseInt rows) as [|[k v] m] eqn:E; [reflexivity|].
  exfalso.
  assert (H : obj_get (mappingFromRows parseInt rows) k = Some v).
  { rewrite E. simpl. now rewrite str_eqb_refl. }
  assert (Hplain : plainTokens rows = []).
  { unfold plainTokens, firstRowB, getCell. destruct rows as [|r rows]; [reflexivity|].
    simpl. rewrite nth_overflow; [reflexivity|].
    specialize (Hnarrow r (or_introl eq_refl)). lia. }
  assert (Hidx : forall rs t, (forall cols, In cols rs -> length cols < 2) ->
                   fold_left (fun t cols => collectIndexed parseInt cols t) rs t = t).
  { induction rs as [|cols rs IH]; intros t Hrs; [reflexivity|]. simpl.
    unfold collectIndexed at 2.
    pose proof (Hrs cols (or_introl eq_refl)) as Hc.
    apply Nat.ltb_lt in Hc. rewrite Hc. apply IH.
    intros c Hin. apply Hrs. now right. }
  apply built_entry_source in H
    as [(j & cols & Hj & Hlen & _)|[(_ & Hp & _)|(_ & _ & Hs & _)]].
  - apply nth_error_In, Hnarrow in Hj. lia.
  - rewrite Hplain in Hp. simpl in Hp. lia.
  - unfold indexedPlaintext in Hs. rewrite Hidx in Hs by exact Hnarrow.
    simpl in Hs. lia.
Qed.

(** A table of one column. *)
Lemma narrow_rows_give_no_entry_witness :
  mappingFromRows parseIntExact [[js "A"]; []; [js "B"]] = [].
Proof.
  apply narrow_rows_give_no_entry.
  intros cols [<-|[<-|[<-|[]]]]; simpl; lia.
Defined.

(* ================================================================= *)
(** ** Mapping Source and Mapping Cache: the outcomes *)

(** X7: [fetchFirstWorkingCsv] resolves exactly when the response is ok,
    its body is not blank and the lower-cased first 2000 code units of
    the body hold neither [<html] nor [<!doctype html]; it then gives the
    body as it is, with the URL and the status. *)
Theorem fetch_resolves_plain_bodies (toLowerCase : jstring -> jstring)
    (fetch : jstring -> settled response) (u : jstring) (r : fetchedCsv) :
  fetchFirstWorkingCsv toLowerCase fetch u = Resolved r
  <-> exists res,
        fetch u = Resolved res /\ res_ok res = true
        /\ trim (res_text res) <> []
        /\ looksLikeHtml toLowerCase (res_text res) = false
        /\ r = mkFetched u (res_text res) (res_status res).
Proof.
  unfold fetchFirstWorkingCsv, looksLikeHtml. split.
  - destruct (fetch u) as [e|res]; [discriminate|].
    destruct (res_ok res) eqn:Eok; [|discriminate]. cbn [negb].
    rewrite blank_text.
    destruct (isEmpty (trim (res_text res))) eqn:Eb; [discriminate|].
    cbv zeta.
    destruct (includes _ _ || includes _ _) eqn:Eh; [discriminate|].
    intros H. injection H as <-. exists res.
    apply isEmpty_false in Eb.
    split; [reflexivity|]. split; [exact Eok|]. split; [exact Eb|].
    split; [exact Eh | reflexivity].
  - intros (res & -> & -> & Hb & Hh & ->). cbn [negb].
    rewrite blank_text. apply isEmpty_false in Hb. rewrite Hb. cbv zeta.
    now rewrite Hh.
Qed.

Section RefreshOutcomes.

Variable toLowerCase : jstring -> jstring.
Variable fetch : jstring -> settled response.
Variable parseInt : jstring -> option Z.
Variable now : nat -> Z.
Variable setError : cacheRecord -> option error.
Variable getError : jstring -> option error.

Lemma obj_keys_length_spread (a b : jsobj) :
  NoDup (obj_keys a) -> NoDup (obj_keys b) ->
  (length (obj_keys a) =? 0) = false ->
  1 <= length (obj_keys (obj_spread a b)).
Proof.
  intros Ha Hb Hlen. destruct a as [|[k v] a]; [discriminate|].
  assert (H : obj_get (obj_spread ((k, v) :: a) b) k <> None).
  { rewrite obj_get_spread by assumption.
    destruct (obj_get b k); [discriminate|]. simpl.
    rewrite str_eqb_refl. discriminate. }
  destruct (obj_spread ((k, v) :: a) b); [now destruct H | simpl; lia].
Qed.

Lemma firstWorkingMapping_single (u : jstring) (chosen : fetchedCsv) (m : jsobj) :
  firstWorkingMapping toLowerCase fetch parseInt [u] = Some (chosen, m) ->
  fetchFirstWorkingCsv toLowerCase fetch u = Resolved chosen
  /\ fetched_url chosen = u.
Proof.
  cbn [firstWorkingMapping].
  destruct (fetchFirstWorkingCsv toLowerCase fetch u) as [e|fetched] eqn:Ef;
    [discriminate|].
  destruct (length _ =? 0); [discriminate|]. intros H. injection H as <- _.
  split; [reflexivity|].
  unfold fetchFirstWorkingCsv in Ef.
  destruct (fetch u) as [e|res]; [discriminate|].
  destruct (negb (res_ok res)); [discriminate|].
  destruct (isEmpty _ || _); [discriminate|].
  destruct (includes _ _ || includes _ _); [discriminate|].
  injection Ef as <-. reflexivity.
Qed.

(** What the [catch] comes to. *)
Lemma refreshFailure_outcome (e : error) (readings : nat) (urls : list jstring)
    (st : storage) :
  refreshFailure now setError e readings urls st
  = match setError (failureRecord now e readings urls) with
    | None =>
        (mkStorage (Some (failureRecord now e readings urls)) (localOverrideMapping st),
         Resolved (RefreshFailed (message e)))
    | Some e' => (st, Rejected e')
    end.
Proof.
  unfold refreshFailure, storageSet. now destruct (setError _).
Qed.

(** The three ways of a refresh: the success record is written, or its
    write is rejected and the [catch] is entered with the error of the
    write, or no candidate gave a mapping and the [catch] is entered with
    the error of the empty mapping. *)
Lemma refreshMapping_outcome (st : storage) :
  (exists chosen,
     let mapping := mappingFromRows parseInt (parseCsv (fetched_text chosen)) in
     let merged := obj_spread mapping (loadLocalOverrideMapping getError st) in
     let record := CacheOk merged (now 1) CSV_URL (now 2 - now 0)
                     (length (obj_keys merged)) in
     fetchFirstWorkingCsv toLowerCase fetch CSV_URL = Resolved chosen
     /\ 1 <= length (obj_keys merged)
     /\ refreshMapping toLowerCase fetch parseInt now setError getError st
        = match setError record with
          | None => (mkStorage (Some record) (localOverrideMapping st),
                     Resolved (RefreshOk (length (obj_keys merged))))
          | Some e => refreshFailure now setError e 3 [CSV_URL] st
          end)
  \/ ((forall chosen,
         fetchFirstWorkingCsv toLowerCase fetch CSV_URL = Resolved chosen ->
         obj_keys (mappingFromRows parseInt (parseCsv (fetched_text chosen))) = [])
      /\ refreshMapping toLowerCase fetch parseInt now setError getError st
         = refreshFailure now setError (newError EMPTY_MAPPING) 1 [CSV_URL] st).
Proof.
  unfold refreshMapping, buildCsvUrls.
  destruct (firstWorkingMapping toLowerCase fetch parseInt [CSV_URL])
    as [[chosen mapping]|] eqn:E.
  - pose proof E as E'.
    apply firstWorkingMapping_built in E as (Hlen & -> & Hf).
    rewrite Hlen. left.
    destruct (firstWorkingMapping_single _ _ _ E') as [Hf' Eu].
    rewrite Eu in *. exists chosen. cbv zeta. split; [exact Hf|]. split.
    + apply obj_keys_length_spread;
        [apply NoDup_keys_mappingFromRows | | exact Hlen].
      unfold loadLocalOverrideMapping.
      destruct (getError LOCAL_OVERRIDE_KEY); [constructor | apply NoDup_keys_sanitize].
    + unfold storageSet. now destruct (setError _).
  - right. split; [|reflexivity].
    intros chosen Hf. cbn [firstWorkingMapping] in E. rewrite Hf in E.
    destruct (obj_keys _); [reflexivity | discriminate].
Qed.

End RefreshOutcomes.

(** X8: when [refreshMapping] resolves to a failure, the storage holds the
    failure record with the error that the refresh resolves to, and the
    overrides are as they were.  That record is the record of the empty
    mapping (the message "Mapping is empty ...", no status, no body
    snippet, [privateOrAuthRequired] false) or, when a mapping was built and
    the storage rejected the write of its success record, the record of the
    error of that write.  A failed fetch always gives the first: the inner
    [catch] drops the error of the fetch with its status. *)
Theorem refresh_failure_is_recorded
    (toLowerCase : jstring -> jstring) (fetch : jstring -> settled response)
    (parseInt : jstring -> option Z) (now : nat -> Z)
    (setError : cacheRecord -> option error) (getError : jstring -> option error)
    (st st' : storage) (err : jstring) :
  refreshMapping toLowerCase fetch parseInt now setError getError st
  = (st', Resolved (RefreshFailed err)) ->
  localOverrideMapping st' = localOverrideMapping st
  /\ (cipherMapping st'
      = Some (CacheFailed EMPTY_MAPPING None false None (now 1) buildCsvUrls)
      /\ err = EMPTY_MAPPING
      \/
      exists chosen record e,
        fetchFirstWorkingCsv toLowerCase fetch CSV_URL = Resolved chosen
        /\ cache_ok record = true
        /\ setError record = Some e
        /\ cipherMapping st' = Some (failureRecord now e 3 buildCsvUrls)
        /\ err = message e)
  /\ (forall e, fetchFirstWorkingCsv toLowerCase fetch CSV_URL = Rejected e ->
      cipherMapping st'
      = Some (CacheFailed EMPTY_MAPPING None false None (now 1) buildCsvUrls)
      /\ err = EMPTY_MAPPING).
Proof.
  intros H.
  destruct (refreshMapping_outcome toLowerCase fetch parseInt now setError getError st)
    as [(chosen & Hf & _ & E)|[_ E]]; cbv zeta in E; rewrite E in H; clear E.
  - destruct (setError (CacheOk _ _ _ _ _)) as [e|] eqn:Eset; [|discriminate].
    rewrite refreshFailure_outcome in H.
    destruct (setError (failureRecord _ _ _ _)); [discriminate|].
    injection H as <- <-. split; [reflexivity|]. split.
    + right. eexists chosen, _, e. split; [exact Hf|]. split; [|split; [exact Eset|]].
      * reflexivity.
      * split; reflexivity.
    + intros e0 He0. rewrite He0 in Hf. discriminate.
  - rewrite refreshFailure_outcome in H.
    destruct (setError (failureRecord _ _ _ _)); [discriminate|].
    injection H as <- <-. split; [reflexivity|].
    split; [left|intros e0 _]; split; reflexivity.
Qed.

(** A response 403 Forbidden, the storage taking every write: the record
    does not say so. *)
Lemma refresh_failure_is_recorded_witness :
  cipherMapping (mkStorage (Some (emptyMappingRecord (fun _ => 0%Z))) None)
  = Some (CacheFailed EMPTY_MAPPING None false None 0%Z buildCsvUrls)
  /\ EMPTY_MAPPING = EMPTY_MAPPING.
Proof.
  apply (proj2 (proj2 (refresh_failure_is_recorded asciiLower
           (fun _ => Resolved (mkResponse false 403 (js "Forbidden") (js "denied")))
           parseIntExact (fun _ => 0%Z) (fun _ => None) (fun _ => None)
           (mkStorage None None)
           (mkStorage (Some (emptyMappingRecord (fun _ => 0%Z))) None)
           EMPTY_MAPPING eq_refl))
         (mkError (js "HTTP 403 Forbidden") (Some 403%N) (Some CSV_URL)
            (Some (js "denied")))).
  reflexivity.
Defined.



(** X10: a rejection that follows a response carries the status of the
    response and the URL; its body snippet, when it has one, is the first
    300 code units of the body, and only the rejection of the empty body
    has none; a response that is not ok is rejected with
    "HTTP <status> <statusText>" whatever its body. *)
Theorem fetch_rejections_describe_the_response (toLowerCase : jstring -> jstring)
    (fetch : jstring -> settled response) (u : jstring) (res : response)
    (e : error) :
  fetch u = Resolved res ->
  fetchFirstWorkingCsv toLowerCase fetch u = Rejected e ->
  status e = Some (res_status res) /\ url e = Some u
  /\ match bodySnippet e with
     | Some snippet => snippet = firstn 300 (res_text res) /\ length snippet <= 300
     | None => message e = EMPTY_CSV
     end
  /\ (res_ok res = false ->
      message e = js "HTTP " ++ numberToString (res_status res) ++ js " "
                  ++ res_statusText res).
Proof.
  intros Hf. unfold fetchFirstWorkingCsv. rewrite Hf.
  assert (Hlen : length (firstn 300 (res_text res)) <= 300).
  { rewrite length_firstn. lia. }
  destruct (res_ok res); cbn [negb].
  - destruct (isEmpty (res_text res) || _).
    + intros H. injection H as <-. cbn. repeat split. discriminate.
    + cbv zeta. destruct (includes _ _ || includes _ _); [|discriminate].
      intros H. injection H as <-. cbn. repeat split; [exact Hlen | discriminate].
  - intros H. injection H as <-. cbn. repeat split. exact Hlen.
Qed.

(** A response 403 Forbidden. *)
Lemma fetch_rejections_describe_the_response_witness :
  status (mkError (js "HTTP 403 Forbidden") (Some 403%N) (Some CSV_URL)
            (Some (js "denied"))) = Some 403%N.
Proof.
  apply (fetch_rejections_describe_the_response asciiLower
           (fun _ => Resolved (mkResponse false 403 (js "Forbidden") (js "denied")))
           CSV_URL (mkResponse false 403 (js "Forbidden") (js "denied"))
           (mkError (js "HTTP 403 Forbidden") (Some 403%N) (Some CSV_URL)
              (Some (js "denied"))));
    reflexivity.
Defined.

(* ================================================================= *)
(** ** Replacer Engine: texts without keys, keys of one code unit *)

Lemma buildReplacer_replace (mapping : jsobj) :
  mapping <> [] ->
  buildReplacer mapping
  = Some (fun text =>
            replace text (map fst (sortByLength mapping))
              (fun m => match strmap_get (newMap (sortByLength mapping)) m with
                        | Some v => v
                        | None => m
                        end)).
Proof.
  intros Hne.
  assert (Hkeys : map fst (sortByLength mapping) <> []).
  { intros E. apply Hne. apply map_eq_nil in E.
    pose proof (sortByLength_perm mapping) as Hp. rewrite E in Hp.
    now apply Permutation_nil in Hp. }
  unfold buildReplacer. destruct mapping; [congruence|].
  cbn [length Nat.eqb]. cbv zeta.
  now rewrite (newRegExp_keys _ Hkeys).
Qed.

Lemma replaceFrom_no_match (re : regexp) (fn : jstring -> jstring) (text : jstring) :
  (forall k, In k re -> includes text k = false) ->
  replaceFrom re fn text 0 = text.
Proof.
  induction text as [|c text IH]; intros H.
  - cbn [replaceFrom].
    assert (E : matchAt re [] = None).
    { apply matchAt_None. intros k Hk. specialize (H k Hk). simpl in H.
      now apply orb_false_iff in H as [H _]. }
    now rewrite E.
  - cbn [replaceFrom].
    assert (E : matchAt re (c :: text) = None).
    { apply matchAt_None. intros k Hk. specialize (H k Hk). simpl in H.
      now apply orb_false_iff in H as [H _]. }
    rewrite E. f_equal. apply IH. intros k Hk. specialize (H k Hk). simpl in H.
    now apply orb_false_iff in H as [_ H].
Qed.

(** X11: a text in which no key of the mapping occurs goes through the
    replacer unchanged (with no mapping entry at all there is no replacer,
    and the text stays as well). *)
Theorem text_without_keys_unchanged (mapping : jsobj) (text : jstring) :
  (forall k, In k (obj_keys mapping) -> includes text k = false) ->
  replacerOf mapping text = text.
Proof.
  intros H. unfold replacerOf.
  destruct mapping as [|e mapping]; [reflexivity|].
  rewrite buildReplacer_replace by discriminate.
  apply replaceFrom_no_match. intros k Hk. apply H.
  now apply sortByLength_keys_In.
Qed.

(** The keys A and CD, the text xDCy. *)
Lemma text_without_keys_unchanged_witness :
  replacerOf [(js "A", js "B"); (js "CD", js "E")] (js "xDCy") = js "xDCy".
Proof.
  apply text_without_keys_unchanged.
  intros k [<-|[<-|[]]]; reflexivity.
Defined.

(** X12: when every key is one code unit long, the replacer substitutes
    code unit by code unit: each is replaced by the value of its key or
    kept, and what has been substituted is not looked at again. *)
Theorem single_character_keys_substitute (mapping : jsobj) (text : jstring) :
  NoDup (obj_keys mapping) ->
  (forall k, In k (obj_keys mapping) -> length k = 1) ->
  replacerOf mapping text
  = flat_map (fun c => match obj_get mapping [c] with
                       | Some v => v
                       | None => [c]
                       end) text.
Proof.
  intros Hnd Hone. unfold replacerOf.
  destruct mapping as [|e mapping].
  { simpl. induction text as [|c text IH]; [reflexivity|]. simpl. now rewrite <- IH. }
  rewrite buildReplacer_replace by discriminate.
  set (m := e :: mapping) in *.
  set (keys := map fst (sortByLength m)).
  set (fn := fun k => match strmap_get (newMap (sortByLength m)) k with
                      | Some v => v
                      | None => k
                      end).
  assert (Hin : forall k, In k keys <-> In k (obj_keys m))
    by apply sortByLength_keys_In.
  unfold replace. induction text as [|c text IH].
  - cbn [replaceFrom flat_map].
    destruct (matchAt keys []) as [k|] eqn:E; [|reflexivity].
    apply matchAt_Some in E as [Hk Hpre]. apply startsWith_nil in Hpre. subst k.
    apply Hin, Hone in Hk. discriminate Hk.
  - cbn [replaceFrom flat_map].
    destruct (matchAt keys (c :: text)) as [k|] eqn:E.
    + apply matchAt_Some in E as [Hk Hpre].
      pose proof (Hone k (proj1 (Hin k) Hk)) as Hlen.
      destruct k as [|x [|y k]]; try discriminate Hlen.
      simpl in Hpre. apply andb_true_iff in Hpre as [Hx _].
      apply N.eqb_eq in Hx. subst x. cbn [length]. rewrite IH.
      f_equal. unfold fn. rewrite newMap_sortByLength by exact Hnd.
      destruct (obj_get m [c]) as [v|] eqn:Ev; [reflexivity|].
      apply obj_get_None_keys in Ev. exfalso. apply Ev. now apply Hin.
    + rewrite IH. rewrite matchAt_None in E.
      destruct (obj_get m [c]) as [v|] eqn:Ev; [|reflexivity].
      apply obj_get_Some_keys, Hin, E in Ev. simpl in Ev.
      now rewrite N.eqb_refl in Ev.
Qed.

(** With A -> B and B -> C the text ABBA becomes BCCB, not CCCC. *)
Lemma single_character_keys_substitute_witness :
  replacerOf [(js "A", js "B"); (js "B", js "C")] (js "ABBA") = js "BCCB".
Proof.
  apply (single_character_keys_substitute
           [(js "A", js "B"); (js "B", js "C")] (js "ABBA")).
  - repeat constructor; simpl; intuition discriminate.
  - intros k [<-|[<-|[]]]; reflexivity.
Defined.

(* ================================================================= *)
(** ** The fragment and the replacer *)

Lemma splitRunsFrom_concat (s cur : jstring) (ws : bool) :
  concat (splitRunsFrom s cur ws) = cur ++ s.
Proof.
  revert cur ws; induction s as [|c s IH]; intros cur ws; simpl.
  - destruct cur; simpl; [reflexivity | now rewrite !app_nil_r].
  - destruct (Bool.eqb (isWhiteSpace c) ws).
    + rewrite IH. now rewrite <- app_assoc.
    + destruct cur as [|x cur]; simpl.
      * now rewrite IH.
      * now rewrite IH.
Qed.

Section FragmentTexts.

Variable rubySwap : bool.
Variable replaceFn : jstring -> jstring.

Lemma allText_textContent (id : nat) (s : jstring) :
  flat_map allText (textContent id s) = s.
Proof.
  unfold textContent. destruct s; simpl; [reflexivity|]. now rewrite app_nil_r.
Qed.

Lemma baseText_textContent (id : nat) (s : jstring) :
  flat_map baseText (textContent id s) = s.
Proof.
  unfold textContent. destruct s; simpl; [reflexivity|]. now rewrite app_nil_r.
Qed.

Lemma baseText_createTranslatedRuby (id : nat) (original translated : jstring) :
  baseText (createTranslatedRuby rubySwap id original translated)
  = if rubySwap then original else translated.
Proof.
  simpl. rewrite baseText_textContent. now rewrite !app_nil_r.
Qed.

Lemma annotationText_createTranslatedRuby (id : nat) (original translated : jstring) :
  annotationText (createTranslatedRuby rubySwap id original translated)
  = if rubySwap then translated else original.
Proof.
  simpl. rewrite allText_textContent. now rewrite !app_nil_r.
Qed.

Lemma segmentNodes_texts (parts : list jstring) (id : nat) :
  let frag := fst (segmentNodes rubySwap replaceFn parts id) in
  flat_map (if rubySwap then baseText else annotationText) frag = concat parts
  /\ flat_map (if rubySwap then annotationText else baseText) frag
     = concat (map (translatedPart replaceFn) parts).
Proof.
  revert id; induction parts as [|part parts IH]; intros id; [split; reflexivity|].
  cbn [segmentNodes concat map]. unfold translatedPart at 1.
  destruct (isEmpty part) eqn:Ee.
  { apply isEmpty_true in Ee. subst part. simpl. apply IH. }
  destruct (forallb isWhiteSpace part).
  - specialize (IH (id + 1)).
    destruct (segmentNodes rubySwap replaceFn parts (id + 1)) as [ns id'].
    cbn [fst] in *. destruct IH as [IH1 IH2].
    cbn [flat_map]. rewrite IH1, IH2. destruct rubySwap; split; reflexivity.
  - destruct (str_eqb (replaceFn part) part) eqn:Et.
    + apply str_eqb_eq in Et.
      specialize (IH (id + 1)).
      destruct (segmentNodes rubySwap replaceFn parts (id + 1)) as [ns id'].
      cbn [fst] in *. destruct IH as [IH1 IH2].
      cbn [flat_map]. rewrite IH1, IH2, Et. destruct rubySwap; split; reflexivity.
    + specialize (IH (id + 5)).
      destruct (segmentNodes rubySwap replaceFn parts (id + 5)) as [ns id'].
      cbn [fst] in *. destruct IH as [IH1 IH2].
      cbn [flat_map]. rewrite IH1, IH2.
      pose proof (baseText_createTranslatedRuby id part (replaceFn part)) as Hb.
      pose proof (annotationText_createTranslatedRuby id part (replaceFn part)) as Ha.
      destruct rubySwap; rewrite Hb, Ha; split; reflexivity.
Qed.

End FragmentTexts.

(** X13: the fragment keeps the original.  The parts of the text, white
    space included, are in the fragment in their order: on the line that
    shows the original (the annotations [rt], or the base when [rubySwap]
    is set) the fragment reads the original text, and on the other line
    it reads the parts translated one by one. *)
Theorem fragment_keeps_original (rubySwap : bool) (replaceFn : jstring -> jstring)
    (originalText : jstring) (id : nat) :
  let frag := fst (createSegmentedTranslationFragment rubySwap replaceFn originalText id) in
  flat_map (if rubySwap then baseText else annotationText) frag = originalText
  /\ flat_map (if rubySwap then annotationText else baseText) frag
     = concat (map (translatedPart replaceFn) (splitRuns originalText)).
Proof.
  unfold createSegmentedTranslationFragment.
  destruct (segmentNodes_texts rubySwap replaceFn (splitRuns originalText) id)
    as [H1 H2].
  split; [|exact H2]. rewrite H1. unfold splitRuns. apply splitRunsFrom_concat.
Qed.

(** Keys without white space. *)
Section KeysWithoutWhiteSpace.

Variable re : regexp.
Variable fn : jstring -> jstring.
Hypothesis Hkeys : forall k, In k re -> k <> [] /\ forallb notWhiteSpace k = true.

Lemma matchAt_whiteSpace (c : jschar) (t : jstring) :
  isWhiteSpace c = true -> matchAt re (c :: t) = None.
Proof.
  intros Hc. apply matchAt_None. intros k Hk.
  destruct (Hkeys k Hk) as [Hne Hws].
  destruct k as [|x k]; [congruence|]. simpl in *.
  apply andb_true_iff in Hws as [Hx _].
  destruct (x =? c)%N eqn:E; [|reflexivity].
  apply N.eqb_eq in E. subst x. unfold notWhiteSpace in Hx. now rewrite Hc in Hx.
Qed.

Lemma matchAt_nil : matchAt re [] = None.
Proof.
  apply matchAt_None. intros k Hk. destruct (Hkeys k Hk) as [Hne _].
  destruct k; [congruence | reflexivity].
Qed.

Lemma replaceFrom_whiteSpace (w t : jstring) :
  forallb isWhiteSpace w = true ->
  replaceFrom re fn (w ++ t) 0 = w ++ replaceFrom re fn t 0.
Proof.
  induction w as [|c w IH]; intros H; [reflexivity|].
  simpl in H. apply andb_true_iff in H as [Hc Hw].
  simpl app. cbn [replaceFrom]. rewrite (matchAt_whiteSpace c (w ++ t) Hc).
  now rewrite IH.
Qed.

Lemma startsWith_boundary (k p t : jstring) :
  forallb notWhiteSpace k = true -> atBoundary t ->
  startsWith k (p ++ t) = startsWith k p.
Proof.
  intros Hk Ht. revert p; induction k as [|x k IH]; intros p; [reflexivity|].
  simpl in Hk. apply andb_true_iff in Hk as [Hx Hk].
  destruct p as [|y p]; simpl.
  - destruct t as [|c t]; [reflexivity|]. simpl in Ht.
    destruct (x =? c)%N eqn:E; [|reflexivity].
    apply N.eqb_eq in E. subst x. unfold notWhiteSpace in Hx. now rewrite Ht in Hx.
  - now rewrite IH.
Qed.

Lemma matchAt_boundary (p t : jstring) :
  atBoundary t -> matchAt re (p ++ t) = matchAt re p.
Proof.
  intros Ht. clear fn. induction re as [|k re' IH]; [reflexivity|]. simpl.
  rewrite startsWith_boundary; [| apply Hkeys; now left | exact Ht].
  destruct (startsWith k p); [reflexivity|].
  apply IH. intros k' Hk'. apply Hkeys. now right.
Qed.

Lemma replaceFrom_boundary (p t : jstring) (n : nat) :
  atBoundary t -> n <= length p ->
  replaceFrom re fn (p ++ t) n = replaceFrom re fn p n ++ replaceFrom re fn t 0.
Proof.
  intros Ht. revert n; induction p as [|c p IH]; intros n Hn.
  - simpl in Hn. assert (n = 0) by lia. subst n. simpl app.
    cbn [replaceFrom]. now rewrite matchAt_nil.
  - simpl app. destruct n as [|n]; cbn [replaceFrom].
    + change (c :: p ++ t) with ((c :: p) ++ t).
      rewrite matchAt_boundary by exact Ht.
      destruct (matchAt re (c :: p)) as [[|x m]|] eqn:E.
      * rewrite IH by (simpl; lia). now rewrite <- app_assoc.
      * apply matchAt_Some in E as [_ Hpre].
        apply startsWith_length in Hpre. simpl in Hpre.
        rewrite IH by lia. now rewrite <- app_assoc.
      * now rewrite IH by (simpl; lia).
    + apply IH. simpl in Hn. lia.
Qed.

Lemma forallb_homogeneous (cur : jstring) (ws : bool) :
  Forall (fun c => isWhiteSpace c = ws) cur -> cur <> [] ->
  forallb isWhiteSpace cur = ws.
Proof.
  intros H. induction H as [|x l Hx Hl IH]; [congruence|]. intros _.
  simpl. rewrite Hx. destruct ws; [|reflexivity]. simpl.
  destruct l; [reflexivity|]. apply IH. discriminate.
Qed.

Lemma translatedPart_whiteSpace (w : jstring) :
  forallb isWhiteSpace w = true -> replaceFrom re fn w 0 = w.
Proof.
  intros H. rewrite <- (app_nil_r w) at 1.
  rewrite replaceFrom_whiteSpace by exact H.
  cbn [replaceFrom]. now rewrite matchAt_nil, app_nil_r.
Qed.

Lemma translatedPart_replace (part : jstring) :
  translatedPart (fun text => replaceFrom re fn text 0) part
  = replaceFrom re fn part 0.
Proof.
  unfold translatedPart.
  destruct (forallb isWhiteSpace part) eqn:E; [|reflexivity].
  symmetry. now apply translatedPart_whiteSpace.
Qed.

Lemma replaceFrom_parts (s cur : jstring) (ws : bool) :
  Forall (fun c => isWhiteSpace c = ws) cur ->
  concat (map (translatedPart (fun text => replaceFrom re fn text 0))
            (splitRunsFrom s cur ws))
  = replaceFrom re fn (cur ++ s) 0.
Proof.
  revert cur ws; induction s as [|c s IH]; intros cur ws Hcur.
  - cbn [splitRunsFrom]. rewrite app_nil_r.
    destruct (isEmpty cur) eqn:Ee.
    + apply isEmpty_true in Ee. subst cur. cbn [map concat replaceFrom].
      now rewrite matchAt_nil.
    + cbn [map concat]. now rewrite translatedPart_replace, app_nil_r.
  - cbn [splitRunsFrom].
    destruct (Bool.eqb (isWhiteSpace c) ws) eqn:Ec.
    + apply eqb_prop in Ec. rewrite IH.
      * now rewrite <- app_assoc.
      * apply Forall_app. split; [exact Hcur|]. now constructor.
    + assert (Hone : Forall (fun x => isWhiteSpace x = isWhiteSpace c) [c])
        by now constructor.
      destruct (isEmpty cur) eqn:Ee.
      * apply isEmpty_true in Ee. subst cur. now rewrite IH.
      * cbn [map concat]. rewrite IH by exact Hone.
        rewrite translatedPart_replace. simpl app.
        apply isEmpty_false in Ee.
        pose proof (forallb_homogeneous cur ws Hcur Ee) as Hall.
        destruct ws.
        -- rewrite replaceFrom_whiteSpace by exact Hall.
           now rewrite translatedPart_whiteSpace.
        -- symmetry. apply replaceFrom_boundary; [|lia].
           simpl. now destruct (isWhiteSpace c).
Qed.

End KeysWithoutWhiteSpace.

(** X14: when no key is empty or holds white space, the line of the
    fragment that shows the translation reads what the replacer gives for
    the whole text, which is the [after] that the pass reports. *)
Theorem fragment_shows_translation (rubySwap : bool) (mapping : jsobj)
    (originalText : jstring) (id : nat) :
  (forall k, In k (obj_keys mapping) ->
             k <> [] /\ forallb notWhiteSpace k = true) ->
  flat_map (if rubySwap then annotationText else baseText)
    (fst (createSegmentedTranslationFragment rubySwap (replacerOf mapping)
            originalText id))
  = replacerOf mapping originalText.
Proof.
  intros Hkeys.
  unfold createSegmentedTranslationFragment.
  destruct (segmentNodes_texts rubySwap (replacerOf mapping) (splitRuns originalText) id)
    as [_ ->].
  unfold replacerOf. destruct mapping as [|e mapping].
  - simpl. unfold splitRuns.
    rewrite <- (splitRunsFrom_concat originalText [] false) at 2.
    f_equal. rewrite <- (map_id (splitRunsFrom originalText [] false)) at 2.
    apply map_ext. intros part. unfold translatedPart. now destruct (forallb _ _).
  - rewrite buildReplacer_replace by discriminate.
    unfold replace, splitRuns. rewrite replaceFrom_parts; [reflexivity | | constructor].
    intros k Hk. apply Hkeys. now apply sortByLength_keys_In.
Qed.

(** Three words and two runs of white space. *)
Lemma fragment_shows_translation_witness :
  flat_map baseText
    (fst (createSegmentedTranslationFragment false
            (replacerOf [(js "A", js "B"); (js "B", js "C")]) (js "A x  BA") 0))
  = replacerOf [(js "A", js "B"); (js "B", js "C")] (js "A x  BA").
Proof.
  apply (fragment_shows_translation false
           [(js "A", js "B"); (js "B", js "C")] (js "A x  BA") 0).
  intros k [<-|[<-|[]]]; split; (discriminate || reflexivity).
Defined.

(** X15: with keys that are not empty and hold no white space the
    replacer works word by word: a run of white space stays as it is, and
    the texts on either side of it are replaced independently. *)
Theorem replacer_works_word_by_word (mapping : jsobj) (p w q : jstring) :
  (forall k, In k (obj_keys mapping) ->
             k <> [] /\ forallb notWhiteSpace k = true) ->
  forallb isWhiteSpace w = true ->
  w <> [] ->
  replacerOf mapping (p ++ w ++ q)
  = replacerOf mapping p ++ w ++ replacerOf mapping q.
Proof.
  intros Hkeys Hw Hne. unfold replacerOf.
  destruct mapping as [|e mapping]; [reflexivity|].
  rewrite buildReplacer_replace by discriminate. unfold replace.
  assert (Hre : forall k, In k (map fst (sortByLength (e :: mapping))) ->
                          k <> [] /\ forallb notWhiteSpace k = true).
  { intros k Hk. apply Hkeys. now apply sortByLength_keys_In. }
  rewrite replaceFrom_boundary; [| exact Hre | | lia].
  - now rewrite replaceFrom_whiteSpace.
  - destruct w as [|c w]; [congruence|]. simpl in *.
    now apply andb_true_iff in Hw as [Hc _].
Qed.

(** Two words around two spaces. *)
Lemma replacer_works_word_by_word_witness :
  replacerOf [(js "AB", js "x"); (js "B", js "y")] (js "AB" ++ js "  " ++ js "BA")
  = replacerOf [(js "AB", js "x"); (js "B", js "y")] (js "AB") ++ js "  "
    ++ replacerOf [(js "AB", js "x"); (js "B", js "y")] (js "BA").
Proof.
  apply (replacer_works_word_by_word [(js "AB", js "x"); (js "B", js "y")]
           (js "AB") (js "  ") (js "BA")).
  - intros k [<-|[<-|[]]]; split; (discriminate || reflexivity).
  - reflexivity.
  - discriminate.
Defined.

(* ================================================================= *)
(** ** DOM Rewriting Engine: passes that change nothing, and the way back *)

Section SettledText.

Variable rubySwap : bool.
Variable replaceFn : jstring -> jstring.

Lemma translateTextNode_settled (p : pass) (textNode : nat) :
  (forall i current ancestors,
     locateNode (doc p) textNode = Some (Text i current, ancestors) ->
     shouldIgnoreTextNode (doc p) ancestors = true
     \/ trim current = []
     \/ (closest isWrapper ancestors = None
         /\ replaceFn (originalOf (doc p) textNode current) = current)) ->
  translateTextNode rubySwap replaceFn p textNode = p.
Proof.
  intros H. unfold translateTextNode.
  destruct (locateNode (doc p) textNode) as [[[i current|] ancestors]|];
    try reflexivity.
  destruct (H i current ancestors eq_refl) as [Hi|[Hb|[Hw Hs]]].
  - now rewrite Hi.
  - destruct (shouldIgnoreTextNode (doc p) ancestors); [reflexivity|].
    rewrite blank_current, Hb. reflexivity.
  - destruct (shouldIgnoreTextNode (doc p) ancestors); [reflexivity|].
    destruct (isEmpty current || _); [reflexivity|].
    rewrite Hw. unfold originalOf in Hs. now rewrite Hs, str_eqb_refl.
Qed.

End SettledText.

(** X16: a pass over a document in which every text node is ignored, is
    blank, or stands outside every translated wrapper with a replacement
    equal to its current text, changes nothing: the document is the same,
    no change is counted and no sample is taken. *)
Theorem pass_over_settled_text_changes_nothing
    (rubySwap : bool) (replaceFn : jstring -> jstring) (d : document) (root : nat) :
  (forall textNode i current ancestors,
     locateNode d textNode = Some (Text i current, ancestors) ->
     shouldIgnoreTextNode d ancestors = true
     \/ trim current = []
     \/ (closest isWrapper ancestors = None
         /\ replaceFn (originalOf d textNode current) = current)) ->
  translateRoot rubySwap replaceFn d root = mkPass d 0 [] [].
Proof.
  intros H. unfold translateRoot.
  destruct (locateNode d root) as [[r anc]|]; [|reflexivity].
  induction (walkTextNodes r) as [|textNode l IH]; [reflexivity|].
  cbn [fold_left]. rewrite translateTextNode_settled; [exact IH|].
  cbn [doc]. apply H.
Qed.

(** A paragraph without a key and a style sheet with one. *)
Lemma pass_over_settled_text_changes_nothing_witness :
  translateRoot false (replacerOf [(js "A", js "B")])
    (mkDocument
       (Element 0 (js "BODY") [] None false
          [Element 1 (js "P") [] None false [Text 2 (js "hello")];
           Element 3 STYLE [] None false [Text 4 (js "A{}")]])
       [] [] 5 None false) 0
  = mkPass
      (mkDocument
         (Element 0 (js "BODY") [] None false
            [Element 1 (js "P") [] None false [Text 2 (js "hello")];
             Element 3 STYLE [] None false [Text 4 (js "A{}")]])
         [] [] 5 None false) 0 [] [].
Proof.
  apply pass_over_settled_text_changes_nothing.
  intros textNode i current ancestors H.
  destruct textNode as [|[|[|[|[|n]]]]]; try discriminate H.
  - injection H as <- <- <-. right. right. split; reflexivity.
  - injection H as <- <- <-. left. reflexivity.
Defined.

(* ----------------------------------------------------------------- *)
(** *** The way back *)

Lemma matching_none (sel : element -> bool) (n : node) :
  (forall e, In e (elements n) -> sel e = false) -> matching sel n = [].
Proof.
  induction n as [i v|i t c o e cs IH] using node_induction; intros H;
    [reflexivity|].
  simpl. rewrite (H (mkElement i t c o e)) by now left. simpl.
  assert (Hcs : forall e', In e' (flat_map elements cs) -> sel e' = false).
  { intros e' He'. apply H. now right. }
  clear H. induction IH as [|ch cs Hch Hcs' IHcs]; [reflexivity|].
  simpl. rewrite Hch, IHcs; [reflexivity | |].
  - intros e' He'. apply Hcs. simpl. apply in_or_app. now right.
  - intros e' He'. apply Hcs. simpl. apply in_or_app. now left.
Qed.

Section WayBack.

Variable rubySwap : bool.
Variable replaceFn : jstring -> jstring.
Variable original : jstring.

Let pass (d : document) : document := doc (translateRoot rubySwap replaceFn d 0).

Lemma passes_over_paragraph (n : nat) :
  Nat.iter n pass (pass (paragraph original)) = paragraph original
  \/ exists s,
       body (Nat.iter n pass (pass (paragraph original)))
       = wrappedParagraph rubySwap replaceFn original s
       /\ 3 < s
       /\ wellFormed (Nat.iter n pass (pass (paragraph original))).
Proof.
  unfold pass.
  destruct (first_pass_paragraph rubySwap replaceFn original) as [E|[Hbody Hwf]].
  - left. rewrite E.
    induction n as [|n IHn]; [reflexivity|]. simpl. now rewrite IHn.
  - right. induction n as [|n IH].
    + exists 4. simpl. split; [exact Hbody|]. split; [lia | exact Hwf].
    + destruct IH as (s & Hb & Hs & Hw). simpl.
      now apply translateRoot_wrappedParagraph with (s := s).
Qed.

Lemma restore_wrappedParagraph (d : document) (s : nat) :
  body d = wrappedParagraph rubySwap replaceFn original s ->
  wellFormed d ->
  body (restoreTranslatedInRoot d 0)
  = Element 0 (js "BODY") [] None false
      [Element 1 (js "P") [] None false [Text (nextId d) original]].
Proof.
  intros Hbody Hwf.
  set (frag := fst (createSegmentedTranslationFragment rubySwap replaceFn original s)).
  assert (Hroot : locateNode d 0 = Some (body d, [])).
  { unfold locateNode. cbn [locateFirst]. now rewrite Hbody. }
  assert (Hsel : querySelectorAll isWrapper (body d) = [3]).
  { rewrite Hbody. unfold wrappedParagraph, querySelectorAll.
    cbn [flat_map matching]. rewrite !app_nil_r.
    change (isWrapper (mkElement 1 (js "P") [] None false)) with false.
    change (isWrapper (mkElement 3 SPAN [OKECHIKA_TRANSLATED] (Some original) false))
      with true.
    cbn [app]. f_equal.
    fold frag. clear Hbody. 
    assert (H : forall e, In e (flat_map elements frag) -> isWrapper e = false).
    { intros e He.
      now apply (segmentNodes_elements rubySwap replaceFn (splitRuns original) s). }
    induction frag as [|ch l IHl]; [reflexivity|]. simpl.
    rewrite matching_none, IHl; [reflexivity | |].
    - intros e He. apply H. simpl. apply in_or_app. now right.
    - intros e He. apply H. simpl. apply in_or_app. now left. }
  assert (Hloc : locateNode d 3
                 = Some (Element 3 SPAN [OKECHIKA_TRANSLATED] (Some original) false frag,
                         [mkElement 1 (js "P") [] None false;
                          mkElement 0 (js "BODY") [] None false])).
  { unfold locateNode. cbn [locateFirst]. now rewrite Hbody. }
  assert (Hdet : existsb (fun t => nodeId t =? 3) (detached d) = false).
  { destruct (existsb _ (detached d)) eqn:E; [|reflexivity].
    apply existsb_exists in E as (t & Ht & Hid). apply Nat.eqb_eq in Hid.
    destruct Hwf as [_ Hdis]. exfalso. apply (Hdis t 3 Ht).
    - rewrite <- Hid. apply nodeId_In_ids.
    - rewrite Hbody. unfold wrappedParagraph. simpl. auto. }
  unfold restoreTranslatedInRoot. rewrite Hroot, Hsel. cbn [fold_left].
  unfold restoreWrapper. rewrite Hloc. unfold replaceInParent. rewrite Hloc, Hdet.
  rewrite Hbody.
  change (nodeId (wrappedParagraph rubySwap replaceFn original s) =? 3) with false.
  cbv iota.
  set (d' := mkDocument _ _ _ _ _ _).
  assert (Hb' : body d' = Element 0 (js "BODY") [] None false
                            [Element 1 (js "P") [] None false
                               [Text (nextId d) original]]) by reflexivity.
  assert (Hroot' : locateNode d' 0 = Some (body d', [])).
  { unfold locateNode. cbn [locateFirst]. now rewrite Hb'. }
  rewrite Hroot', Hb'. reflexivity.
Qed.

End WayBack.

(** X17: the way back.  On the page of one paragraph, after one pass or
    more, [restoreTranslatedInRoot] renders the page as it was before the
    first pass, for every text, every replacer and either orientation of
    the ruby. *)
Theorem restore_gives_back_the_paragraph
    (rubySwap : bool) (replaceFn : jstring -> jstring) (original : jstring)
    (n : nat) :
  let pass := fun d => doc (translateRoot rubySwap replaceFn d 0) in
  rendered (body (restoreTranslatedInRoot
                    (Nat.iter n pass (pass (paragraph original))) 0))
  = rendered (body (paragraph original)).
Proof.
  cbv zeta.
  destruct (passes_over_paragraph rubySwap replaceFn original n)
    as [E|(s & Hb & _ & Hwf)].
  - rewrite E. reflexivity.
  - now rewrite (restore_wrappedParagraph rubySwap replaceFn original _ s Hb Hwf).
Qed.

(* ================================================================= *)
(** ** DOM Rewriting Engine: what a pass reports and remembers *)

Section PassReport.

Variable rubySwap : bool.
Variable replaceFn : jstring -> jstring.

(** A step leaves the state of the pass as it is or counts one change. *)
Lemma translateTextNode_cases (p : pass) (textNode : nat) :
  translateTextNode rubySwap replaceFn p textNode = p
  \/ exists original after d processed,
       translateTextNode rubySwap replaceFn p textNode
       = countChange original after p d processed
       /\ forall n o, weak_get (ORIGINAL_TEXT_BY_NODE (doc p)) n = Some o ->
                      weak_get (ORIGINAL_TEXT_BY_NODE d) n = Some o.
Proof.
  unfold translateTextNode.
  destruct (locateNode (doc p) textNode) as [[[i current|] ancestors]|];
    try (now left).
  destruct (shouldIgnoreTextNode (doc p) ancestors); [now left|].
  destruct (isEmpty current || _); [now left|].
  destruct (closest isWrapper ancestors) as [wrapper|].
  - destruct (existsb _ (processedWrappers p)); [now left|]. right.
    destruct (str_eqb (el_tagName wrapper) RUBY).
    + unfold newContainer.
      destruct (createSegmentedTranslationFragment _ _ _ _) as [frag id'].
      eexists _, _, _, _. split; [reflexivity|].
      unfold replaceInParent.
      destruct (locateNode _ (el_id wrapper)) as [[old ?]|]; [|now simpl].
      destruct (nodeId _ =? el_id wrapper); [now simpl|].
      destruct (existsb _ _); now simpl.
    + eexists _, _, _, _. split; [reflexivity|].
      unfold fillTranslatedContainer.
      destruct (locateNode _ (el_id wrapper)) as [[container ?]|]; [|now simpl].
      destruct (createSegmentedTranslationFragment _ _ _ _) as [frag id'].
      now simpl.
  - destruct (str_eqb _ current); [now left|].
    destruct ancestors as [|parent ancestors]; [now left|]. right.
    destruct (canWrapWithSpan parent).
    + unfold newContainer.
      destruct (createSegmentedTranslationFragment _ _ _ _) as [frag id'].
      eexists _, _, _, _. split; [reflexivity|].
      unfold replaceInParent.
      destruct (locateNode _ textNode) as [[old ?]|]; [|now simpl].
      destruct (nodeId _ =? textNode); [now simpl|].
      destruct (existsb _ _); now simpl.
    + eexists _, _, _, _. split; [reflexivity|].
      intros n o Hn. cbn [setNodeValue setTrees ORIGINAL_TEXT_BY_NODE].
      destruct (weak_has (ORIGINAL_TEXT_BY_NODE (doc p)) textNode) eqn:Eh;
        [exact Hn|].
      cbn [rememberOriginal ORIGINAL_TEXT_BY_NODE].
      assert (Hne : textNode <> n).
      { intros ->. unfold weak_has in Eh. now rewrite Hn in Eh. }
      clear Eh. induction (ORIGINAL_TEXT_BY_NODE (doc p)) as [|[j w] m IH];
        [discriminate|].
      simpl in *. destruct (j =? textNode) eqn:Ej.
      * apply Nat.eqb_eq in Ej. subst j. simpl.
        apply Nat.eqb_neq in Hne. rewrite Hne in *. exact Hn.
      * simpl. destruct (j =? n); [exact Hn | now apply IH].
Qed.

Lemma countChange_bounded (original after : jstring) (p : pass) (d : document)
    (processed : list nat) :
  boundedReport p -> boundedReport (countChange original after p d processed).
Proof.
  intros [Hlen Hall]. unfold boundedReport, countChange. cbn [samples changedNodes].
  destruct (length (samples p) <? 3) eqn:E.
  - apply Nat.ltb_lt in E. split.
    + rewrite length_app. cbn [length]. lia.
    + apply Forall_app. split; [exact Hall|]. constructor; [|constructor].
      unfold slice0. cbn [fst snd]. rewrite !length_firstn. lia.
  - apply Nat.ltb_ge in E. split; [lia | exact Hall].
Qed.

Lemma fold_translateTextNode (l : list nat) (p : pass) :
  let q := fold_left (translateTextNode rubySwap replaceFn) l p in
  (boundedReport p -> boundedReport q)
  /\ changedNodes q <= changedNodes p + length l
  /\ forall n o, weak_get (ORIGINAL_TEXT_BY_NODE (doc p)) n = Some o ->
                 weak_get (ORIGINAL_TEXT_BY_NODE (doc q)) n = Some o.
Proof.
  revert p; induction l as [|textNode l IH]; intros p; cbn [fold_left].
  - split; [tauto|]. split; [simpl; lia | tauto].
  - destruct (IH (translateTextNode rubySwap replaceFn p textNode)) as (Hb & Hc & Ho).
    destruct (translateTextNode_cases p textNode)
      as [E|(original & after & d & processed & E & Hkeep)]; rewrite E in *.
    + split; [exact Hb|]. split; [simpl; lia | exact Ho].
    + split; [|split].
      * intros Hp. apply Hb. now apply countChange_bounded.
      * simpl in *. lia.
      * intros n o Hn. apply Ho. cbn [doc countChange]. now apply Hkeep.
Qed.

End PassReport.

(** X18: what a pass reports is bounded: it holds as many samples as
    changes up to three, each side of a sample has at most 80 code units,
    and the changes counted are at most the text nodes under the root. *)
Theorem pass_report_is_bounded (rubySwap : bool) (replaceFn : jstring -> jstring)
    (d : document) (root : nat) :
  let p := translateRoot rubySwap replaceFn d root in
  length (samples p) = Nat.min 3 (changedNodes p)
  /\ Forall (fun s => length (fst s) <= 80 /\ length (snd s) <= 80) (samples p)
  /\ forall r ancestors,
       locateNode d root = Some (r, ancestors) ->
       changedNodes p <= length (walkTextNodes r).
Proof.
  cbv zeta. unfold translateRoot.
  destruct (locateNode d root) as [[r anc]|].
  - destruct (fold_translateTextNode rubySwap replaceFn (walkTextNodes r)
                (mkPass d 0 [] [])) as (Hb & Hc & _).
    destruct Hb as [Hlen Hall]; [split; [reflexivity | constructor]|].
    split; [exact Hlen|]. split; [exact Hall|].
    intros r' anc' H. injection H as <- _. exact Hc.
  - split; [reflexivity|]. split; [constructor | discriminate].
Qed.

(** The paragraph has one text node: at most one change. *)
Lemma pass_report_is_bounded_witness :
  changedNodes (translateRoot false (replacerOf [(js "A", js "B")])
                  (paragraph (js "A A")) 0) <= 1.
Proof.
  exact (proj2 (proj2 (pass_report_is_bounded false (replacerOf [(js "A", js "B")])
                         (paragraph (js "A A")) 0))
           (body (paragraph (js "A A"))) [] eq_refl).
Defined.

(** X19: an original remembered for a text node is never overwritten: it
    is in [ORIGINAL_TEXT_BY_NODE] after a pass as it was before. *)
Theorem remembered_original_is_kept (rubySwap : bool)
    (replaceFn : jstring -> jstring) (d : document) (root textNode : nat)
    (original : jstring) :
  weak_get (ORIGINAL_TEXT_BY_NODE d) textNode = Some original ->
  weak_get (ORIGINAL_TEXT_BY_NODE (doc (translateRoot rubySwap replaceFn d root)))
    textNode = Some original.
Proof.
  intros H. unfold translateRoot.
  destruct (locateNode d root) as [[r anc]|]; [|exact H].
  now apply (fold_translateTextNode rubySwap replaceFn (walkTextNodes r)
               (mkPass d 0 [] [])).
Qed.

(** A text changed by the page after its in-place translation: the pass
    translates the remembered original again and keeps it. *)
Lemma remembered_original_is_kept_witness :
  weak_get
    (ORIGINAL_TEXT_BY_NODE
       (doc (translateRoot false (replacerOf [(js "A", js "B"); (js "B", js "C")])
               (mkDocument
                  (Element 0 (js "BODY") [] None false
                     [Element 1 HEAD [] None false [Text 2 (js "X")]])
                  [] [(2, js "A")] 3 None false) 0))) 2
  = Some (js "A").
Proof.
  apply remembered_original_is_kept. reflexivity.
Defined.

(* ================================================================= *)
(** ** DOM Rewriting Engine: text translated in place *)

Section InPlace.

Variable rubySwap : bool.
Variable replaceFn : jstring -> jstring.
Variable text : jstring.

Let pass (d : document) : document := doc (translateRoot rubySwap replaceFn d 0).

Lemma first_pass_in_place :
  pass (unwrappable text)
  = if isEmpty (trim text) || str_eqb (replaceFn text) text
    then unwrappable text
    else translatedInPlace replaceFn text.
Proof.
  unfold pass, translateRoot.
  assert (Hroot : locateNode (unwrappable text) 0
                  = Some (body (unwrappable text), [])) by reflexivity.
  rewrite Hroot.
  cbn [body unwrappable walkTextNodes flat_map textNodes app fold_left].
  fold (unwrappable text). unfold translateTextNode. cbn [doc].
  assert (Htext : locateNode (unwrappable text) 2
                  = Some (Text 2 text,
                          [mkElement 1 HEAD [] None false;
                           mkElement 0 (js "BODY") [] None false])) by reflexivity.
  rewrite Htext.
  assert (Hign : shouldIgnoreTextNode (unwrappable text)
                   [mkElement 1 HEAD [] None false;
                    mkElement 0 (js "BODY") [] None false] = false) by reflexivity.
  rewrite Hign, blank_current.
  destruct (isEmpty (trim text)); [reflexivity|].
  assert (Hwrap : closest isWrapper
                    [mkElement 1 HEAD [] None false;
                     mkElement 0 (js "BODY") [] None false] = None) by reflexivity.
  rewrite Hwrap. cbn [ORIGINAL_TEXT_BY_NODE unwrappable weak_get orb].
  destruct (str_eqb (replaceFn text) text); [reflexivity|].
  reflexivity.
Qed.

Lemma second_pass_in_place :
  pass (translatedInPlace replaceFn text) = translatedInPlace replaceFn text.
Proof.
  unfold pass, translateRoot.
  assert (Hroot : locateNode (translatedInPlace replaceFn text) 0
                  = Some (body (translatedInPlace replaceFn text), []))
    by reflexivity.
  rewrite Hroot.
  cbn [body translatedInPlace walkTextNodes flat_map textNodes app fold_left].
  fold (translatedInPlace replaceFn text). unfold translateTextNode. cbn [doc].
  assert (Htext : locateNode (translatedInPlace replaceFn text) 2
                  = Some (Text 2 (replaceFn text),
                          [mkElement 1 HEAD [] None false;
                           mkElement 0 (js "BODY") [] None false])) by reflexivity.
  rewrite Htext.
  assert (Hign : shouldIgnoreTextNode (translatedInPlace replaceFn text)
                   [mkElement 1 HEAD [] None false;
                    mkElement 0 (js "BODY") [] None false] = false) by reflexivity.
  rewrite Hign.
  destruct (isEmpty (replaceFn text) || _); [reflexivity|].
  assert (Hwrap : closest isWrapper
                    [mkElement 1 HEAD [] None false;
                     mkElement 0 (js "BODY") [] None false] = None) by reflexivity.
  rewrite Hwrap.
  assert (Hget : weak_get (ORIGINAL_TEXT_BY_NODE (translatedInPlace replaceFn text)) 2
                 = Some text) by reflexivity.
  rewrite Hget. now rewrite str_eqb_refl.
Qed.

Lemma passes_in_place (n : nat) :
  Nat.iter n pass (pass (unwrappable text)) = pass (unwrappable text).
Proof.
  induction n as [|n IH]; [reflexivity|].
  change (Nat.iter (S n) pass (pass (unwrappable text)))
    with (pass (Nat.iter n pass (pass (unwrappable text)))).
  rewrite IH. rewrite first_pass_in_place.
  destruct (isEmpty (trim text) || str_eqb (replaceFn text) text) eqn:E.
  - rewrite first_pass_in_place. now rewrite E.
  - apply second_pass_in_place.
Qed.

End InPlace.

(** X20: text translated in place settles with the first pass.  Under a
    parent that cannot take a wrapper the text becomes the replacement of
    the original (a blank text stays), and every later pass recomputes
    from the remembered original and leaves the whole state as it is: no
    replacement is made of a replacement. *)
Theorem in_place_translation_settles (rubySwap : bool)
    (replaceFn : jstring -> jstring) (text : jstring) (n : nat) :
  let pass := fun d => doc (translateRoot rubySwap replaceFn d 0) in
  Nat.iter n pass (pass (unwrappable text)) = pass (unwrappable text)
  /\ body (pass (unwrappable text))
     = Element 0 (js "BODY") [] None false
         [Element 1 HEAD [] None false
            [Text 2 (if isEmpty (trim text) then text else replaceFn text)]].
Proof.
  cbv beta zeta. split; [apply passes_in_place|].
  rewrite first_pass_in_place.
  destruct (isEmpty (trim text)); [reflexivity|]. cbn [orb].
  destruct (str_eqb (replaceFn text) text) eqn:E; [|reflexivity].
  apply str_eqb_eq in E. now rewrite E.
Qed.

(* ================================================================= *)
(** ** Form fields *)

Section FormFieldFacts.

Variable replaceFn : jstring -> jstring.

Ltac field_step :=
  cbn [fst snd fld_value fld_original fld_fontFamily fld_active fld_sanitize
       setValue setOriginal setFontFamily].

Lemma translateField_again (el : formField) :
  fst (translateField replaceFn (fst (translateField replaceFn el)))
  = fst (translateField replaceFn el).
Proof.
  destruct el as [v o f a san].
  assert (Hsame : forall el', translateField replaceFn el' = (el', false) ->
            fst (translateField replaceFn (fst (translateField replaceFn el')))
            = fst (translateField replaceFn el')).
  { intros el' H. rewrite H. cbn [fst]. now rewrite H. }
  destruct a; [apply Hsame; reflexivity|].
  destruct (isEmpty v || (length (trim v) =? 0)) eqn:Eb.
  { apply Hsame. unfold translateField. field_step. now rewrite Eb. }
  set (original := match o with Some o' => o' | None => v end).
  destruct (str_eqb (replaceFn original) v) eqn:Ec.
  { apply Hsame. unfold translateField. field_step. fold original.
    now rewrite Eb, Ec. }
  assert (E1 : translateField replaceFn (mkField v o f false san)
               = (mkField (san (replaceFn original)) (Some original) FIELD_FONT
                    false san, true)).
  { unfold translateField. field_step. fold original. rewrite Eb, Ec.
    cbn [negb]. unfold original.
    destruct o as [o'|]; [destruct (isEmpty o')|]; field_step; reflexivity. }
  rewrite E1. field_step.
  unfold translateField. field_step.
  destruct (isEmpty (san (replaceFn original)) || _); [reflexivity|].
  destruct (negb (str_eqb _ _)); [|reflexivity].
  destruct (isEmpty original); reflexivity.
Qed.

Lemma translateField_counted_once (el : formField) :
  (forall v, fld_sanitize el v = v) ->
  snd (translateField replaceFn (fst (translateField replaceFn el))) = false.
Proof.
  destruct el as [v o f a san]. cbn [fld_sanitize]. intros Hsan.
  assert (Hsame : forall el', translateField replaceFn el' = (el', false) ->
            snd (translateField replaceFn (fst (translateField replaceFn el')))
            = false).
  { intros el' H. rewrite H. cbn [fst]. now rewrite H. }
  destruct a; [apply Hsame; reflexivity|].
  destruct (isEmpty v || (length (trim v) =? 0)) eqn:Eb.
  { apply Hsame. unfold translateField. field_step. now rewrite Eb. }
  set (original := match o with Some o' => o' | None => v end).
  destruct (str_eqb (replaceFn original) v) eqn:Ec.
  { apply Hsame. unfold translateField. field_step. fold original.
    now rewrite Eb, Ec. }
  assert (E1 : translateField replaceFn (mkField v o f false san)
               = (mkField (san (replaceFn original)) (Some original) FIELD_FONT
                    false san, true)).
  { unfold translateField. field_step. fold original. rewrite Eb, Ec.
    cbn [negb]. unfold original.
    destruct o as [o'|]; [destruct (isEmpty o')|]; field_step; reflexivity. }
  rewrite E1. field_step.
  unfold translateField. field_step. rewrite Hsan.
  destruct (isEmpty (replaceFn original) || _); [reflexivity|].
  now rewrite str_eqb_refl.
Qed.

End FormFieldFacts.

(** X21: form fields settle after one pass: a second call of
    [translateFormFields] leaves every field as the first call left it,
    and it counts no change when the fields give back the values that
    they are assigned. *)
Theorem form_fields_settle_after_one_pass (replaceFn : jstring -> jstring)
    (nodes : list formField) :
  let once := translateFormFields replaceFn (Some nodes) in
  let twice := translateFormFields replaceFn (Some (fst once)) in
  fst twice = fst once
  /\ ((forall el v, In el nodes -> fld_sanitize el v = v) -> snd twice = 0).
Proof.
  assert (Hfold : forall l acc,
            fold_left (fun acc el =>
                         let (el', changed) := translateField replaceFn el in
                         (fst acc ++ [el'],
                          if changed then S (snd acc) else snd acc)) l acc
            = (fst acc ++ map (fun el => fst (translateField replaceFn el)) l,
               snd acc + length (filter (fun el => snd (translateField replaceFn el)) l))).
  { induction l as [|el l IH]; intros [els n]; simpl.
    - now rewrite app_nil_r, Nat.add_0_r.
    - rewrite IH. destruct (translateField replaceFn el) as [el' [|]]; simpl.
      + rewrite <- app_assoc. f_equal. lia.
      + now rewrite <- app_assoc. }
  cbv zeta. unfold translateFormFields. rewrite !Hfold. cbn [fst snd app plus].
  split.
  - rewrite map_map. apply map_ext. intros el. apply translateField_again.
  - intros Hsan. induction nodes as [|el nodes IH]; [reflexivity|].
    cbn [map filter]. rewrite translateField_counted_once.
    + apply IH. intros el' v Hel'. apply Hsan. now right.
    + intros v. apply Hsan. now left.
Qed.

(** A field that reads AB, with A -> B and B -> C. *)
Lemma form_fields_settle_after_one_pass_witness :
  snd (translateFormFields (replacerOf [(js "A", js "B"); (js "B", js "C")])
         (Some (fst (translateFormFields
                       (replacerOf [(js "A", js "B"); (js "B", js "C")])
                       (Some [mkField (js "AB") None [] false (fun v => v)])))))
  = 0.
Proof.
  apply (form_fields_settle_after_one_pass
           (replacerOf [(js "A", js "B"); (js "B", js "C")])
           [mkField (js "AB") None [] false (fun v => v)]).
  intros el v [<-|[]]. reflexivity.
Defined.

(** X22: a field without the marker attribute whose value reads back as
    assigned has, after [translateFormFields] and then the second loop of
    [restoreTranslatedInRoot], the value it had and no marker attribute
    (the inline font family that the translation set stays). *)
Theorem restored_field_reads_as_before (replaceFn : jstring -> jstring) (el : formField) :
  fld_original el = None ->
  fld_sanitize el (fld_value el) = fld_value el ->
  let restored := restoreField (fst (translateField replaceFn el)) in
  fld_value restored = fld_value el /\ fld_original restored = None.
Proof.
  intros Ho Hs. cbv zeta. unfold translateField. rewrite Ho.
  destruct (fld_active el); [cbn; unfold restoreField; now rewrite Ho|].
  destruct (isEmpty (fld_value el) || _);
    [cbn; unfold restoreField; now rewrite Ho|].
  cbv zeta.
  destruct (negb (str_eqb _ _));
    [|cbn; unfold restoreField; now rewrite Ho].
  cbn. split; [exact Hs | reflexivity].
Qed.

(** A field that reads AB. *)
Lemma restored_field_reads_as_before_witness :
  let el := mkField (js "AB") None [] false (fun v => v) in
  let restored :=
    restoreField (fst (translateField (replacerOf [(js "A", js "B")]) el)) in
  fld_value restored = js "AB" /\ fld_original restored = None.
Proof.
  apply (restored_field_reads_as_before (replacerOf [(js "A", js "B")])
           (mkField (js "AB") None [] false (fun v => v)));
    reflexivity.
Defined.

(* ================================================================= *)
(** ** The mapping reversed *)

Lemma has_PROTO : has OBJECT_PROTOTYPE PROTO = true.
Proof. reflexivity. Qed.

Lemma firstWithValue_head (l : jsobj) (k v : jstring) :
  firstWithValue ((k, v) :: l) k v.
Proof. exists [], l. split; [reflexivity|]. intros k' _ []. Qed.

Lemma firstWithValue_later (l : jsobj) (k0 v0 k v : jstring) :
  (v0 = v -> k0 = []) ->
  firstWithValue l k v -> firstWithValue ((k0, v0) :: l) k v.
Proof.
  intros Hne (pre & post & -> & Hpre). exists ((k0, v0) :: pre), post.
  split; [reflexivity|]. intros k' Hk' [H|H]; [|now apply (Hpre k')].
  injection H as Hk Hv. subst k'. now apply Hk', Hne.
Qed.

Lemma firstWithValue_cons (l : jsobj) (k0 v0 k v : jstring) :
  firstWithValue ((k0, v0) :: l) k v ->
  (k0 = k /\ v0 = v) \/ (firstWithValue l k v /\ (v0 = v -> k0 = [])).
Proof.
  intros (pre & post & E & Hpre). destruct pre as [|e pre]; simpl in E.
  - injection E as Hk Hv _. now left.
  - injection E as He El. subst e l. right. split.
    + exists pre, post. split; [reflexivity|].
      intros k' Hk' H. apply (Hpre k' Hk'). now right.
    + intros Hv. subst v0.
      destruct k0 as [|c k0]; [reflexivity|]. exfalso.
      apply (Hpre (c :: k0)); [discriminate | now left].
Qed.

Lemma reverseEntry_fold (l : jsobj) (acc : jsobj) (v k : jstring) :
  obj_get (fold_left reverseEntry l acc) v = Some k
  <-> obj_get acc v = Some k
      \/ (obj_get acc v = None /\ k <> [] /\ v <> []
          /\ has OBJECT_PROTOTYPE v = false /\ firstWithValue l k v).
Proof.
  revert acc; induction l as [|[k0 v0] l IH]; intros acc.
  - simpl. split; [now left|]. intros [H|(_ & _ & _ & _ & pre & post & H & _)];
      [exact H|]. now destruct pre.
  - cbn [fold_left]. rewrite IH. clear IH. unfold reverseEntry.
    destruct (isEmpty k0 || isEmpty v0) eqn:Ee.
    { assert (Hne : k <> [] -> v <> [] -> ~ (k0 = k /\ v0 = v)).
      { intros Hk Hv [-> ->]. apply isEmpty_false in Hk, Hv.
        now rewrite Hk, Hv in Ee. }
      split; (intros [H|(Hn & Hk & Hv & Hi & Hf)]; [now left|right]);
        (split; [exact Hn|]; split; [exact Hk|]; split; [exact Hv|];
         split; [exact Hi|]).
      - apply firstWithValue_later; [|exact Hf]. intros ->.
        apply orb_true_iff in Ee as [Ee|Ee]; apply isEmpty_true in Ee;
          [exact Ee | congruence].
      - apply firstWithValue_cons in Hf as [Hf|[Hf _]]; [|exact Hf].
        now destruct (Hne Hk Hv). }
    apply orb_false_iff in Ee as [Ek0 Ev0]. apply isEmpty_false in Ek0, Ev0.
    destruct (readsUndefined acc v0) eqn:Eu.
    + unfold readsUndefined in Eu. apply andb_true_iff in Eu as [Eo Ei].
      apply negb_true_iff in Eo, Ei.
      assert (Hnone : obj_get acc v0 = None).
      { unfold obj_has in Eo. now destruct (obj_get acc v0). }
      assert (Hproto : v0 <> PROTO).
      { intros ->. now rewrite has_PROTO in Ei. }
      destruct (list_eq_dec N.eq_dec v0 v) as [->|Hv0].
      * rewrite obj_get_set_same by exact Hproto. rewrite Hnone. split.
        -- intros [H|(H & _)]; [|discriminate]. injection H as <-.
           right. repeat split; try assumption. apply firstWithValue_head.
        -- intros [H|(_ & Hk & Hv & _ & Hf)]; [discriminate|].
           apply firstWithValue_cons in Hf as [[-> _]|[_ Hf]]; [now left|].
           now specialize (Hf eq_refl).
      * rewrite obj_get_set_other by congruence.
        split; (intros [H|(Hn & Hk & Hv & Hi & Hf)]; [now left|right]);
          (split; [exact Hn|]; split; [exact Hk|]; split; [exact Hv|];
           split; [exact Hi|]).
        -- apply firstWithValue_later; [|exact Hf]. intros E. now destruct Hv0.
        -- apply firstWithValue_cons in Hf as [[_ E]|[Hf _]]; [|exact Hf].
           now destruct Hv0.
    + assert (Hne : obj_get acc v = None -> has OBJECT_PROTOTYPE v = false ->
                    v0 <> v).
      { intros Hn Hi ->. unfold readsUndefined, obj_has in Eu.
        now rewrite Hn, Hi in Eu. }
      split; (intros [H|(Hn & Hk & Hv & Hi & Hf)]; [now left|right]);
        (split; [exact Hn|]; split; [exact Hk|]; split; [exact Hv|];
         split; [exact Hi|]).
      * apply firstWithValue_later; [|exact Hf]. intros E.
        now destruct (Hne Hn Hi).
      * apply firstWithValue_cons in Hf as [[_ E]|[Hf _]]; [|exact Hf].
        now destruct (Hne Hn Hi).
Qed.

(** X23: [reverseMapping] maps a value [v] to the key [k] exactly when
    [k] and [v] are not empty, [v] is not the name of a property that
    objects inherit from [Object.prototype], and [k -> v] is the first
    entry of the mapping with the value [v] and a key that is not
    empty. *)
Theorem reverseMapping_first_key_wins (mapping : jsobj) (v k : jstring) :
  obj_get (reverseMapping (Some mapping)) v = Some k
  <-> k <> [] /\ v <> [] /\ has OBJECT_PROTOTYPE v = false
      /\ firstWithValue mapping k v.
Proof.
  unfold reverseMapping. rewrite reverseEntry_fold. simpl. split.
  - intros [H|(_ & H)]; [discriminate | exact H].
  - intros H. right. split; [reflexivity | exact H].
Qed.

(* ================================================================= *)
(** ** Mutation Tracker: batches *)

(** X24: batches compose: the callback of the observer, given two batches
    of records one after the other on the same document, leaves the
    tracker as it does when given the two batches as one. *)
Theorem observer_batches_compose (enabled : bool) (d : document) (t : tracker)
    (first second : list mutationRecord) :
  observerCallback enabled d (observerCallback enabled d t first) second
  = observerCallback enabled d t (first ++ second).
Proof.
  unfold observerCallback.
  destruct (isApplying t) eqn:Ea; [now rewrite Ea|].
  rewrite fold_left_app.
  destruct enabled; cbn [negb isApplying pendingRoots scheduled]; reflexivity.
Qed.












